(** * IRMV: knowledge store, world-update engine and PDDL synthesizer

    A shallow embedding of the parts of the repository that the
    specification's properties talk about:

    - [PyStr]: the Python string operations the sources rely on;
    - [GoalNormalizer]: [normalize_goal_formula] of agent/tools/pddl_plan.py;
    - [WorldUpdate]: the TTL rewriter, the graph diff and the SPARQL
      generator of agent/nodes/world_update.py;
    - [Store]: the owlready2 world and the Neo4j projection that
      ontology_server/core/ontology.py drives, with the SPARQL update
      endpoint of ontology_server/core/api.py;
    - [Embedding]: [load_embeddings_from_file] of
      ontology_server/core/embedding.py;
    - [Topology]: [get_locations_with_paths] and [get_topology] of
      pddl/scripts/pddl_generator.py;
    - [MoveAction], [Node]: the move parser, the TTL versions and the
      [world_update] node of agent/nodes/world_update.py;
    - [TaskName]: [extract_task_description] of agent/tools/pddl_plan.py;
    - [GoalUtils]: the classification and the affordance check of
      pddl/scripts/pddl_goal_utils.py;
    - [Writer]: [generate_init_topology] of pddl/scripts/pddl_writer.py;
    - [Plan]: [parse_plan_file] of agent/nodes/plan_reader.py and
      [next_action] of agent/nodes/next_action.py.

    Text is ASCII: a Python [str] is a [string] of one-byte characters.

    The libraries are modelled as far as the repository uses them:
    [Rdf] reads the Turtle the repository's writers emit, [Owl] follows
    owlready2 on the individuals of the ontology.  What they do beyond
    that is a parameter of the model, of which nothing is assumed:
    [Rdf.parse_run] (the blank node identifiers of a parse, rdflib on
    other Turtle) and [Owl.library] (the other resources of the world,
    the Python attributes of the ontology object, reserved attribute
    names, calls on what is no individual). *)

From Stdlib Require Import String Ascii.
From stdpp Require Import base option list strings gmap sorting pretty.

Set Warnings "-register-all".

Local Open Scope string_scope.
Local Open Scope list_scope.
Local Open Scope nat_scope.

(* ===================================================================== *)
(** * Python string operations *)
(* ===================================================================== *)

Module PyStr.

Definition code (c : ascii) : nat := nat_of_ascii c.

(** The double quote, as a string of one character. *)
Definition dquote : string := String "034" EmptyString.

(** [str.isspace] on ASCII: TAB, LF, VT, FF, CR, FS, GS, RS, US, SPACE.
    It is the class stripped by [str.strip()], split on by
    [str.split()] and matched by the regular expression [\s]. *)
Definition is_space (c : ascii) : bool :=
  let n := code c in
  (((9 <=? n) && (n <=? 13)) || ((28 <=? n) && (n <=? 32)))%nat.

Definition is_upper (c : ascii) : bool :=
  let n := code c in ((65 <=? n) && (n <=? 90))%nat.

Definition is_lower (c : ascii) : bool :=
  let n := code c in ((97 <=? n) && (n <=? 122))%nat.

Definition is_digit (c : ascii) : bool :=
  let n := code c in ((48 <=? n) && (n <=? 57))%nat.

(** The regular expression class [\w] on ASCII. *)
Definition is_word (c : ascii) : bool :=
  is_upper c || is_lower c || is_digit c || (code c =? 95)%nat.

Definition upper_char (c : ascii) : ascii :=
  if is_lower c then ascii_of_nat (code c - 32) else c.

Definition lower_char (c : ascii) : ascii :=
  if is_upper c then ascii_of_nat (code c + 32) else c.

Fixpoint map_chars (f : ascii → ascii) (s : string) : string :=
  match s with
  | EmptyString => EmptyString
  | String c r => String (f c) (map_chars f r)
  end.

(** [s.upper()] *)
Definition upper (s : string) : string := map_chars upper_char s.

(** [s.startswith(p)] *)
Fixpoint startswith (p s : string) : bool :=
  match p, s with
  | EmptyString, _ => true
  | String a p', String b s' => Ascii.eqb a b && startswith p' s'
  | String _ _, EmptyString => false
  end.

(** [p in s] *)
Fixpoint contains (p s : string) : bool :=
  startswith p s ||
  match s with
  | EmptyString => false
  | String _ r => contains p r
  end.

(** [s[n:]] *)
Fixpoint slice_from (n : nat) (s : string) : string :=
  match n, s with
  | O, _ => s
  | S n', String _ r => slice_from n' r
  | S _, EmptyString => EmptyString
  end.

Fixpoint rev_onto (s acc : string) : string :=
  match s with
  | EmptyString => acc
  | String c r => rev_onto r (String c acc)
  end.

Definition reverse (s : string) : string := rev_onto s EmptyString.

(** [s.endswith(p)] *)
Definition endswith (p s : string) : bool := startswith (reverse p) (reverse s).

Fixpoint lstrip_by (f : ascii → bool) (s : string) : string :=
  match s with
  | EmptyString => EmptyString
  | String c r => if f c then lstrip_by f r else s
  end.

Definition strip_by (f : ascii → bool) (s : string) : string :=
  reverse (lstrip_by f (reverse (lstrip_by f s))).

(** [s.strip()] *)
Definition strip (s : string) : string := strip_by is_space s.

Fixpoint mem_char (c : ascii) (cs : string) : bool :=
  match cs with
  | EmptyString => false
  | String d r => Ascii.eqb c d || mem_char c r
  end.

(** [s.strip(chars)] *)
Definition strip_chars (chars s : string) : string :=
  strip_by (fun c => mem_char c chars) s.

(** [s.split(sep)] for a one-character separator: the pieces between
    the separators, never an empty list. *)
Fixpoint split_on (sep : ascii) (s : string) : list string :=
  match s with
  | EmptyString => [EmptyString]
  | String c r =>
      if Ascii.eqb c sep then EmptyString :: split_on sep r
      else match split_on sep r with
           | p :: ps => String c p :: ps
           | [] => [String c EmptyString]
           end
  end.

(** [s.split(sep)[-1]] *)
Definition last_piece (sep : ascii) (s : string) : string :=
  List.last (split_on sep s) EmptyString.

(** [s.split()]: the maximal runs of non-space characters. *)
Fixpoint split_ws_aux (cur : string) (s : string) : list string :=
  match s with
  | EmptyString =>
      match cur with EmptyString => [] | _ => [reverse cur] end
  | String c r =>
      if is_space c
      then match cur with
           | EmptyString => split_ws_aux EmptyString r
           | _ => reverse cur :: split_ws_aux EmptyString r
           end
      else split_ws_aux (String c cur) r
  end.

Definition split_ws (s : string) : list string := split_ws_aux EmptyString s.

(** [s.replace(old, new)] for a non-empty [old]: the occurrences of
    [old] are replaced from left to right, without overlap.  [skip]
    counts the characters of a matched occurrence still to be
    consumed. *)
Fixpoint replace_aux (old new : string) (skip : nat) (s : string) : string :=
  match s with
  | EmptyString => EmptyString
  | String c r =>
      match skip with
      | S k => replace_aux old new k r
      | O =>
          if startswith old s
          then new +:+ replace_aux old new (String.length old - 1) r
          else String c (replace_aux old new 0 r)
      end
  end.

Definition replace (old new s : string) : string :=
  match old with
  | EmptyString => s
  | _ => replace_aux old new 0 s
  end.

(** ["sep".join(parts)] *)
Fixpoint join (sep : string) (parts : list string) : string :=
  match parts with
  | [] => EmptyString
  | [p] => p
  | p :: ps => p +:+ sep +:+ join sep ps
  end.

End PyStr.

(* ===================================================================== *)
(** * The goal normalizer (agent/tools/pddl_plan.py) *)
(* ===================================================================== *)

Module GoalNormalizer.
Import PyStr.

(** A prefix of [s] matching the literal [p] under [re.IGNORECASE];
    the result is the rest of [s]. *)
Fixpoint match_nocase (p s : string) : option string :=
  match p, s with
  | EmptyString, _ => Some s
  | String a p', String b s' =>
      if Ascii.eqb (lower_char a) (lower_char b) then match_nocase p' s' else None
  | String _ _, EmptyString => None
  end.

(** The longest prefix of [s] made of characters of class [f], and
    the rest.  The classes [\s], [\w] and the closing parenthesis are
    pairwise disjoint, so the greedy match of [\s+] and [\w+] is the
    only one a backtracking matcher can find. *)
Fixpoint span (f : ascii → bool) (s : string) : string * string :=
  match s with
  | EmptyString => (EmptyString, EmptyString)
  | String c r =>
      if f c then let '(a, b) := span f r in (String c a, b)
      else (EmptyString, s)
  end.

(** [\s+(\w+)]: the captured word and the rest. *)
Definition match_arg (s : string) : option (string * string) :=
  match span is_space s with
  | (EmptyString, _) => None
  | (_, s1) =>
      match span is_word s1 with
      | (EmptyString, _) => None
      | (w, s2) => Some (w, s2)
      end
  end.

Fixpoint match_args (n : nat) (s : string) : option (list string * string) :=
  match n with
  | O => Some ([], s)
  | S k =>
      match match_arg s with
      | None => None
      | Some (w, s1) =>
          match match_args k s1 with
          | None => None
          | Some (ws, s2) => Some (w :: ws, s2)
          end
      end
  end.

(** A match of [\(NAME\s+(\w+)\)] (one argument) or
    [\(NAME\s+(\w+)\s+(\w+)\)] (two) at the start of [s]: the captured
    groups and the text after the match. *)
Definition match_pred (name : string) (nargs : nat) (s : string)
  : option (list string * string) :=
  match s with
  | String "(" r =>
      match match_nocase name r with
      | None => None
      | Some r1 =>
          match match_args nargs r1 with
          | Some (ws, String ")" r2) => Some (ws, r2)
          | _ => None
          end
      end
  | _ => None
  end.

(** [re.sub(pattern, replacer, text, flags=re.IGNORECASE)]: the
    leftmost matches, without overlap.  [fuel] bounds the number of
    scanning steps; the length of the text is enough. *)
Fixpoint re_sub (fuel : nat) (name : string) (nargs : nat)
    (repl : list string → string) (s : string) : string :=
  match fuel with
  | O => s
  | S k =>
      match s with
      | EmptyString => EmptyString
      | String c r =>
          match match_pred name nargs s with
          | Some (ws, rest) => repl ws +:+ re_sub k name nargs repl rest
          | None => String c (re_sub k name nargs repl r)
          end
      end
  end.

(** The replacers built by [make_replacer]: ["(pred a)"] and
    ["(pred a b)"]. *)
Definition replacer (pred : string) (ws : list string) : string :=
  "(" +:+ pred +:+ " " +:+ join " " ws +:+ ")".

(** [predicate_mappings]: pattern name, canonical predicate, arity. *)
Definition predicate_mappings : list (string * string * nat) :=
  [ ("isInSpace", "artifactIsInSpace", 2);
    ("isOnTopOf", "isOntopOf", 2);
    ("isOnTop", "isON", 1);
    ("isON", "isON", 1);
    ("isOpen", "isOpen", 1);
    ("isHeldBy", "isHeldBy", 2);
    ("isInsideOf", "isInsideOf", 2);
    ("isOntopOf", "isOntopOf", 2);
    ("robotIsInSpace", "robotIsInSpace", 2);
    ("artifactIsOnFloorOf", "artifactIsOnFloorOf", 2);
    ("artifactIsInSpace", "artifactIsInSpace", 2);
    ("isAdjacentTo", "isAdjacentTo", 2);
    ("isLocked", "isLocked", 1);
    ("isOpenDoor", "isOpenDoor", 1) ].

Definition apply_mapping (g : string) (m : string * string * nat) : string :=
  let '(name, pred, nargs) := m in
  re_sub (String.length g) name nargs (replacer pred) g.

(** [replace_isclosed] *)
Definition replace_isclosed (ws : list string) : string :=
  "(not (isOpen " +:+ join " " ws +:+ "))".

(** The inner [while] of [fix_not_syntax]: from [s = text[j:]] at
    nesting [depth], the text up to and including the parenthesis
    that closes depth 1, and the text after it; [None] when the end of
    the text comes first. *)
Fixpoint find_close (depth : nat) (s : string) {struct s}
  : option (string * string) :=
  match depth with
  | O => Some (EmptyString, s)
  | S d =>
      match s with
      | EmptyString => None
      | String c r =>
          let depth' :=
            if Ascii.eqb c "(" then S depth
            else if Ascii.eqb c ")" then d
            else depth in
          match find_close depth' r with
          | Some (a, b) => Some (String c a, b)
          | None => None
          end
      end
  end.

(** [fix_not_syntax]: [s = text[i:]], [prev = text[i-1]] when [i > 0].
    After a wrap the scan resumes at [j], just after the closing
    parenthesis, so the wrapped text itself is not scanned. *)
Fixpoint fix_not_from (fuel : nat) (prev : option ascii) (s : string) : string :=
  match fuel with
  | O => s
  | S k =>
      match s with
      | EmptyString => EmptyString
      | String c r =>
          let unwrapped :=
            match prev with
            | None => true
            | Some p => negb (Ascii.eqb p "(")
            end in
          if startswith "not (" s && unwrapped
          then match find_close 1 (slice_from 5 s) with
               | Some (inside, rest) =>
                   "(not " +:+ String "(" inside +:+ ")"
                     +:+ fix_not_from k (Some ")"%char) rest
               | None => String c (fix_not_from k (Some c) r)
               end
          else String c (fix_not_from k (Some c) r)
      end
  end.

Definition fix_not_syntax (text : string) : string :=
  fix_not_from (String.length text) None text.

Definition normalize_goal_formula (goal_formula : string) : string :=
  let g1 := foldl apply_mapping goal_formula predicate_mappings in
  let g2 := re_sub (String.length g1) "isClosed" 1 replace_isclosed g1 in
  fix_not_syntax g2.

End GoalNormalizer.


(* ===================================================================== *)
(** * RDF terms and graphs (rdflib) *)
(* ===================================================================== *)

Module Rdf.
Import PyStr.

(** An rdflib term.  A literal carries its lexical form ([str(term)]),
    the text of its Python value ([str(term.value)]), its datatype and
    its language tag. *)
Inductive term : Type :=
| URIRef (iri : string)
| Literal (lexical value : string) (datatype language : option string)
| BNode (id : string).

#[global] Instance term_eq_dec : EqDecision term.
Proof. solve_decision. Defined.

(** [str(term)] *)
Definition str (t : term) : string :=
  match t with
  | URIRef iri => iri
  | Literal lexical _ _ _ => lexical
  | BNode id => id
  end.

Definition triple : Type := term * term * term.

(** [rdflib.namespace.RDF.type] *)
Definition RDF_type : term :=
  URIRef "http://www.w3.org/1999/02/22-rdf-syntax-ns#type".

(** [set(a) - set(b)] on graphs listed without repetition. *)
Definition difference (a b : list triple) : list triple :=
  filter (λ t, t ∉ b) a.

(** ** Reading Turtle

    rdflib's Turtle parser is followed on the Turtle the repository's
    writers emit: [@prefix] directives with an absolute IRI,
    statements made of a subject and predicate-object lists with [;],
    [,] and a final [.], every token set off by white space; absolute
    IRIs in angle brackets, prefixed names whose local part is made of
    letters, digits, [_] and [-], [a] as a predicate, blank node labels, quoted strings
    without escapes, plain, with a language tag or typed
    [xsd:boolean] with the text [true] or [false], and [#] comments.
    What the reader does not take on is left to rdflib itself, see
    [parse_run]. *)

Fixpoint tokenize_aux (quoted escaped : bool) (cur : string) (s : string)
  : list string :=
  match s with
  | EmptyString => match cur with EmptyString => [] | _ => [reverse cur] end
  | String c r =>
      if quoted then
        if escaped then tokenize_aux true false (String c cur) r
        else if Ascii.eqb c "\" then tokenize_aux true true (String c cur) r
        else if Ascii.eqb c "034" then tokenize_aux false false (String c cur) r
        else tokenize_aux true false (String c cur) r
      else if Ascii.eqb c "034" then tokenize_aux true false (String c cur) r
      else if is_space c then
        match cur with
        | EmptyString => tokenize_aux false false EmptyString r
        | _ => reverse cur :: tokenize_aux false false EmptyString r
        end
      else match cur with
           | EmptyString =>
               if Ascii.eqb c "#" then []
               else tokenize_aux false false (String c cur) r
           | _ => tokenize_aux false false (String c cur) r
           end
  end.

Definition tokenize (line : string) : list string :=
  tokenize_aux false false EmptyString line.

(** The text of a quoted string up to its closing quote, and what
    follows the quote. *)
Fixpoint read_quoted (s : string) : option (string * string) :=
  match s with
  | EmptyString => None
  | String c r =>
      if Ascii.eqb c "034" then Some (EmptyString, r)
      else match read_quoted r with
           | Some (a, b) => Some (String c a, b)
           | None => None
           end
  end.

Fixpoint all_chars (f : ascii → bool) (s : string) : bool :=
  match s with
  | EmptyString => true
  | String c r => f c && all_chars f r
  end.

Definition is_letter (c : ascii) : bool := is_upper c || is_lower c.

(** The characters of a prefix, a local name or a label. *)
Definition is_name_char (c : ascii) : bool := is_word c || Ascii.eqb c "-".

Definition is_name (s : string) : bool :=
  match s with
  | EmptyString => true
  | String c _ => (is_letter c || Ascii.eqb c "_") && all_chars is_name_char s
  end.

(** A prefix: empty, or letters and digits after a letter. *)
Definition is_prefix (s : string) : bool :=
  match s with
  | EmptyString => true
  | String c r => is_letter c && all_chars (λ d, is_letter d || is_digit d) r
  end.

(** The characters between the angle brackets of an IRI. *)
Definition is_iri_char (c : ascii) : bool :=
  (33 <=? code c)%nat && (code c <=? 126)%nat
  && negb (mem_char c ("<>{}|^`\" +:+ dquote)).

(** An IRI with a scheme: it is taken as it is, where a relative one
    would be resolved against the path of the file. *)
Definition is_absolute (iri : string) : bool :=
  match split_on ":" iri with
  | String c scheme :: _ :: _ =>
      is_letter c
      && all_chars (λ d, is_letter d || is_digit d || mem_char d "+-.") scheme
      && all_chars is_iri_char iri
  | _ => false
  end.

Definition xsd_boolean : string := "http://www.w3.org/2001/XMLSchema#boolean".

(** [str(term.value)] of a boolean literal. *)
Definition python_value (lexical : string) : string :=
  if String.eqb lexical "true" then "True" else "False".

Definition lookup_prefix (prefixes : list (string * string)) (name : string)
  : option string :=
  snd <$> List.find (λ kv, String.eqb (fst kv) name) prefixes.

(** [prefix:local] *)
Definition resolve_pname (prefixes : list (string * string)) (tok : string)
  : option string :=
  match split_on ":" tok with
  | [pfx; loc] =>
      if is_prefix pfx && is_name loc
      then (λ ns, ns +:+ loc) <$> lookup_prefix prefixes pfx
      else None
  | _ => None
  end.

(** [<iri>] *)
Definition bracketed (tok : string) : option string :=
  if startswith "<" tok && endswith ">" (slice_from 1 tok)
  then let iri := reverse (slice_from 1 (reverse (slice_from 1 tok))) in
       if is_absolute iri then Some iri else None
  else None.

Definition resolve_iri (prefixes : list (string * string)) (tok : string)
  : option string :=
  if startswith "<" tok then bracketed tok else resolve_pname prefixes tok.

(** A quoted string with what follows it. *)
Definition resolve_literal (prefixes : list (string * string)) (r : string)
  : option term :=
  match read_quoted r with
  | None => None
  | Some (lexical, rest) =>
      if all_chars (λ c, negb (mem_char c ("\" +:+ String (ascii_of_nat 10)
                                              (String (ascii_of_nat 13) EmptyString))))
                   lexical
      then
        match rest with
        | EmptyString => Some (Literal lexical lexical None None)
        | String "@" lang =>
            match lang with
            | String c _ =>
                if is_lower c && all_chars (λ d, is_lower d || is_digit d
                                                 || Ascii.eqb d "-") lang
                then Some (Literal lexical lexical None (Some lang))
                else None
            | EmptyString => None
            end
        | String "^" (String "^" dt) =>
            match resolve_iri prefixes dt with
            | Some d =>
                if String.eqb d xsd_boolean
                   && (String.eqb lexical "true" || String.eqb lexical "false")
                then Some (Literal lexical (python_value lexical) (Some d) None)
                else None
            | None => None
            end
        | _ => None
        end
      else None
  end.

(** [_:label]: the identifier this parse has minted for the label. *)
Definition resolve_blank (mint : string → string) (tok : string) : option term :=
  let label := slice_from 2 tok in
  if negb (String.eqb label EmptyString) && is_name label
  then Some (BNode (mint label))
  else None.

Definition resolve_subject (mint : string → string)
    (prefixes : list (string * string)) (tok : string) : option term :=
  if startswith "_:" tok then resolve_blank mint tok
  else URIRef <$> resolve_iri prefixes tok.

Definition resolve_predicate (prefixes : list (string * string)) (tok : string)
  : option term :=
  if String.eqb tok "a" then Some RDF_type
  else URIRef <$> resolve_iri prefixes tok.

Definition resolve_object (mint : string → string)
    (prefixes : list (string * string)) (tok : string) : option term :=
  if startswith dquote tok then resolve_literal prefixes (slice_from 1 tok)
  else if startswith "_:" tok then resolve_blank mint tok
  else URIRef <$> resolve_iri prefixes tok.

Inductive expect : Type :=
| ESubject
| EPrefixName
| EPrefixIri (name : string)
| EPrefixDot
| EVerb (s : term)            (* after a subject: a predicate must follow *)
| EPredicate (s : term)       (* after [;] *)
| EObject (s p : term)
| EAfterObject (s p : term).

Record reader : Type := Reader {
  prefixes : list (string * string);
  expecting : expect
}.

Definition reader_init : reader := Reader [] ESubject.

(** One token. *)
Definition read_token (mint : string → string) (rd : reader) (tok : string)
  : option (reader * list triple) :=
  let pf := prefixes rd in
  match expecting rd with
  | ESubject =>
      if String.eqb tok "@prefix" then Some (Reader pf EPrefixName, [])
      else (λ s, (Reader pf (EVerb s), [])) <$> resolve_subject mint pf tok
  | EPrefixName =>
      let name := reverse (slice_from 1 (reverse tok)) in
      if endswith ":" tok && is_prefix name
      then Some (Reader pf (EPrefixIri name), [])
      else None
  | EPrefixIri name =>
      (λ iri, (Reader ((name, iri) :: pf) EPrefixDot, [])) <$> bracketed tok
  | EPrefixDot =>
      if String.eqb tok "." then Some (Reader pf ESubject, []) else None
  | EVerb s =>
      (λ p, (Reader pf (EObject s p), [])) <$> resolve_predicate pf tok
  | EPredicate s =>
      if String.eqb tok "." then Some (Reader pf ESubject, [])
      else if String.eqb tok ";" then Some (rd, [])
      else (λ p, (Reader pf (EObject s p), [])) <$> resolve_predicate pf tok
  | EObject s p =>
      (λ o, (Reader pf (EAfterObject s p), [(s, p, o)]))
        <$> resolve_object mint pf tok
  | EAfterObject s p =>
      if String.eqb tok "," then Some (Reader pf (EObject s p), [])
      else if String.eqb tok ";" then Some (Reader pf (EPredicate s), [])
      else if String.eqb tok "." then Some (Reader pf ESubject, [])
      else None
  end.

Fixpoint read_tokens (mint : string → string) (rd : reader) (toks : list string)
  : option (reader * list triple) :=
  match toks with
  | [] => Some (rd, [])
  | tok :: rest =>
      match read_token mint rd tok with
      | None => None
      | Some (rd1, ts1) =>
          match read_tokens mint rd1 rest with
          | None => None
          | Some (rd2, ts2) => Some (rd2, ts1 ++ ts2)
          end
      end
  end.

Definition read_line (mint : string → string) (rd : reader) (line : string)
  : option (reader * list triple) :=
  read_tokens mint rd (tokenize line).

Fixpoint read_lines (mint : string → string) (rd : reader) (lines : list string)
  : option (reader * list triple) :=
  match lines with
  | [] => Some (rd, [])
  | line :: rest =>
      match read_line mint rd line with
      | None => None
      | Some (rd1, ts1) =>
          match read_lines mint rd1 rest with
          | None => None
          | Some (rd2, ts2) => Some (rd2, ts1 ++ ts2)
          end
      end
  end.

(** What rdflib brings to one call of [Graph.parse]: the identifiers it
    mints for the blank node labels of the text, new at every parse,
    and its result on a text the reader above does not take on, [None]
    for a syntax error.  Nothing is assumed of either. *)
Record parse_run : Type := ParseRun {
  mint : string → string;
  otherwise : list string → option (list triple)
}.

(** [Graph().parse(path, format='turtle')]: the triples in the order of
    their first occurrence, [None] when rdflib raises. *)
Definition parse_turtle (run : parse_run) (lines : list string)
  : option (list triple) :=
  match read_lines (mint run) reader_init lines with
  | Some (Reader _ ESubject, ts) => Some (remove_dups ts)
  | _ => otherwise run lines
  end.

End Rdf.
(* ===================================================================== *)
(** * Python and JSON values *)
(* ===================================================================== *)

Module Py.
Import PyStr.

(** A JSON value, or the Python value it loads to.  A number is kept as
    its literal text. *)
Inductive value : Type :=
| None_
| Bool (b : bool)
| Num (literal : string)
| Str (s : string)
| List (items : list value)
| Dict (items : list (string * value)).

(** [d[key]] on the items of a dict. *)
Definition get (key : string) (items : list (string * value)) : option value :=
  snd <$> List.find (λ kv, String.eqb (fst kv) key) items.

(** A number literal that denotes zero: no digit of its mantissa is
    another one than [0]. *)
Fixpoint is_zero (lit : string) : bool :=
  match lit with
  | EmptyString => true
  | String c r =>
      if Ascii.eqb c "e" || Ascii.eqb c "E" then true
      else (negb (is_digit c) || Ascii.eqb c "0") && is_zero r
  end.

(** Python's truth value. *)
Definition is_truthy (v : value) : bool :=
  match v with
  | None_ => false
  | Bool b => b
  | Num lit => negb (is_zero lit)
  | Str s => negb (String.eqb s EmptyString)
  | List l => match l with [] => false | _ => true end
  | Dict l => match l with [] => false | _ => true end
  end.

Definition is_str (v : option value) (s : string) : bool :=
  match v with
  | Some (Str s') => String.eqb s' s
  | _ => false
  end.

(** [d[key] = v] and [d.get(key)] on a dict kept as the list of its
    items: a new key goes last, an old key keeps its place. *)
Definition assoc_set {V} (key : string) (v : V) (l : list (string * V))
  : list (string * V) :=
  if existsb (λ kv, String.eqb kv.1 key) l
  then map (λ kv, if String.eqb kv.1 key then (key, v) else kv) l
  else l ++ [(key, v)].

Definition assoc_get {V} (key : string) (l : list (string * V)) : option V :=
  snd <$> List.find (λ kv, String.eqb kv.1 key) l.

End Py.

(* ===================================================================== *)
(** * The world update engine (agent/nodes/world_update.py) *)
(* ===================================================================== *)

Module WorldUpdate.
Import PyStr Rdf.

(** ** The relationship mapping and the SPARQL generator *)

(** The relationship mapping is what [json.load] gives for
    action/relationship_mapping.json: any JSON value.  Where the code
    raises on it ([AttributeError] for [.get] on what is no dict,
    [KeyError] and [TypeError] for an entry without its keys,
    [TypeError] for what cannot be iterated), the functions below
    return [None]. *)

(** [v.get(key, default)] *)
Definition dict_get (v : Py.value) (key : string) (dflt : Py.value)
  : option Py.value :=
  match v with
  | Py.Dict items => Some (default dflt (Py.get key items))
  | _ => None
  end.

(** [v[key]] *)
Definition subscript (v : Py.value) (key : string) : option Py.value :=
  match v with
  | Py.Dict items => Py.get key items
  | _ => None
  end.

(** [for x in v] *)
Definition iterate (v : Py.value) : option (list Py.value) :=
  match v with
  | Py.List items => Some items
  | Py.Dict items => Some (map (λ kv, Py.Str kv.1) items)
  | Py.Str s => Some (map (λ c, Py.Str (String c EmptyString)) (list_ascii_of_string s))
  | _ => None
  end.

Definition truthy (s : option string) : option string :=
  match s with
  | Some EmptyString => None
  | _ => s
  end.

(** [format_term] *)
Definition format_term (t : term) : string :=
  match t with
  | URIRef iri => "<" +:+ iri +:+ ">"
  | Literal _ value datatype language =>
      match truthy datatype, truthy language with
      | Some d, _ => dquote +:+ value +:+ dquote +:+ "^^<" +:+ d +:+ ">"
      | None, Some l => dquote +:+ value +:+ dquote +:+ "@" +:+ l
      | None, None => dquote +:+ value +:+ dquote
      end
  | BNode id => "_:" +:+ id
  end.

(** How [get_inferred_relationships_for_delete] turns a local name
    into an IRI.  The default namespace already ends in ["#"]. *)
Definition entity_uri (namespace name : string) : string :=
  if negb (startswith "http" name)
  then if negb (startswith ":" name)
       then namespace +:+ "#" +:+ name
       else namespace +:+ name
  else name.

Definition predicate_uri (namespace name : string) : string :=
  if negb (startswith "http" name)
  then namespace +:+ "#" +:+ name
  else name.

(** The body of the loop over the entries: the triple one entry
    contributes. *)
Definition inferred_triple (namespace subject object_ : string)
    (inferred_rel : Py.value) : option (string * string * string) :=
  match subscript inferred_rel "relationship" with
  | None => None
  | Some inferred_predicate =>
      match subscript inferred_rel "type" with
      | None => None
      | Some inference_type =>
          match inferred_predicate with
          | Py.Str name =>
              let p := predicate_uri namespace name in
              let s := entity_uri namespace subject in
              let o := entity_uri namespace object_ in
              if Py.is_str (Some inference_type) "inverse_inference"
              then Some (o, p, s)
              else Some (s, p, o)
          | _ => None
          end
      end
  end.

Definition get_inferred_relationships_for_delete
    (asserted_predicate subject object_ : string)
    (mapping : Py.value) (namespace : string)
  : option (list (string * string * string)) :=
  match dict_get mapping "mappings" (Py.Dict []) with
  | None => None
  | Some mappings =>
      match dict_get mappings asserted_predicate Py.None_ with
      | None => None
      | Some predicate_mapping =>
          if Py.is_truthy predicate_mapping then
            match dict_get predicate_mapping "inferred_relationships" (Py.List []) with
            | None => None
            | Some inferred_rels =>
                match iterate inferred_rels with
                | None => None
                | Some rels => mapM (inferred_triple namespace subject object_) rels
                end
            end
          else Some []
      end
  end.

Definition asserted_predicates : list string :=
  [ "robotIsInSpace"; "artifactIsInSpace"; "isInsideOf"; "isOntopOf";
    "carries"; "spaceIsInStorey" ].

(** The local name [generate_sparql_update] extracts from a
    predicate. *)
Definition predicate_local (predicate_str : string) : option string :=
  if contains "#" predicate_str
  then Some (last_piece "#" predicate_str)
  else if endswith "robotIsInSpace" predicate_str
          || endswith "artifactIsInSpace" predicate_str
  then Some (if contains "/" predicate_str
             then last_piece "/" predicate_str
             else predicate_str)
  else None.

(** ... and from a subject or an object. *)
Definition local_name (s : string) : string :=
  if contains "#" s then last_piece "#" s
  else if startswith ":" s then slice_from 1 s
  else if contains "/" s then last_piece "/" s else s.

(** The state of the DELETE loops: [delete_clauses] and
    [delete_triples_set]. *)
Record delete_state : Type := DeleteState {
  delete_clauses : list string;
  delete_triples_set : list (string * string * string)
}.

Definition add_delete (line : string) (key : string * string * string)
    (st : delete_state) : delete_state :=
  if decide (key ∈ delete_triples_set st) then st
  else {| delete_clauses := delete_clauses st ++ [line];
          delete_triples_set := delete_triples_set st ++ [key] |}.

Definition term_line (t : triple) : string :=
  let '(s, p, o) := t in
  "    " +:+ format_term s +:+ " " +:+ format_term p +:+ " "
         +:+ format_term o +:+ " .".

Definition uri_line (k : string * string * string) : string :=
  let '(s, p, o) := k in
  "    <" +:+ s +:+ "> <" +:+ p +:+ "> <" +:+ o +:+ "> .".

(** The first loop: the removed triples themselves. *)
Definition add_asserted (st : delete_state) (t : triple) : delete_state :=
  let '(s, p, o) := t in
  add_delete (term_line t) (str s, str p, str o) st.

(** The inferred triples of one removed triple. *)
Definition inferred_for (mapping : Py.value) (namespace : string)
    (t : triple) : option (list (string * string * string)) :=
  let '(s, p, o) := t in
  match predicate_local (str p) with
  | Some pl =>
      if decide (pl ∈ asserted_predicates)
      then get_inferred_relationships_for_delete
             pl (local_name (str s)) (local_name (str o)) mapping namespace
      else Some []
  | None => Some []
  end.

(** The second loop: one removed triple.  The flag tells that an
    exception has ended the loop. *)
Definition add_inferred (mapping : Py.value) (namespace : string)
    (acc : delete_state * bool) (t : triple) : delete_state * bool :=
  if acc.2 then acc
  else
    match inferred_for mapping namespace t with
    | None => (acc.1, true)
    | Some keys => (foldl (λ st k, add_delete (uri_line k) k st) acc.1 keys, false)
    end.

(** The two DELETE loops of [generate_sparql_update]: the state they
    reach, and whether they were ended by an exception.  [mapping] is
    what [load_relationship_mapping] returned, [None] when there is no
    [project_root] or no mapping file. *)
Definition run_delete (removed_triples : list triple)
    (mapping : option Py.value) (namespace : string) : delete_state * bool :=
  let st1 := foldl add_asserted (DeleteState [] []) removed_triples in
  match mapping with
  | Some m =>
      if Py.is_truthy m
      then foldl (add_inferred m namespace) (st1, false) removed_triples
      else (st1, false)
  | None => (st1, false)
  end.

Definition build_delete (removed_triples : list triple)
    (mapping : option Py.value) (namespace : string) : delete_state :=
  (run_delete removed_triples mapping namespace).1.

Definition query_parts (added_triples removed_triples : list triple)
    (mapping : option Py.value) (namespace : string)
  : list string :=
  let dels := delete_clauses (build_delete removed_triples mapping namespace) in
  let ins := map term_line added_triples in
  (match dels with
   | [] => []
   | _ => ["DELETE {"] ++ dels ++ ["}"]
   end)
  ++ (match ins with
      | [] => []
      | _ => [match dels with [] => "INSERT DATA {" | _ => "INSERT {" end]
               ++ ins ++ ["}"]
      end)
  ++ (match dels, ins with
      | _ :: _, _ :: _ => ["WHERE { }"]
      | _, _ => []
      end).

Definition newline : string := String (ascii_of_nat 10) EmptyString.

(** [generate_sparql_update].  The sets of triples are given as the
    lists in which Python iterates over them; an exception gives the
    empty string. *)
Definition generate_sparql_update (added_triples removed_triples : list triple)
    (mapping : option Py.value) (namespace : string) : string :=
  if (run_delete removed_triples mapping namespace).2 then EmptyString
  else join newline (query_parts added_triples removed_triples mapping namespace).

Definition default_namespace : string :=
  "http://www.semanticweb.org/namh_woo/ontologies/2025/9/untitled-ontology-10#".

(** ** The line-oriented TTL rewriter *)

(** The first loop of [save_incremental_update_to_ttl]: the index of the
    line it rewrites.  [i] is the index of the head of [lines], [prev]
    is [lines[max(0, i-1)]] and [start] is [robot_block_start], [None]
    for [-1]. *)
Fixpoint find_in_block (robot_id from_location : string) (i : nat)
    (prev : string) (start : option nat) (lines : list string) : option nat :=
  match lines with
  | [] => None
  | line :: rest =>
      let start1 :=
        if contains (":" +:+ robot_id) line
           && (contains "rdf:type" line || contains "rdf:type" prev)
        then Some i else start in
      match start1 with
      | Some b =>
          if contains ":robotIsInSpace" line
          then if contains (":" +:+ from_location) line
               then Some i
               else if contains ";" line && (b + 10 <? i)%nat
               then find_in_block robot_id from_location (S i) line None rest
               else find_in_block robot_id from_location (S i) line start1 rest
          else find_in_block robot_id from_location (S i) line start1 rest
      | None => find_in_block robot_id from_location (S i) line None rest
      end
  end.

(** The alternative search: the first line with [":robotIsInSpace"] and
    the old location. *)
Fixpoint find_anywhere (from_location : string) (i : nat)
    (lines : list string) : option nat :=
  match lines with
  | [] => None
  | line :: rest =>
      if contains ":robotIsInSpace" line && contains (":" +:+ from_location) line
      then Some i
      else find_anywhere from_location (S i) rest
  end.

(** The line [save_incremental_update_to_ttl] rewrites, if any. *)
Definition rewritten_line (lines : list string)
    (robot_id from_location : string) : option nat :=
  match find_in_block robot_id from_location 0 (hd EmptyString lines) None lines with
  | Some i => Some i
  | None => find_anywhere from_location 0 lines
  end.

Definition rewrite_line (from_location to_location line : string) : string :=
  replace (":" +:+ from_location) (":" +:+ to_location) line.

(** [save_incremental_update_to_ttl]: [original] is the content of the
    original file, [None] when it does not exist; the result is the
    content written to the new file, [None] when the function returns
    [False]. *)
Definition save_incremental_update_to_ttl (original : option (list string))
    (robot_id from_location to_location : string) : option (list string) :=
  match original with
  | None => None
  | Some lines =>
      match rewritten_line lines robot_id from_location with
      | None => None
      | Some i =>
          match lines !! i with
          | None => None
          | Some line =>
              Some (<[i := rewrite_line from_location to_location line]> lines)
          end
      end
  end.

(** [extract_changes_with_rdflib]: [(added_triples, removed_triples)];
    two empty sets when rdflib raises on one of the files.  Each file
    is parsed in a run of its own. *)
Definition extract_changes_with_rdflib (original_run updated_run : parse_run)
    (original updated : list string) : list triple * list triple :=
  match parse_turtle original_run original, parse_turtle updated_run updated with
  | Some g0, Some g1 => (difference g1 g0, difference g0 g1)
  | _, _ => ([], [])
  end.

End WorldUpdate.

(* ===================================================================== *)
(** * Path expansion and distances (pddl/scripts/pddl_generator.py) *)
(* ===================================================================== *)

Module Topology.

(** One row of the shortest-path query of [get_locations_with_paths]:
    [path_nodes] and [path_length] are [None] for Cypher's [null]. *)
Record path_record : Type := PathRecord {
  loc1 : string;
  loc2 : string;
  path_nodes : option (list string);
  path_length : option nat;
  has_direct_connection : bool
}.

Abbreviation distance_table := (gmap (string * string) nat).

(** [if key not in distances: distances[key] = value] *)
Definition set_default (key : string * string) (value : nat)
    (distances : distance_table) : distance_table :=
  match distances !! key with
  | Some _ => distances
  | None => <[key := value]> distances
  end.

(** The inner loop over [path_nodes[i+1:]]: [offset] is [j - i] for the
    head of [rest]. *)
Fixpoint record_from (node1 : string) (offset : nat) (rest : list string)
    (distances : distance_table) : distance_table :=
  match rest with
  | [] => distances
  | node2 :: rest' =>
      record_from node1 (S offset) rest'
        (set_default (node2, node1) offset
           (set_default (node1, node2) offset distances))
  end.

(** The loop over all pairs [i < j] of a path. *)
Fixpoint record_subpaths (path : list string) (distances : distance_table)
  : distance_table :=
  match path with
  | [] => distances
  | node1 :: rest => record_subpaths rest (record_from node1 1 rest distances)
  end.

(** The body of the loop over the query's rows. *)
Definition record_row (acc : gset string * distance_table) (r : path_record)
  : gset string * distance_table :=
  let '(all_locations, distances) := acc in
  match path_nodes r, path_length r with
  | Some (n :: ns), Some len =>
      let d1 := <[(loc1 r, loc2 r) := len]> distances in
      let d2 := <[(loc2 r, loc1 r) := len]> d1 in
      (all_locations ∪ list_to_set (n :: ns), record_subpaths (n :: ns) d2)
  | _, _ =>
      if has_direct_connection r
      then (all_locations,
            <[(loc2 r, loc1 r) := 1]> (<[(loc1 r, loc2 r) := 1]> distances))
      else (all_locations, distances)
  end.

Definition string_le (a b : string) : Prop := String.leb a b = true.

#[global] Instance string_le_dec : RelDecision string_le.
Proof. intros a b. unfold string_le. apply _. Defined.

(** [sorted(all_locations)] *)
Definition sorted (s : gset string) : list string :=
  merge_sort string_le (elements s).

(** The pairs [(location_list[i], location_list[j])], [i < j]. *)
Fixpoint all_pairs (l : list string) : list (string * string) :=
  match l with
  | [] => []
  | x :: rest => map (λ y, (x, y)) rest ++ all_pairs rest
  end.

(** The location set after the artifact pairs are added, and the pairs
    the query is run on. *)
Definition required_locations (location_ids : list string)
    (artifact_pairs : list (string * string)) : gset string :=
  foldl (λ (s : gset string) '(a, b), s ∪ {[a]} ∪ {[b]})
        (list_to_set location_ids) artifact_pairs.

Definition queried_pairs (location_ids : list string)
    (artifact_pairs : list (string * string)) : list (string * string) :=
  all_pairs (sorted (required_locations location_ids artifact_pairs)).

(** [get_locations_with_paths].  [shortest_paths] runs the Cypher query
    on the projection for the given pairs. *)
Definition get_locations_with_paths
    (shortest_paths : list (string * string) → list path_record)
    (location_ids : list string)
    (artifact_pairs : list (string * string))
  : gset string * distance_table :=
  if (length location_ids <? 2)%nat then (list_to_set location_ids, ∅)
  else
    foldl record_row (required_locations location_ids artifact_pairs, ∅)
          (shortest_paths (queried_pairs location_ids artifact_pairs)).

(** The [connections] of [get_topology]: each connected pair once. *)
Definition add_connection (connections : list (string * string))
    (row : string * string) : list (string * string) :=
  let '(from_id, to_id) := row in
  if decide ((from_id, to_id) ∈ connections ∨ (to_id, from_id) ∈ connections)
  then connections
  else connections ++ [(from_id, to_id)].

Definition add_direct (distances : distance_table) (c : string * string)
  : distance_table :=
  let '(from_id, to_id) := c in
  set_default (to_id, from_id) 1 (set_default (from_id, to_id) 1 distances).

(** [get_topology]: the connections and the distances handed to the
    writer.  [direct_edges] runs the [hasPathTo] query for the given
    location ids. *)
Definition get_topology
    (direct_edges : list string → list (string * string))
    (location_ids : gset string)
    (precomputed_distances : distance_table)
  : list (string * string) * distance_table :=
  if decide (location_ids = ∅) then ([], ∅)
  else
    let connections := foldl add_connection [] (direct_edges (elements location_ids)) in
    (connections, foldl add_direct precomputed_distances connections).

(** The topology the synthesizer emits for a set of required
    locations: path expansion, then the topology of the expanded set
    with the precomputed distances. *)
Definition emitted_distances
    (shortest_paths : list (string * string) → list path_record)
    (direct_edges : list string → list (string * string))
    (location_ids : list string) (artifact_pairs : list (string * string))
  : gset string * distance_table :=
  let '(all_locations, precomputed) :=
    get_locations_with_paths shortest_paths location_ids artifact_pairs in
  (all_locations, snd (get_topology direct_edges all_locations precomputed)).

(** ** The projection's navigation graph *)

(** The part of the projection the two queries read: the [hasPathTo]
    edges between node ids and the ids of the nodes labelled [Space],
    [Door], [Stairs] or [Opening]. *)
Record projection : Type := Projection {
  hasPathTo : list (string * string);
  location_nodes : list string
}.

(** [(a)-[:hasPathTo]-(b)]: an edge in either direction. *)
Definition adjacent (P : projection) (x y : string) : Prop :=
  (x, y) ∈ hasPathTo P ∨ (y, x) ∈ hasPathTo P.

(** The same, in the subgraph restricted to location nodes. *)
Definition adjacent_loc (P : projection) (x y : string) : Prop :=
  adjacent P x y ∧ x ∈ location_nodes P ∧ y ∈ location_nodes P.

(** [walk adj a p b]: [p] lists the nodes of a walk from [a] to [b]. *)
Inductive walk (adj : string → string → Prop) : string → list string → string → Prop :=
| walk_one a : walk adj a [a] a
| walk_step a x p b : adj a x → walk adj x p b → walk adj a (a :: p) b.

Definition hops (p : list string) : nat := length p - 1.

(** [n] is the shortest-path hop count from [a] to [b]. *)
Definition distance (adj : string → string → Prop) (a b : string) (n : nat) : Prop :=
  (∃ p, walk adj a p b ∧ hops p = n) ∧
  (∀ q, walk adj a q b → n ≤ hops q).

(** What the shortest-path query answers on projection [P]: rows only
    for endpoints that are location nodes; a path is a shortest
    [hasPathTo] walk between them, of 1 to 50 hops, over any
    intermediate nodes; the direct flag tells an edge. *)
Definition row_answers (P : projection) (r : path_record) : Prop :=
  loc1 r ∈ location_nodes P ∧ loc2 r ∈ location_nodes P ∧
  match path_nodes r with
  | Some p =>
      walk (adjacent P) (loc1 r) p (loc2 r) ∧
      (∀ q, walk (adjacent P) (loc1 r) q (loc2 r) → hops p ≤ hops q) ∧
      1 ≤ hops p ≤ 50 ∧
      path_length r = Some (hops p)
  | None => path_length r = None
  end ∧
  (has_direct_connection r = true → adjacent P (loc1 r) (loc2 r)) ∧
  loc1 r ≠ loc2 r.

(** What the [hasPathTo] query of [get_topology] answers. *)
Definition edge_answers (P : projection) (row : string * string) : Prop :=
  row ∈ hasPathTo P ∧ row.1 ≠ row.2.

End Topology.

(* ===================================================================== *)
(** * The Neo4j projection *)
(* ===================================================================== *)

Module Neo4j.
Import Py.

Record node : Type := Node {
  labels : list string;
  props : list (string * Py.value)
}.

(** An edge: start node, relationship type, end node. *)
Definition edge : Type := nat * string * nat.

(** The property graph: nodes by their internal identity, and edges. *)
Record graph : Type := Graph {
  nodes : gmap nat node;
  edges : list edge
}.

Definition empty : graph := Graph ∅ [].

Definition has_label (l : string) (n : node) : bool := bool_decide (l ∈ labels n).

(** The node pattern [(x:L1:...:Lk {id: $id})]. *)
Definition matches (ls : list string) (id : string) (n : node) : bool :=
  forallb (λ l, has_label l n) ls && Py.is_str (assoc_get "id" (props n)) id.

(** [MATCH (x:L1:...:Lk {id: $id})]: the identities of the nodes. *)
Definition match_nodes (ls : list string) (id : string) (g : graph) : list nat :=
  (map_to_list (filter (λ kn, matches ls id kn.2 = true) (nodes g))).*1.

(** [SET x.name = value] on the given nodes. *)
Definition set_prop (name : string) (v : Py.value) (keys : list nat)
    (g : graph) : graph :=
  Graph (foldl (λ ns k, alter (λ n, Node (labels n) (assoc_set name v (props n))) k ns)
               (nodes g) keys)
        (edges g).

Definition set_props (kvs : list (string * Py.value)) (keys : list nat)
    (g : graph) : graph :=
  foldl (λ g kv, set_prop kv.1 kv.2 keys g) g kvs.

(** [MERGE (x:L1:...:Lk {id: $id}) SET x.k1 = v1, ...]: the nodes
    matching the pattern, or else a new node with these labels and
    [id], get the properties. *)
Definition merge_node (ls : list string) (id : string)
    (kvs : list (string * Py.value)) (g : graph) : graph :=
  match match_nodes ls id g with
  | [] =>
      let k := fresh (dom (nodes g)) in
      set_props kvs [k]
        (Graph (<[k := Node ls [("id", Py.Str id)]]> (nodes g)) (edges g))
  | keys => set_props kvs keys g
  end.

(** [MERGE (a)-[:T]->(b)] for one pair of bound nodes. *)
Definition merge_edge (t : string) (a b : nat) (g : graph) : graph :=
  if decide ((a, t, b) ∈ edges g) then g
  else Graph (nodes g) (edges g ++ [(a, t, b)]).

(** [MATCH (a:La {id: $ida}) MATCH (b:Lb {id: $idb}) MERGE (a)-[:T]->(b)] *)
Definition merge_edges (la : string) (ida : string) (t : string)
    (lb : string) (idb : string) (g : graph) : graph :=
  foldl (λ g a, foldl (λ g b, merge_edge t a b g) g (match_nodes [lb] idb g))
        g (match_nodes [la] ida g).

(** [MATCH (n) DETACH DELETE n] *)
Definition delete_all (g : graph) : graph := empty.

(** [MATCH (i:L) DETACH DELETE i] *)
Definition detach_delete (l : string) (g : graph) : graph :=
  let kept := filter (λ kn, has_label l kn.2 = false) (nodes g) in
  Graph kept
        (filter (λ e, is_Some (kept !! e.1.1) ∧ is_Some (kept !! e.2)) (edges g)).

(** [MATCH (a:L {id: $ida})-[rel]->(b:L {id: $idb}) DELETE rel] *)
Definition delete_edges_between (l : string) (ida idb : string) (g : graph)
  : graph :=
  let srcs := match_nodes [l] ida g in
  let dsts := match_nodes [l] idb g in
  Graph (nodes g)
        (filter (λ e, ¬ (e.1.1 ∈ srcs ∧ e.2 ∈ dsts)) (edges g)).

(** The edges of type [t] leaving a node [(:L {id: $id})], as the ids
    of their end nodes. *)
Definition out_edges (l : string) (id : string) (t : string) (g : graph)
  : list edge :=
  filter (λ e, e.1.1 ∈ match_nodes [l] id g ∧ e.1.2 = t) (edges g).

End Neo4j.

(* ===================================================================== *)
(** * The owlready2 world *)
(* ===================================================================== *)

Module Owl.
Import PyStr Py.

Record owl_class : Type := OwlClass {
  c_name : string;
  c_parents : list string      (* the named classes of [is_a], [Thing] apart *)
}.

Record owl_property : Type := OwlProperty {
  p_name : string;
  p_functional : bool;
  p_domain : list string;      (* the named classes of [domain] *)
  p_range : list string;       (* the named classes of [range] *)
  p_parents : list string      (* the named properties of [is_a] *)
}.

(** The schema loaded from the OWL file. *)
Record schema : Type := Schema {
  base_iri : string;
  classes : list owl_class;
  object_properties : list owl_property;
  data_properties : list owl_property
}.

(** An individual of the asserted model: its asserted classes, its data
    property values and its object property values, the latter as the
    names of the entities they point to.  A functional property holds
    at most one value. *)
Record individual : Type := Individual {
  i_name : string;
  i_is_a : list string;
  i_data : list (string * list Py.value);
  i_objects : list (string * list string)
}.

(** The asserted OWL model: the schema and the individuals, in the
    order of their creation. *)
Record world : Type := World {
  w_schema : schema;
  individuals : list individual
}.

(** The Python exceptions of the model. *)
Inductive exn : Type :=
| ValueError
| AttributeError
| KeyError
| TypeError
| FileNotFoundError
| ReasonerError.     (* whatever [sync_reasoner_hermit] raises *)

(** What [search_one] can return: an entity of the ontology, or
    another resource of the world (the ontology itself, a built-in of
    OWL or RDF, ...), known by its IRI. *)
Inductive entity : Type :=
| EClass (name : string)
| EObjectProperty (name : string)
| EDataProperty (name : string)
| EIndividual (name : string)
| EOther (iri : string).

Definition entity_name (e : entity) : string :=
  match e with
  | EClass n | EObjectProperty n | EDataProperty n | EIndividual n => n
  | EOther iri => iri
  end.

(** The entities of the ontology in the order of their store ids: the
    schema first. *)
Definition entities (w : world) : list entity :=
  map (λ c, EClass (c_name c)) (classes (w_schema w))
  ++ map (λ p, EObjectProperty (p_name p)) (object_properties (w_schema w))
  ++ map (λ p, EDataProperty (p_name p)) (data_properties (w_schema w))
  ++ map (λ i, EIndividual (i_name i)) (individuals w).

Definition iri (w : world) (name : string) : string :=
  base_iri (w_schema w) +:+ name.

Definition entity_iri (w : world) (e : entity) : string :=
  match e with
  | EOther iri => iri
  | _ => iri w (entity_name e)
  end.

Definition is_scalar (v : Py.value) : bool :=
  match v with
  | Py.Bool _ | Py.Num _ | Py.Str _ => true
  | _ => false
  end.

(** What Python hands to [setattr]: a value taken from the request, or
    the list of entities [_set_object_properties] resolved. *)
Inductive attr_value : Type :=
| AValue (v : Py.value)
| AEntities (targets : list entity).

(** The calls that leave this model: owlready2 is asked to work on
    what is no individual, on an attribute it gives a meaning of its
    own, or with a value of a shape the model does not follow. *)
Inductive call : Type :=
| Instantiate (attribute id : string)
    (data_properties : option (list (string * Py.value)))
    (object_properties : option (list (string * list string)))
      (* [cls(id)] for a [cls] that is no class, and the assignments
         to what it returns *)
| SetAttr (e : entity) (attr : string) (v : attr_value)
      (* [setattr(e, attr, v)] *)
| Remove (e : entity) (attr : string) (x : entity)
      (* [getattr(e, attr).remove(x)] *)
| Append (e : entity) (attr : string) (x : entity)
      (* [setattr(e, attr, getattr(e, attr, []) + [x])], unless [x] is
         among the values already *)
| Destroy (e : entity).
      (* [destroy_entity(e)] *)

(** owlready2 beyond the model.  Nothing is assumed of it. *)
Record library : Type := Library {
  (* the other resources of the world, in front of the entities of the
     ontology in the order of the store ids: the IRI, and whether the
     Python object the world holds for it is truthy *)
  other_resources : list (string * bool);
  (* the Python attributes of the ontology object ([name], [world],
     [save], ...) with their truth values *)
  ontology_attribute : string → option bool;
  (* [hasattr(ontology, name)] for a name that is neither such an
     attribute nor an entity *)
  hasattr_of_missing : bool;
  (* the attribute names that owlready2 gives a meaning of its own on
     an individual besides [special_attributes]: its methods, the
     annotation properties, ... *)
  reserved : string → bool;
  (* what a call that leaves the model does to the asserted model,
     with the exception it raises, if any *)
  outside : call → world → world * (exn + unit)
}.

(** The resources a search goes through, each with the truth value of
    its Python object. *)
Definition resources (L : library) (w : world) : list (entity * bool) :=
  map (λ r, (EOther r.1, r.2)) (other_resources L)
  ++ map (λ e, (e, true)) (entities w).

(** [ontology.search_one(iri=f"*{id}")] where the code goes on to test
    the result: the first resource whose IRI ends with [id], if it is
    truthy. *)
Definition search_one (L : library) (w : world) (id : string) : option entity :=
  match List.find (λ r, endswith id (entity_iri w r.1)) (resources L w) with
  | Some (e, true) => Some e
  | _ => None
  end.

(** What [getattr(ontology, class_name, None)] gives when it is
    truthy: a class, or something else. *)
Inductive attribute : Type :=
| AClass (c : owl_class)
| AOther.

(** [getattr(ontology, class_name, None)], [None] for what is falsy: a
    Python attribute of the ontology object, or else the entity of
    that name. *)
Definition get_class (L : library) (w : world) (class_name : string)
  : option attribute :=
  match ontology_attribute L class_name with
  | Some true => Some AOther
  | Some false => None
  | None =>
      match List.find (λ c, String.eqb (c_name c) class_name)
                      (classes (w_schema w)) with
      | Some c => Some (AClass c)
      | None =>
          if existsb (λ e, String.eqb (entity_name e) class_name) (entities w)
          then Some AOther
          else None
      end
  end.

Definition get_object_property (w : world) (name : string) : option owl_property :=
  List.find (λ p, String.eqb (p_name p) name) (object_properties (w_schema w)).

Definition get_data_property (w : world) (name : string) : option owl_property :=
  List.find (λ p, String.eqb (p_name p) name) (data_properties (w_schema w)).

(** [hasattr(ontology, name)] *)
Definition has_entity (L : library) (w : world) (name : string) : bool :=
  bool_decide (is_Some (ontology_attribute L name))
  || existsb (λ e, String.eqb (entity_name e) name) (entities w)
  || hasattr_of_missing L.

Definition get_individual (w : world) (name : string) : option individual :=
  List.find (λ i, String.eqb (i_name i) name) (individuals w).

(** [cls(individual_id)] for a class and an id no resource carries
    yet. *)
Definition create (w : world) (cls : owl_class) (id : string) : world :=
  World (w_schema w) (individuals w ++ [Individual id [c_name cls] [] []]).

Definition update_individual_record (w : world) (name : string)
    (f : individual → individual) : world :=
  World (w_schema w)
        (map (λ i, if String.eqb (i_name i) name then f i else i) (individuals w)).

Definition set_objects (w : world) (name prop : string) (targets : list string)
  : world :=
  update_individual_record w name
    (λ i, Individual (i_name i) (i_is_a i) (i_data i)
                     (assoc_set prop targets (i_objects i))).

Definition set_data (w : world) (name prop : string) (vs : list Py.value)
  : world :=
  update_individual_record w name
    (λ i, Individual (i_name i) (i_is_a i) (assoc_set prop vs (i_data i))
                     (i_objects i)).

(** The asserted values of an object property. *)
Definition objects_of (w : world) (name prop : string) : list string :=
  match get_individual w name with
  | Some i => default [] (assoc_get prop (i_objects i))
  | None => []
  end.

(** [owl.destroy_entity(individual)] for an individual: it goes, with
    every reference to it. *)
Definition destroy (w : world) (name : string) : world :=
  World (w_schema w)
    (map (λ i, Individual (i_name i) (i_is_a i) (i_data i)
                 (map (λ kv, (kv.1, filter (λ t, t ≠ name) kv.2)) (i_objects i)))
         (filter (λ i, i_name i ≠ name) (individuals w))).

(** [owl.destroy_entity(e)] *)
Definition destroy_entity (L : library) (w : world) (e : entity)
  : world * (exn + unit) :=
  match e with
  | EIndividual name => (destroy w name, inr ())
  | _ => outside L (Destroy e) w
  end.

(** The attributes of an entity that owlready2 handles itself
    ([name] renames the entity, [is_a] changes its classes), with the
    names that start with an underscore and the [INDIRECT_] views. *)
Definition special_attributes : list string :=
  ["namespace"; "name"; "iri"; "storid"; "is_a"; "is_instance_of";
   "equivalent_to"].

(** An attribute name that is not for a property of the ontology or a
    plain Python attribute. *)
Definition is_reserved (L : library) (attr : string) : bool :=
  startswith "_" attr || startswith "INDIRECT_" attr
  || bool_decide (attr ∈ special_attributes) || reserved L attr.

(** The names under which the values of an object property are kept;
    a resource outside the ontology has none. *)
Definition names_of (targets : list entity) : option (list string) :=
  mapM (λ e, match e with
             | EOther _ => None
             | _ => Some (entity_name e)
             end) targets.

Inductive outcome : Type :=
| Done (w : world)
| Raises (e : exn)
| Unknown.

(** [setattr(individual, attr, value)] for an individual and an
    attribute that is not reserved, as far as the model follows
    owlready2.  A name that is no property of the ontology sets a plain
    Python attribute, outside the OWL model.  A property that is not
    functional takes a list and raises [ValueError] for anything else;
    a functional property takes one value or [None]. *)
Definition assign (w : world) (name attr : string) (v : attr_value) : outcome :=
  match get_object_property w attr, get_data_property w attr with
  | Some p, _ =>
      if p_functional p then
        match v with
        | AValue Py.None_ => Done (set_objects w name attr [])
        | _ => Unknown
        end
      else
        match v with
        | AEntities targets =>
            match names_of targets with
            | Some names => Done (set_objects w name attr names)
            | None => Unknown
            end
        | AValue (Py.List []) => Done (set_objects w name attr [])
        | AValue (Py.List _) => Unknown
        | AValue _ => Raises ValueError
        end
  | None, Some p =>
      if p_functional p then
        match v with
        | AValue Py.None_ => Done (set_data w name attr [])
        | AValue x =>
            if is_scalar x then Done (set_data w name attr [x]) else Unknown
        | AEntities _ => Unknown
        end
      else
        match v with
        | AValue (Py.List xs) =>
            if forallb is_scalar xs then Done (set_data w name attr xs)
            else Unknown
        | AValue _ => Raises ValueError
        | AEntities _ => Unknown
        end
  | None, None => Done w
  end.

(** [setattr(e, attr, value)]: the asserted model after it, and the
    exception it raises, if any. *)
Definition setattr (L : library) (w : world) (e : entity) (attr : string)
    (v : attr_value) : world * (exn + unit) :=
  match e with
  | EIndividual name =>
      if is_reserved L attr then outside L (SetAttr e attr v) w
      else
        match assign w name attr v with
        | Done w' => (w', inr ())
        | Raises ex => (w, inl ex)
        | Unknown => outside L (SetAttr e attr v) w
        end
  | _ => outside L (SetAttr e attr v) w
  end.

(** The materialization the reasoner computes: what
    [individual.INDIRECT_is_a] and [individual.INDIRECT_<prop>] read. *)
Record reasoned : Type := Reasoned {
  indirect_is_a : string → list string;
  indirect_values : string → string → list string
}.

(** Before any reasoning the indirect values are the asserted ones. *)
Definition asserted_view (w : world) : reasoned :=
  Reasoned (λ name, match get_individual w name with
                    | Some i => i_is_a i
                    | None => []
                    end)
           (objects_of w).

(** [owl.sync_reasoner_hermit(world, infer_property_values=True)]:
    HermiT is outside the repository; [None] stands for an exception
    (an inconsistent ontology, a failing Java process). *)
Definition reasoner : Type := world → option reasoned.

(** The reasoner of a schema without axioms: nothing is inferred. *)
Definition no_inference : reasoner := λ w, Some (asserted_view w).

End Owl.

(* ===================================================================== *)
(** * State and exceptions *)
(* ===================================================================== *)

Module Exc.
Import Owl.

(** A computation on a state [S] that returns an [A] or raises; the
    state it leaves is kept either way, as Python keeps the mutations
    made before an exception. *)
Definition M (S A : Type) : Type := S → S * (exn + A).

Definition ret {S A} (a : A) : M S A := λ s, (s, inr a).

Definition bind {S A B} (c : M S A) (f : A → M S B) : M S B :=
  λ s,
    match c s with
    | (s', inr a) => f a s'
    | (s', inl e) => (s', inl e)
    end.

Definition raise {S A} (e : exn) : M S A := λ s, (s, inl e).

Definition get {S} : M S S := λ s, (s, inr s).

Definition modify {S} (f : S → S) : M S unit := λ s, (f s, inr ()).

(** [try: c except Exception as e: h e] *)
Definition catch {S A} (c : M S A) (h : exn → M S A) : M S A :=
  λ s,
    match c s with
    | (s', inl e) => h e s'
    | r => r
    end.

(** [for x in l: body x] *)
Fixpoint for_each {S A} (l : list A) (body : A → M S unit) : M S unit :=
  match l with
  | [] => ret ()
  | x :: rest => bind (body x) (λ _, for_each rest body)
  end.

Module Notations.
Notation "x <- c ; k" := (bind c (λ x, k))
  (at level 20, c at level 100, k at level 200, only parsing).
End Notations.

End Exc.

(* ===================================================================== *)
(** * The embedding binder (ontology_server/core/embedding.py) *)
(* ===================================================================== *)

Module Embedding.
Import Owl Exc Exc.Notations.

(** An [EmbeddingManager]: the configured description model and
    dimensionality (the category pair plays no part in what follows),
    and the embedding service, [None] when the call fails. *)
Record embedding_manager : Type := EmbeddingManager {
  description_model : string;
  description_dimensions : nat;
  generate_description_embedding : string → option Py.value
}.

(** The body of the loop of [load_embeddings_from_file] for one item
    of the list: the node update, and whether a node was found. *)
Definition load_item (item : Py.value) : M Neo4j.graph bool :=
  match item with
  | Py.Dict fields =>
      match Py.get "description_embedding" fields with
      | None | Some Py.None_ => ret false
      | Some emb =>
          match Py.get "id" fields with
          | None => raise KeyError
          | Some (Py.Str id) =>
              g <- get ;
              let keys := Neo4j.match_nodes ["Individual"] id g in
              _ <- modify (Neo4j.set_prop "description_embedding" emb keys) ;
              ret (bool_decide (keys ≠ []))
          | Some _ => ret false     (* no node has an id that is not a string *)
          end
      end
  | _ => raise AttributeError        (* [item.get] on what is not a dict *)
  end.

Fixpoint load_items (items : list Py.value) (count : nat) : M Neo4j.graph nat :=
  match items with
  | [] => ret count
  | item :: rest =>
      found <- load_item item ;
      load_items rest (if found then S count else count)
  end.

(** Iterating over [embeddings_list]: a dict yields its keys. *)
Definition iterate (v : Py.value) : exn + list Py.value :=
  match v with
  | Py.List items => inr items
  | Py.Dict fields => inr (map (λ kv, Py.Str kv.1) fields)
  | Py.Str s => inr (map (λ c, Py.Str (String c EmptyString)) (list_ascii_of_string s))
  | _ => inl TypeError
  end.

(** Reading [metadata['description_model']] and
    [metadata['description_dimensions']] for the log lines. *)
Definition log_metadata (metadata : Py.value) : exn + unit :=
  match metadata with
  | Py.Dict fields =>
      match Py.get "description_model" fields, Py.get "description_dimensions" fields with
      | Some _, Some _ => inr ()
      | _, _ => inl KeyError
      end
  | _ => inl TypeError
  end.

(** [load_embeddings_from_file(session, input_path)]: [file] is the
    parsed content of the cache file, [None] when there is no file. *)
Definition load_embeddings_from_file (self : embedding_manager)
    (file : option Py.value) : M Neo4j.graph nat :=
  match file with
  | None => raise FileNotFoundError
  | Some data =>
      let embeddings_list :=
        match data with
        | Py.Dict fields =>
            match Py.get "metadata" fields, Py.get "embeddings" fields with
            | Some metadata, Some l =>
                match log_metadata metadata with
                | inl e => inl e
                | inr _ => inr l
                end
            | _, _ => inl ValueError
            end
        | Py.List _ => inr data
        | _ => inl ValueError
        end in
      match embeddings_list with
      | inl e => raise e
      | inr l =>
          match iterate l with
          | inl e => raise e
          | inr items => load_items items 0
          end
      end
  end.

(** The spec's check of the cache against the configuration, for
    comparison: the cached model and dimensionality are the configured
    ones. *)
Definition metadata_matches (self : embedding_manager) (file : Py.value) : Prop :=
  ∃ fields metadata,
    file = Py.Dict fields ∧
    Py.get "metadata" fields = Some (Py.Dict metadata) ∧
    Py.get "description_model" metadata = Some (Py.Str (description_model self)) ∧
    ∃ lit, Py.get "description_dimensions" metadata = Some (Py.Num lit) ∧
           lit = pretty (description_dimensions self).

End Embedding.

(* ===================================================================== *)
(** * The ontology manager (ontology_server/core/ontology.py) *)
(* ===================================================================== *)

Module Store.
Import PyStr Owl Exc Exc.Notations.

Inductive data_type : Type := Static | Dynamic.

(** The state of an [OntologyManager]: the asserted model, the
    projection behind the driver, the materialization of the last
    reasoner run and [current_data_type]. *)
Record manager : Type := Manager {
  world : Owl.world;
  projection : Neo4j.graph;
  inferred : Owl.reasoned;
  current_data_type : option data_type
}.

(** What surrounds the manager: owlready2 beyond the model, the order
    in which Python iterates over a set of terms (some order of its
    elements, given here as a list), the reasoner, the embedding
    configuration of config.yaml, [OPENAI_API_KEY], [ONTOLOGY_ENV_ID]
    and the embedding cache files by path. *)
Record environment : Type := Environment {
  owlready2 : Owl.library;
  iteration : list Rdf.term → list Rdf.term;
  reason : Owl.reasoner;
  openai_api_key : bool;
  generate_embeddings : bool;
  embedding_manager : Embedding.embedding_manager;
  env_id : option string;
  cache_file : string → option Py.value
}.

(** The ["data_properties"] and ["object_properties"] of a request,
    [None] for an absent key; the targets of an object property are
    the list of ids, a single id standing for the list of it. *)
Record properties : Type := Properties {
  r_data_properties : option (list (string * Py.value));
  r_object_properties : option (list (string * list string))
}.

Record individual_data : Type := IndividualData {
  d_id : string;
  d_class : string;
  d_properties : properties
}.

Inductive error : Type :=
| ClassNotFound (class_name : string)
| AlreadyExists (id : string)
| NotFound (id : string)
| TtlFileNotFound
| ParseError            (* what [Graph.parse] raises *)
| Raised (e : exn).

(** The status dictionaries the operations return. *)
Inductive response : Type :=
| Success (id : string)
| BatchSuccess (added failed : nat)
| SyncSuccess (individuals relationships : nat)
| Error (e : error).

Definition is_error (r : response) : bool :=
  match r with Error _ => true | _ => false end.

Definition with_world (st : manager) (w : Owl.world) : manager :=
  Manager w (projection st) (inferred st) (current_data_type st).

Definition with_projection (st : manager) (g : Neo4j.graph) : manager :=
  Manager (world st) g (inferred st) (current_data_type st).

Definition with_inferred (st : manager) (r : Owl.reasoned) : manager :=
  Manager (world st) (projection st) r (current_data_type st).

Definition with_data_type (st : manager) (t : option data_type) : manager :=
  Manager (world st) (projection st) (inferred st) t.

(** [setattr(individual, prop_name, value)] *)
Definition set_attribute (E : environment) (individual : entity)
    (prop_name : string) (v : attr_value) : M manager unit :=
  λ st,
    let '(w, r) := setattr (owlready2 E) (world st) individual prop_name v in
    (with_world st w, r).

(** [_set_data_properties] *)
Definition set_data_properties (E : environment) (individual : entity)
    (data : properties) : M manager unit :=
  match r_data_properties data with
  | None => ret ()
  | Some items =>
      for_each items (λ kv, set_attribute E individual kv.1 (AValue kv.2))
  end.

(** The targets [_set_object_properties] resolves: unresolved ids are
    skipped. *)
Definition resolve_targets (L : library) (w : Owl.world)
    (target_ids : list string) : list entity :=
  omap (search_one L w) target_ids.

(** [_set_object_properties] *)
Definition set_object_properties (E : environment) (individual : entity)
    (data : properties) : M manager unit :=
  match r_object_properties data with
  | None => ret ()
  | Some items =>
      for_each items (λ kv,
        st <- get ;
        match resolve_targets (owlready2 E) (world st) kv.2 with
        | [] => ret ()
        | targets => set_attribute E individual kv.1 (AEntities targets)
        end)
  end.

(** ** The projection *)

(** [_initialize_neo4j_schema], the vector indexes apart. *)
Definition initialize_neo4j_schema (s : schema) (g : Neo4j.graph) : Neo4j.graph :=
  let g := Neo4j.delete_all g in
  let g := foldl (λ g c,
             Neo4j.merge_node ["Class"] (c_name c)
               [("name", Py.Str (c_name c));
                ("uri", Py.Str (base_iri s +:+ c_name c))] g)
             g (classes s) in
  let g := foldl (λ g c,
             foldl (λ g parent,
               Neo4j.merge_edges "Class" (c_name c) "SUBCLASS_OF" "Class" parent g)
               g (c_parents c))
             g (classes s) in
  let property_node kind g p :=
    Neo4j.merge_node ["Property"] (p_name p)
      [("name", Py.Str (p_name p));
       ("uri", Py.Str (base_iri s +:+ p_name p));
       ("type", Py.Str kind)] g in
  let g := foldl (property_node "ObjectProperty") g (object_properties s) in
  let g := foldl (property_node "DataProperty") g (data_properties s) in
  let g := foldl (λ g p,
             let g := foldl (λ g c,
                        Neo4j.merge_edges "Property" (p_name p) "HAS_DOMAIN" "Class" c g)
                        g (p_domain p) in
             foldl (λ g c,
               Neo4j.merge_edges "Property" (p_name p) "HAS_RANGE" "Class" c g)
               g (p_range p))
             g (object_properties s) in
  foldl (λ g p,
    foldl (λ g parent,
      if bool_decide (parent ∈ ["SymmetricProperty"; "TransitiveProperty";
                                "topObjectProperty"])
      then g
      else Neo4j.merge_edges "Property" (p_name p) "SUBPROPERTY_OF"
             "Property" parent g)
      g (p_parents p))
    g (object_properties s).

(** The class labels of a node: the named classes of [INDIRECT_is_a]. *)
Definition class_labels (r : reasoned) (name : string) : list string :=
  filter (λ c, c ≠ EmptyString) (indirect_is_a r name).

(** The node property a data property becomes: one value as it is,
    several as a list. *)
Definition data_value (vs : list Py.value) : option Py.value :=
  match vs with
  | [] => None
  | [v] => Some v
  | _ => Some (Py.List vs)
  end.

(** Batch 1 of [sync_to_neo4j] for one individual. *)
Definition sync_node (w : Owl.world) (r : reasoned) (g : Neo4j.graph)
    (i : individual) : Neo4j.graph :=
  let name := i_name i in
  let g := Neo4j.merge_node ("Individual" :: class_labels r name) name
             [("uri", Py.Str (iri w name))] g in
  let g := foldl (λ g c,
             Neo4j.merge_edges "Individual" name "INSTANCE_OF" "Class" c g)
             g (class_labels r name) in
  foldl (λ g p,
    match data_value (default [] (Py.assoc_get (p_name p) (i_data i))) with
    | Some v =>
        Neo4j.set_prop (p_name p) v (Neo4j.match_nodes ["Individual"] name g) g
    | None => g
    end)
    g (data_properties (w_schema w)).

(** Batch 2 for one individual: an edge per indirect value of each
    object property. *)
Definition sync_edges (w : Owl.world) (r : reasoned) (g : Neo4j.graph)
    (i : individual) : Neo4j.graph :=
  foldl (λ g p,
    foldl (λ g value,
      Neo4j.merge_edges "Individual" (i_name i) (p_name p) "Individual" value g)
      g (indirect_values r (i_name i) (p_name p)))
    g (object_properties (w_schema w)).

Definition relationships_count (w : Owl.world) (r : reasoned) : nat :=
  sum_list (map (λ i,
    sum_list (map (λ p, length (indirect_values r (i_name i) (p_name p)))
                  (object_properties (w_schema w))))
    (individuals w)).

(** ** Embeddings at the end of a sync *)

Definition truthy (v : Py.value) : bool :=
  match v with
  | Py.None_ => false
  | Py.Bool b => b
  | Py.Num lit => negb (String.eqb lit "0")
  | Py.Str s => negb (String.eqb s EmptyString)
  | Py.List l => match l with [] => false | _ => true end
  | Py.Dict l => match l with [] => false | _ => true end
  end.

(** [individual.category] or [individual.description] as
    [embed_individual] reads it: the first value when there is one. *)
Definition first_value (i : individual) (prop : string) : option Py.value :=
  match default [] (Py.assoc_get prop (i_data i)) with
  | v :: _ => Some v
  | [] => None
  end.

(** [embed_individual]: the node update, and whether an embedding was
    made. *)
Definition embed_individual (em : Embedding.embedding_manager) (r : reasoned)
    (i : individual) : M Neo4j.graph bool :=
  let class_names := class_labels r (i_name i) in
  if bool_decide ("Space" ∈ class_names ∨ "Artifact" ∈ class_names) then
    let pick prop := match first_value i prop with
                     | Some v => if truthy v then Some v else None
                     | None => None
                     end in
    match (match pick "description" with
           | Some v => Some v
           | None => pick "category"
           end) with
    | None => ret false
    | Some (Py.Str text) =>
        if String.eqb (strip text) EmptyString then raise ValueError
        else match Embedding.generate_description_embedding em text with
             | None => raise ValueError
             | Some emb =>
                 g <- get ;
                 _ <- modify (Neo4j.set_prop "description_embedding" emb
                                (Neo4j.match_nodes ["Individual"] (i_name i) g)) ;
                 ret true
             end
    | Some _ => raise AttributeError
    end
  else ret false.

(** The loop over the individuals with its failure count: the third
    failure is raised again. *)
Fixpoint embed_all (em : Embedding.embedding_manager) (r : reasoned)
    (l : list individual) (failed : nat) : M Neo4j.graph unit :=
  match l with
  | [] => ret ()
  | i :: rest =>
      λ g,
        match embed_individual em r i g with
        | (g', inr _) => embed_all em r rest failed g'
        | (g', inl e) =>
            if (3 <=? S failed)%nat then (g', inl e)
            else embed_all em r rest (S failed) g'
        end
  end.

Definition cache_path (E : environment) (t : option data_type) : string :=
  match t, env_id E with
  | Some Static, Some id => "data/envs/" +:+ id +:+ "/static_embeddings.json"
  | Some Static, None => "data/static_embeddings.json"
  | Some Dynamic, Some id => "data/envs/" +:+ id +:+ "/dynamic_embeddings.json"
  | Some Dynamic, None => "data/dynamic_embeddings.json"
  | None, Some id => "data/envs/" +:+ id +:+ "/dynamic_embeddings.json"
  | None, None => "data/static_embeddings.json"
  end.

(** The embedding block of [sync_to_neo4j]; whatever it raises is
    reported by the caller as a warning.  The cache files it writes
    when generating are not part of the state. *)
Definition handle_embeddings (E : environment) (st : manager)
  : M Neo4j.graph unit :=
  if openai_api_key E then
    if generate_embeddings E then
      embed_all (embedding_manager E) (inferred st) (individuals (world st)) 0
    else
      _ <- Embedding.load_embeddings_from_file (embedding_manager E)
             (cache_file E (cache_path E (current_data_type st))) ;
      ret ()
  else raise ValueError.

(** [sync_to_neo4j(skip_reasoning)] *)
Definition sync_to_neo4j (E : environment) (skip_reasoning : bool)
  : manager → manager * response :=
  λ st,
    let reasoning :=
      if skip_reasoning then Some (inferred st) else reason E (world st) in
    match reasoning with
    | None => (st, Error (Raised ReasonerError))
    | Some r =>
        let st := with_inferred st r in
        let w := world st in
        let g := Neo4j.detach_delete "Individual" (projection st) in
        let g := foldl (sync_node w r) g (individuals w) in
        let g := foldl (sync_edges w r) g (individuals w) in
        let g := fst (handle_embeddings E st g) in
        (with_projection st g,
         SyncSuccess (length (individuals w)) (relationships_count w r))
    end.

(** ** The mutating operations *)

(** A call that leaves the model, on the state of the manager. *)
Definition call_outside (E : environment) (c : call) : M manager unit :=
  λ st,
    let '(w, r) := outside (owlready2 E) c (world st) in
    (with_world st w, r).

(** [add_individual(data, auto_sync)].  The result of the sync is not
    looked at. *)
Definition add_individual (E : environment) (data : individual_data)
    (auto_sync : bool) : manager → manager * response :=
  λ st,
    let L := owlready2 E in
    match get_class L (world st) (d_class data) with
    | None => (st, Error (ClassNotFound (d_class data)))
    | Some cls =>
        match search_one L (world st) (d_id data) with
        | Some _ => (st, Error (AlreadyExists (d_id data)))
        | None =>
            let assignments : M manager unit :=
              match cls with
              | AClass c =>
                  _ <- modify (λ st, with_world st (create (world st) c (d_id data))) ;
                  _ <- set_data_properties E (EIndividual (d_id data))
                         (d_properties data) ;
                  set_object_properties E (EIndividual (d_id data))
                    (d_properties data)
              | AOther =>
                  call_outside E
                    (Instantiate (d_class data) (d_id data)
                       (r_data_properties (d_properties data))
                       (r_object_properties (d_properties data)))
              end in
            match assignments st with
            | (st2, inl e) => (st2, Error (Raised e))
            | (st2, inr _) =>
                let st3 := if auto_sync then fst (sync_to_neo4j E false st2) else st2 in
                (st3, Success (d_id data))
            end
        end
    end.

(** Pass 1 of [add_individuals_batch] for one item: the world and the
    counts [(added, failed)]. *)
Definition create_one (L : library) (acc : Owl.world * (nat * nat))
    (data : individual_data) : Owl.world * (nat * nat) :=
  let '(w, (added, failed)) := acc in
  match search_one L w (d_id data) with
  | Some _ => (w, (added, S failed))
  | None =>
      match get_class L w (d_class data) with
      | None => (w, (added, S failed))
      | Some (AClass cls) => (create w cls (d_id data), (S added, failed))
      | Some AOther =>
          match outside L (Instantiate (d_class data) (d_id data) None None) w with
          | (w', inr _) => (w', (S added, failed))
          | (w', inl _) => (w', (added, S failed))
          end
      end
  end.

(** Pass 2 for one item. *)
Definition attach_one (E : environment) (data : individual_data)
  : M manager unit :=
  st <- get ;
  match search_one (owlready2 E) (world st) (d_id data) with
  | None => ret ()
  | Some individual =>
      _ <- set_data_properties E individual (d_properties data) ;
      set_object_properties E individual (d_properties data)
  end.

(** [add_individuals_batch] *)
Definition add_individuals_batch (E : environment)
    (individuals_data : list individual_data) : manager → manager * response :=
  λ st,
    let '(w1, (added, failed)) :=
      foldl (create_one (owlready2 E)) (world st, (0, 0)) individuals_data in
    match for_each individuals_data (attach_one E) (with_world st w1) with
    | (st2, inl e) => (st2, Error (Raised e))
    | (st2, inr _) =>
        (fst (sync_to_neo4j E false st2), BatchSuccess added failed)
    end.

Definition xsd (name : string) : string :=
  "http://www.w3.org/2001/XMLSchema#" +:+ name.

(** [obj.toPython()] for a literal: booleans and numbers by their
    datatype, text otherwise. *)
Definition to_python (lexical value : string) (datatype : option string)
  : Py.value :=
  match datatype with
  | Some d =>
      if String.eqb d (xsd "boolean")
      then Py.Bool (String.eqb value "True")
      else if bool_decide (d ∈ map xsd ["integer"; "int"; "long"; "decimal";
                                          "double"; "float"])
      then Py.Num lexical
      else Py.Str lexical
  | None => Py.Str lexical
  end.

Definition local (t : Rdf.term) : string := last_piece "#" (Rdf.str t).

(** [g.objects(subject, RDF.type)] without what mentions ['Ontology']. *)
Definition types_of (g : list Rdf.triple) (subject : Rdf.term) : list Rdf.term :=
  filter (λ o, contains "Ontology" (Rdf.str o) = false)
    (omap (λ t : Rdf.triple,
             if bool_decide (t.1.1 = subject ∧ t.1.2 = Rdf.RDF_type)
             then Some t.2 else None) g).

(** The loop over [g.predicate_objects(subject)]. *)
Definition add_property (subject : Rdf.term) (acc : properties) (t : Rdf.triple)
  : properties :=
  let '(s, pred, obj) := t in
  if bool_decide (s = subject ∧ pred ≠ Rdf.RDF_type) then
    let dps := default [] (r_data_properties acc) in
    let ops := default [] (r_object_properties acc) in
    match obj with
    | Rdf.Literal lexical value datatype _ =>
        Properties (Some (Py.assoc_set (local pred) (to_python lexical value datatype) dps))
                   (Some ops)
    | Rdf.URIRef _ =>
        Properties (Some dps)
                   (Some (Py.assoc_set (local pred)
                            (default [] (Py.assoc_get (local pred) ops) ++ [local obj])
                            ops))
    | Rdf.BNode _ => acc
    end
  else acc.

(** The body of the loop over the subjects: the entry of
    [individuals_data], if the subject gives one. *)
Definition extract_individual (g : list Rdf.triple) (subject : Rdf.term)
  : option individual_data :=
  if contains "Ontology" (Rdf.str subject) || String.eqb (local subject) EmptyString
  then None
  else
    match types_of g subject with
    | [] => None
    | t :: _ =>
        Some (IndividualData (local subject) (local t)
                (foldl (add_property subject) (Properties (Some []) (Some [])) g))
    end.

(** The elements of [set(g.subjects(RDF.type, None))]. *)
Definition typed_subjects (g : list Rdf.triple) : list Rdf.term :=
  remove_dups
    (omap (λ t : Rdf.triple,
             if bool_decide (t.1.2 = Rdf.RDF_type) then Some t.1.1 else None) g).

(** The loop [for subject in subjects]: [individuals_data]. *)
Definition individuals_of_graph (E : environment) (g : list Rdf.triple)
  : list individual_data :=
  omap (extract_individual g) (iteration E (typed_subjects g)).

(** [load_instances_from_ttl(ttl_path)]: [file] is the content of the
    file, [None] when it does not exist; [run] is what rdflib brings
    to the parse. *)
Definition load_instances_from_ttl (E : environment) (ttl_path : string)
    (run : Rdf.parse_run) (file : option (list string))
  : manager → manager * response :=
  λ st,
    match file with
    | None => (st, Error TtlFileNotFound)
    | Some lines =>
        let st1 := with_data_type st
          (if contains "static.ttl" ttl_path then Some Static
           else if contains "dynamic.ttl" ttl_path then Some Dynamic
           else None) in
        match Rdf.parse_turtle run lines with
        | None => (st1, Error ParseError)
        | Some g => add_individuals_batch E (individuals_of_graph E g) st1
        end
    end.

(** [update_individual(individual_id, data)] *)
Definition update_individual (E : environment) (individual_id : string)
    (data : properties) : manager → manager * response :=
  λ st,
    match search_one (owlready2 E) (world st) individual_id with
    | None => (st, Error (NotFound individual_id))
    | Some individual =>
        match (_ <- set_data_properties E individual data ;
               set_object_properties E individual data) st with
        | (st2, inl e) => (st2, Error (Raised e))
        | (st2, inr _) =>
            (fst (sync_to_neo4j E false st2), Success individual_id)
        end
    end.

(** [delete_individual(individual_id)] *)
Definition delete_individual (E : environment) (individual_id : string)
  : manager → manager * response :=
  λ st,
    match search_one (owlready2 E) (world st) individual_id with
    | None => (st, Error (NotFound individual_id))
    | Some individual =>
        let '(w, r) := destroy_entity (owlready2 E) (world st) individual in
        let st2 := with_world st w in
        match r with
        | inl e => (st2, Error (Raised e))
        | inr _ => (fst (sync_to_neo4j E false st2), Success individual_id)
        end
    end.

End Store.

(* ===================================================================== *)
(** * The SPARQL update endpoint (ontology_server/core/api.py) *)
(* ===================================================================== *)

Module Api.
Import PyStr Owl Exc Exc.Notations Store.

(** The answer of an endpoint: the success body, or an [HTTPException]
    with its status code. *)
Inductive http : Type :=
| Ok
| HTTPException (status_code : nat).

(** The line scan of [execute_sparql_update]: [delete_section] and
    [insert_section]. *)
Fixpoint scan (in_delete in_insert : bool) (lines : list string)
  : list string * list string :=
  match lines with
  | [] => ([], [])
  | raw :: rest =>
      let line := strip raw in
      if contains "DELETE" (upper line) then scan true false rest
      else if contains "INSERT" (upper line) then scan false true rest
      else if startswith "}" line then scan false false rest
      else
        let '(dels, inss) := scan in_delete in_insert rest in
        let content := negb (String.eqb line EmptyString) && negb (startswith "{" line) in
        if in_delete && content then (line :: dels, inss)
        else if in_insert && content then (dels, line :: inss)
        else (dels, inss)
  end.

Definition newline : ascii := ascii_of_nat 10.

Definition sections (sparql_update : string) : list string * list string :=
  scan false false (split_on newline sparql_update).

(** [s[:-1]] *)
Definition drop_last (s : string) : string := reverse (slice_from 1 (reverse s)).

(** The three names a triple line yields, when it has three parts. *)
Definition triple_names (triple_line : string)
  : option (string * string * string) :=
  let line :=
    if endswith "." (strip triple_line)
    then strip (drop_last (strip triple_line))
    else triple_line in
  match split_ws line with
  | s :: p :: o :: _ =>
      Some (last_piece "#" (strip_chars "<>" s),
            last_piece "#" (strip_chars "<>" p),
            last_piece "#" (strip_chars ("<>" +:+ PyStr.dquote) o))
  | _ => None
  end.

(** [list.remove]: the first occurrence goes. *)
Fixpoint remove_first (x : string) (l : list string) : list string :=
  match l with
  | [] => []
  | y :: rest => if String.eqb x y then rest else y :: remove_first x rest
  end.

(** [try: c except (ValueError, AttributeError): pass] *)
Definition pass_value_attribute (c : M manager unit) : M manager unit :=
  catch c (λ e, match e with
                | ValueError | AttributeError => ret ()
                | _ => raise e
                end).

(** [getattr(individual, prop_name).remove(obj_individual)] with its
    [except (ValueError, AttributeError): pass].  On an individual, the
    value goes from a property that is not functional if it is there;
    a data property holds no entity, and what is no property has no
    values. *)
Definition remove_value (E : environment) (individual : entity)
    (prop_name : string) (obj_individual : entity) : M manager unit :=
  let leave :=
    pass_value_attribute
      (call_outside E (Remove individual prop_name obj_individual)) in
  match individual with
  | EIndividual name =>
      if is_reserved (owlready2 E) prop_name then leave
      else
        st <- get ;
        let w := world st in
        match get_object_property w prop_name, get_data_property w prop_name with
        | Some p, _ =>
            if p_functional p then leave
            else
              match obj_individual with
              | EOther _ => ret ()
              | _ =>
                  let current_values := objects_of w name prop_name in
                  if bool_decide (entity_name obj_individual ∈ current_values)
                  then modify (λ st, with_world st
                         (set_objects (world st) name prop_name
                            (remove_first (entity_name obj_individual)
                               current_values)))
                  else ret ()
              end
        | None, _ => ret ()
        end
  | _ => leave
  end.

(** One line of the DELETE section. *)
Definition apply_delete (E : environment) (triple_line : string)
  : M manager unit :=
  match triple_names triple_line with
  | None => ret ()
  | Some (subj, prop_name, obj) =>
      st <- get ;
      let L := owlready2 E in
      let w := world st in
      match search_one L w subj with
      | None => ret ()
      | Some individual =>
          if has_entity L w prop_name then
            match search_one L w obj with
            | None => ret ()
            | Some obj_individual =>
                remove_value E individual prop_name obj_individual
            end
          else ret ()
      end
  end.

(** The lines of the INSERT branch from [current_values = ...] on.  On
    an individual and an object property that is not functional, the
    value is appended unless it is there; what is no property gets a
    plain Python attribute. *)
Definition append_value (E : environment) (individual : entity)
    (prop_name : string) (obj_individual : entity) : M manager unit :=
  let leave := call_outside E (Append individual prop_name obj_individual) in
  match individual with
  | EIndividual name =>
      if is_reserved (owlready2 E) prop_name then leave
      else
        st <- get ;
        let w := world st in
        match get_object_property w prop_name, get_data_property w prop_name with
        | Some p, _ =>
            if p_functional p then leave
            else
              let current_values := objects_of w name prop_name in
              match obj_individual with
              | EOther _ =>
                  set_attribute E individual prop_name
                    (AEntities (map EIndividual current_values ++ [obj_individual]))
              | _ =>
                  if bool_decide (entity_name obj_individual ∈ current_values)
                  then ret ()
                  else set_attribute E individual prop_name
                         (AEntities (map EIndividual current_values
                                     ++ [obj_individual]))
              end
        | None, Some _ => leave
        | None, None => ret ()
        end
  | _ => leave
  end.

(** One line of the INSERT section. *)
Definition apply_insert (E : environment) (triple_line : string)
  : M manager unit :=
  match triple_names triple_line with
  | None => ret ()
  | Some (subj, prop_name, obj) =>
      st <- get ;
      let L := owlready2 E in
      let w := world st in
      match search_one L w subj with
      | None => ret ()
      | Some individual =>
          if has_entity L w prop_name then
            match search_one L w obj with
            | None => ret ()
            | Some obj_individual =>
                append_value E individual prop_name obj_individual
            end
          else ret ()
      end
  end.

(** Step 1: the DELETE lines, then the INSERT lines, on the asserted
    model. *)
Definition apply_update (E : environment) (sparql_update : string)
  : M manager unit :=
  let '(delete_section, insert_section) := sections sparql_update in
  _ <- for_each delete_section (apply_delete E) ;
  for_each insert_section (apply_insert E).

(** [robot_id] and [old_location] of step 2: from the first DELETE line
    that mentions [robotIsInSpace] and has three parts. *)
Fixpoint robot_move (delete_section : list string) : option (string * string) :=
  match delete_section with
  | [] => None
  | triple_line :: rest =>
      if contains "robotIsInSpace" triple_line then
        match split_ws triple_line with
        | s :: _ :: o :: _ =>
            Some (last_piece "#" (strip_chars "<>" s),
                  last_piece "#" (strip_chars "<>" o))
        | _ => robot_move rest
        end
      else robot_move rest
  end.

(** Step 2: the edges between the robot and its old location go, in
    both directions. *)
Definition delete_old_relationships (delete_section : list string)
    (g : Neo4j.graph) : Neo4j.graph :=
  match robot_move delete_section with
  | Some (robot_id, old_location) =>
      if negb (String.eqb robot_id EmptyString)
         && negb (String.eqb old_location EmptyString)
      then Neo4j.delete_edges_between "Individual" old_location robot_id
             (Neo4j.delete_edges_between "Individual" robot_id old_location g)
      else g
  | None => g
  end.

(** [execute_sparql_update(update)]: [update] is [update.get("update")];
    the manager, when there is one, is the state. *)
Definition execute_sparql_update (E : environment) (update : option string)
  : option manager → option manager * http :=
  λ m,
    match m with
    | None => (None, HTTPException 503)
    | Some st =>
        match update with
        | None | Some EmptyString => (Some st, HTTPException 400)
        | Some sparql_update =>
            match apply_update E sparql_update st with
            | (st1, inl _) => (Some st1, HTTPException 500)
            | (st1, inr _) =>
                let st2 := with_projection st1
                  (delete_old_relationships (sections sparql_update).1
                     (projection st1)) in
                match reason E (world st2) with
                | None => (Some st2, HTTPException 500)
                | Some r =>
                    match sync_to_neo4j E true (with_inferred st2 r) with
                    | (st3, Error _) => (Some st3, HTTPException 500)
                    | (st3, _) => (Some st3, Ok)
                    end
                end
            end
        end
    end.

(** The one shape the spec admits: a [DELETE { ... }] block, an
    [INSERT { ... }] block and [WHERE { }], in this order.  No update
    without the three key words has it. *)
Definition mentions_shape_keywords (sparql_update : string) : bool :=
  contains "DELETE" sparql_update && contains "INSERT" sparql_update
  && contains "WHERE" sparql_update.

End Api.

(* ===================================================================== *)
(** * Move actions and TTL versions (agent/nodes/world_update.py) *)
(* ===================================================================== *)

Module MoveAction.
Import PyStr GoalNormalizer Owl.

(** The dictionary [parse_move_action] returns. *)
Record move : Type := Move {
  robot : string;
  from_location : string;
  to_location : string
}.

(** [parse_move_action(action)]: [re.match] of
    [\(move\s+(\w+)\s+(\w+)\s+(\w+)\)] at the start of the action;
    what follows the closing parenthesis is not looked at. *)
Definition parse_move_action (action : string) : exn + move :=
  if startswith "(move" action then
    match match_args 3 (slice_from 5 action) with
    | Some ([r; f; t], String ")" _) => inr (Move r f t)
    | _ => inl ValueError
    end
  else inl ValueError.

(** [f"{base_name}_{version}.ttl"] *)
Definition version_file (base_name : string) (version : nat) : string :=
  base_name +:+ "_" +:+ pretty version +:+ ".ttl".

(** The [while] loop of [get_next_ttl_version] on a directory holding
    the files [files]; [fuel] bounds the number of tests. *)
Fixpoint next_version (fuel : nat) (files : gset string) (base_name : string)
    (version : nat) : option nat :=
  match fuel with
  | O => None
  | S k =>
      if bool_decide (version_file base_name version ∈ files)
      then next_version k files base_name (S version)
      else Some version
  end.

(** [get_next_ttl_version(ttl_dir, base_name)]: one test more than the
    directory has files is enough. *)
Definition get_next_ttl_version (files : gset string) (base_name : string)
  : option nat :=
  next_version (S (size files)) files base_name 1.

End MoveAction.

(* ===================================================================== *)
(** * Task names (agent/tools/pddl_plan.py) *)
(* ===================================================================== *)

Module TaskName.
Import PyStr GoalNormalizer.

Definition not_close (c : ascii) : bool := negb (Ascii.eqb c ")").

Fixpoint last_char (s : string) : option ascii :=
  match s with
  | EmptyString => None
  | String c EmptyString => Some c
  | String _ r => last_char r
  end.

(** A match of [\((\w+)\s+([^)]+)\)] at the start of [s]: the two
    groups and the text after the match.  [\w+] and [\s+] take all
    they can; [[^)]+] then runs to the next closing parenthesis, and
    when nothing is left for it the white space gives back its last
    character, if it has two. *)
Definition match_predicate (s : string) : option (string * string * string) :=
  match s with
  | String "(" r =>
      match span is_word r with
      | (EmptyString, _) => None
      | (w, r1) =>
          match span is_space r1 with
          | (EmptyString, _) => None
          | (ws, r2) =>
              match span not_close r2 with
              | (EmptyString, String ")" r3) =>
                  match ws, last_char ws with
                  | String _ (String _ _), Some c =>
                      Some (w, String c EmptyString, r3)
                  | _, _ => None
                  end
              | (body, String ")" r3) => Some (w, body, r3)
              | _ => None
              end
          end
      end
  | _ => None
  end.

(** [re.search]: the leftmost match. *)
Fixpoint search_predicate (s : string) : option (string * string) :=
  match match_predicate s with
  | Some (w, body, _) => Some (w, body)
  | None =>
      match s with
      | EmptyString => None
      | String _ r => search_predicate r
      end
  end.

(** [re.findall]: the matches from left to right, without overlap.
    [fuel] bounds the scanning steps; the length of the text is
    enough. *)
Fixpoint findall_predicates (fuel : nat) (s : string) : list (string * string) :=
  match fuel with
  | O => []
  | S k =>
      match match_predicate s with
      | Some (w, body, rest) => (w, body) :: findall_predicates k rest
      | None =>
          match s with
          | EmptyString => []
          | String _ r => findall_predicates k r
          end
      end
  end.

Fixpoint keep (f : ascii → bool) (s : string) : string :=
  match s with
  | EmptyString => EmptyString
  | String c r => if f c then String c (keep f r) else keep f r
  end.

(** [s[:n]] *)
Fixpoint prefix (n : nat) (s : string) : string :=
  match n, s with
  | S k, String c r => String c (prefix k r)
  | _, _ => EmptyString
  end.

(** What [extract_task_description] can raise. *)
Inductive raised : Type := IndexError.

Definition truthy (s : option string) : option string :=
  match s with
  | Some EmptyString => None
  | _ => s
  end.

(** [extract_task_description(task_description, goal_formula)] *)
Definition extract_task_description (task_description goal_formula : option string)
  : raised + string :=
  let desc :=
    match truthy task_description with
    | Some d => inr d
    | None =>
        match truthy goal_formula with
        | Some g =>
            match search_predicate g with
            | Some (predicate, args) =>
                if contains " " args then
                  match split_ws args with
                  | obj :: _ => inr (predicate +:+ "_" +:+ obj)
                  | [] => inl IndexError
                  end
                else inr (predicate +:+ "_" +:+ args)
            | None => inr "task"
            end
        | None => inr "task"
        end
    end in
  match desc with
  | inl e => inl e
  | inr d => inr (prefix 50 (keep is_word d))
  end.

(** [build_planner_command(solver, heuristic, weight)] *)
Definition build_planner_command (solver heuristic : string) (weight : nat)
  : string :=
  if String.eqb solver "lazy_wastar"
  then "lazy_wastar([" +:+ heuristic +:+ "()], w=" +:+ pretty weight +:+ ")"
  else if String.eqb solver "astar" then "astar(" +:+ heuristic +:+ "())"
  else if String.eqb solver "lama"
  then "lazy(alt([lama_synergy()], boost=1000), preferred=[lama_synergy()])"
  else "lazy_wastar([" +:+ heuristic +:+ "()], w=" +:+ pretty weight +:+ ")".

End TaskName.

(* ===================================================================== *)
(** * Goal utilities (pddl/scripts/pddl_goal_utils.py) *)
(* ===================================================================== *)

Module GoalUtils.
Import PyStr GoalNormalizer TaskName.

(** [classify_objects_by_domain_type]: the loop body.  The type
    hierarchy of the domain parser is [is_subtype_of]; [types_map.get]
    gives [None] for an unknown id, and an empty type counts as
    none. *)
Definition classify_one (types_map : gmap string string)
    (is_subtype_of : string → string → bool)
    (acc : list string * list string) (obj_id : string)
  : list string * list string :=
  let '(artifact_ids, location_ids) := acc in
  match types_map !! obj_id with
  | None | Some EmptyString => acc
  | Some obj_type =>
      if is_subtype_of obj_type "Location" || String.eqb obj_type "Location"
      then (artifact_ids, location_ids ++ [obj_id])
      else if String.eqb obj_type "Artifact"
      then (artifact_ids ++ [obj_id], location_ids)
      else acc
  end.

Definition classify_objects_by_domain_type (object_ids : list string)
    (types_map : gmap string string) (is_subtype_of : string → string → bool)
  : list string * list string :=
  foldl (classify_one types_map is_subtype_of) ([], []) object_ids.

(** [predicate_to_affordance.get(predicate)] *)
Definition required_affordance (predicate : string) : option string :=
  if String.eqb predicate "isON" then Some "Affordance_Power"
  else if String.eqb predicate "isOpen" then Some "Affordance_Open"
  else None.

(** A warning of [validate_goal_affordances], as the values its text is
    formatted from. *)
Record warning : Type := Warning {
  w_artifact : string;
  w_required : string;
  w_predicate : string;
  w_affordances : list string
}.

(** The loop over the arguments of one match. *)
Definition check_argument (artifact_ids : list string)
    (affordances_map : gmap string (list string))
    (predicate required : string)
    (acc : list warning * list string) (arg_id : string)
  : list warning * list string :=
  let '(warnings, artifacts_with_issues) := acc in
  if bool_decide (arg_id ∈ artifact_ids) then
    let artifact_affordances := default [] (affordances_map !! arg_id) in
    if bool_decide (required ∈ artifact_affordances) then acc
    else
      (warnings ++ [Warning arg_id required predicate artifact_affordances],
       if bool_decide (arg_id ∈ artifacts_with_issues) then artifacts_with_issues
       else artifacts_with_issues ++ [arg_id])
  else acc.

Definition check_match (artifact_ids : list string)
    (affordances_map : gmap string (list string))
    (acc : list warning * list string) (m : string * string)
  : list warning * list string :=
  let '(predicate, args) := m in
  match required_affordance predicate with
  | None => acc
  | Some required =>
      foldl (check_argument artifact_ids affordances_map predicate required)
            acc (split_ws args)
  end.

(** [validate_goal_affordances]: the warnings, [has_issues] and
    [artifacts_with_issues]. *)
Definition validate_goal_affordances (goal_formula : string)
    (artifact_ids : list string) (affordances_map : gmap string (list string))
  : list warning * (bool * list string) :=
  let '(warnings, artifacts_with_issues) :=
    foldl (check_match artifact_ids affordances_map) ([], [])
          (findall_predicates (S (String.length goal_formula)) goal_formula) in
  (warnings, (negb (Nat.eqb (length warnings) 0), artifacts_with_issues)).

End GoalUtils.

(* ===================================================================== *)
(** * The problem writer (pddl/scripts/pddl_writer.py) *)
(* ===================================================================== *)

Module Writer.
Import PyStr Topology.

(** The order of Python on pairs of strings. *)
Definition pair_le (a b : string * string) : Prop :=
  match String.compare a.1 b.1 with
  | Lt => True
  | Eq => String.leb a.2 b.2 = true
  | Gt => False
  end.

#[global] Instance pair_le_dec : RelDecision pair_le.
Proof.
  intros a b. unfold pair_le. destruct (String.compare a.1 b.1); apply _.
Defined.

(** ... and on the items of the distance table. *)
Definition item_le (x y : string * string * nat) : Prop :=
  match String.compare x.1.1 y.1.1 with
  | Lt => True
  | Eq =>
      match String.compare x.1.2 y.1.2 with
      | Lt => True
      | Eq => x.2 ≤ y.2
      | Gt => False
      end
  | Gt => False
  end.

#[global] Instance item_le_dec : RelDecision item_le.
Proof.
  intros x y. unfold item_le.
  destruct (String.compare x.1.1 y.1.1); try apply _.
  destruct (String.compare x.1.2 y.1.2); apply _.
Defined.

Definition path_line (from_id to_id : string) : string :=
  "    (hasPathTo " +:+ from_id +:+ " " +:+ to_id +:+ ")".

Definition distance_line (from_id to_id : string) (dist : nat) : string :=
  "    (= (distance " +:+ from_id +:+ " " +:+ to_id +:+ ") " +:+ pretty dist +:+ ")".

Definition rule : string :=
  "    ; ====================================================================".

(** [generate_init_topology(topology)] *)
Definition generate_init_topology
    (topology : list (string * string) * distance_table) : list string :=
  let '(connections, distances) := topology in
  [rule; "    ; TOPOLOGY"; rule]
  ++ flat_map (λ c, [path_line c.1 c.2; path_line c.2 c.1])
              (merge_sort pair_le connections)
  ++ (if decide (distances = ∅) then []
      else
        [EmptyString; rule; "    ; DISTANCES (Location->Location)"; rule;
         "    ; Distance between locations via hasPathTo relationships"]
        ++ map (λ kv, distance_line kv.1.1 kv.1.2 kv.2)
               (merge_sort item_le (map_to_list distances))).

End Writer.

(* ===================================================================== *)
(** * Reading the plan (agent/nodes/plan_reader.py, next_action.py) *)
(* ===================================================================== *)

Module Plan.
Import PyStr GoalNormalizer.

(** [re.search(r'cost\s*=\s*(\d+)', line, re.IGNORECASE)]: the digits
    of the leftmost match. *)
Definition match_cost (s : string) : option string :=
  match match_nocase "cost" s with
  | None => None
  | Some r =>
      match (span is_space r).2 with
      | String "=" r1 =>
          match span is_digit (span is_space r1).2 with
          | (EmptyString, _) => None
          | (digits, _) => Some digits
          end
      | _ => None
      end
  end.

Fixpoint search_cost (s : string) : option string :=
  match match_cost s with
  | Some digits => Some digits
  | None =>
      match s with
      | EmptyString => None
      | String _ r => search_cost r
      end
  end.

(** [int(digits)] *)
Definition int (digits : string) : nat :=
  foldl (λ n c, 10 * n + (code c - 48)) 0 (list_ascii_of_string digits).

(** [s.lower()] *)
Definition lower (s : string) : string := map_chars lower_char s.

(** The dictionary [parse_plan_file] returns. *)
Record plan_data : Type := PlanData {
  actions : list string;
  cost : option nat;
  step_count : nat;
  raw_content : string
}.

(** The body of the loop over the lines. *)
Definition read_plan_line (acc : plan_data) (raw : string) : plan_data :=
  let line := strip raw in
  if String.eqb line EmptyString || startswith ";" line then
    if contains "cost" (lower line) then
      match search_cost line with
      | Some digits =>
          PlanData (actions acc) (Some (int digits)) (step_count acc) (raw_content acc)
      | None => acc
      end
    else acc
  else if startswith "(" line && endswith ")" line then
    PlanData (actions acc ++ [line]) (cost acc) (S (step_count acc)) (raw_content acc)
  else acc.

(** [parse_plan_file(plan_path)] on the content of the file. *)
Definition parse_plan_file (content : string) : plan_data :=
  foldl read_plan_line (PlanData [] None 0 content)
        (split_on (ascii_of_nat 10) content).

(** The part of the agent state [next_action] reads and writes. *)
Record agenda : Type := Agenda {
  plan : list string;                        (* [plan_actions] *)
  remaining_actions : option (list string);  (* [None] before the first call *)
  current_action : option string
}.

(** [next_action(state)]: the state after the returned updates are
    merged in. *)
Definition next_action (st : agenda) : agenda :=
  let remaining := default (plan st) (remaining_actions st) in
  match plan st, remaining with
  | [], [] => st
  | _, [] => Agenda (plan st) (Some []) None
  | _, action :: rest => Agenda (plan st) (Some rest) (Some action)
  end.

End Plan.

(* ===================================================================== *)
(** * The world-update node (agent/nodes/world_update.py) *)
(* ===================================================================== *)

Module Node.
Import PyStr GoalNormalizer Rdf WorldUpdate MoveAction.

Inductive status : Type := success | failed.

(** The keys of the agent state that [world_update] reads and writes;
    a key that is not set is [None]. *)
Record state : Type := State {
  current_action : option string;
  last_executed_action : option string;
  execution_status : option status;
  executed_action_count : option nat
}.

(** The update [{"execution_status": "failed"}] merged into the state. *)
Definition fail (st : state) : state :=
  State (current_action st) (last_executed_action st) (Some failed)
        (executed_action_count st).

(** The files of the directory [action/world], by name, as their
    lines. *)
Abbreviation directory := (gmap string (list string)).

(** [extract_changes_with_rdflib] on two paths of the directory: a file
    that is missing does not parse. *)
Definition extract_changes (original_run updated_run : parse_run)
    (files : directory) (original updated : string)
  : list triple * list triple :=
  match files !! original, files !! updated with
  | Some l0, Some l1 =>
      extract_changes_with_rdflib original_run updated_run l0 l1
  | _, _ => ([], [])
  end.

Section world_update.

(** What rdflib brings to the parse of the original file and to the
    parse of the updated one. *)
Variable original_run updated_run : parse_run.

(** The server behind the SPARQL endpoint; [send_sparql_update] gives
    the server after the request and whether it answered 200 with the
    status [success]. *)
Variable server : Type.
Variable send_sparql_update : server → string → server * bool.

(** What [load_relationship_mapping] returns: the content of
    [action/relationship_mapping.json], [None] without the file or
    when it is no JSON. *)
Variable mapping : option Py.value.

(** [world_update(state, config)]: the directory, the server and the
    state after the returned updates are merged in.  The messages and
    the log files of [action/log] are left out. *)
Definition world_update (files : directory) (srv : server) (st : state)
  : directory * server * state :=
  match current_action st with
  | None | Some EmptyString => (files, srv, st)
  | Some action =>
      if negb (startswith "(move" (strip action)) then (files, srv, st)
      else
        match parse_move_action action with
        | inl _ => (files, srv, fail st)
        | inr action_data =>
            let executed_count := default 0 (executed_action_count st) in
            let version := executed_count + 1 in
            let original_dynamic := version_file "dynamic" executed_count in
            let original_static := version_file "static" executed_count in
            let updated_dynamic := version_file "dynamic" version in
            let updated_static := version_file "static" version in
            match files !! original_dynamic with
            | None => (files, srv, fail st)
            | Some _ =>
                match save_incremental_update_to_ttl (files !! original_dynamic)
                        (robot action_data) (from_location action_data)
                        (to_location action_data) with
                | None => (files, srv, fail st)
                | Some updated =>
                    let files1 := <[updated_dynamic := updated]> files in
                    let files2 :=
                      match files1 !! original_static with
                      | Some static => <[updated_static := static]> files1
                      | None => files1
                      end in
                    let '(added_triples, removed_triples) :=
                      extract_changes original_run updated_run files2 original_dynamic
                        updated_dynamic in
                    let sparql_query :=
                      generate_sparql_update added_triples removed_triples
                        mapping default_namespace in
                    if String.eqb sparql_query EmptyString
                    then (files2, srv, fail st)
                    else
                      let '(srv', sent) := send_sparql_update srv sparql_query in
                      if sent then
                        (files2, srv',
                         State (current_action st) (Some action) (Some success)
                               (Some (executed_count + 1)))
                      else (files2, srv', fail st)
                end
            end
        end
  end.

End world_update.

End Node.

(* ===================================================================== *)
(** * Facts about strings *)
(* ===================================================================== *)

Module StringFacts.
Import PyStr GoalNormalizer.

Definition chars (s : string) : list ascii := list_ascii_of_string s.

(** Every character of [s] is of class [f]. *)
Definition all_of (f : ascii → bool) (s : string) : Prop :=
  ∀ c, c ∈ chars s → f c = true.

Lemma append_cons c a b : String c a +:+ b = String c (a +:+ b).
Proof. reflexivity. Qed.

Lemma append_nil_l a : EmptyString +:+ a = a.
Proof. reflexivity. Qed.


Lemma append_assoc a b c : (a +:+ b) +:+ c = a +:+ (b +:+ c).
Proof. induction a as [|x a IH]; [done|]. by rewrite !append_cons, IH. Qed.

Lemma chars_cons c s : chars (String c s) = c :: chars s.
Proof. done. Qed.

Lemma chars_app a b : chars (a +:+ b) = chars a ++ chars b.
Proof.
  induction a as [|c a IH]; [done|]. by rewrite append_cons, !chars_cons, IH.
Qed.

Lemma chars_inj a b : chars a = chars b → a = b.
Proof.
  intros H. rewrite <- (string_of_list_ascii_of_string a),
              <- (string_of_list_ascii_of_string b).
  unfold chars in H. by rewrite H.
Qed.

Lemma length_chars s : String.length s = length (chars s).
Proof. induction s as [|c s IH]; [done|]. simpl. by rewrite IH. Qed.

Lemma length_append a b : String.length (a +:+ b) = String.length a + String.length b.
Proof. by rewrite !length_chars, chars_app, length_app. Qed.

Lemma append_inv_head a x y : a +:+ x = a +:+ y → x = y.
Proof.
  intros H. apply chars_inj. apply (f_equal chars) in H.
  rewrite !chars_app in H. by apply app_inv_head in H.
Qed.

Lemma append_inv_tail a x y : x +:+ a = y +:+ a → x = y.
Proof.
  intros H. apply chars_inj. apply (f_equal chars) in H.
  rewrite !chars_app in H. by apply app_inv_tail in H.
Qed.

Lemma all_of_nil f : all_of f EmptyString.
Proof. intros c H. by apply elem_of_nil in H. Qed.

Lemma all_of_cons f c s : all_of f (String c s) ↔ f c = true ∧ all_of f s.
Proof.
  unfold all_of. rewrite chars_cons. split.
  - intros H. split; [apply H; by left|]. intros x Hx. apply H. by right.
  - intros [H1 H2] x Hx. apply elem_of_cons in Hx as [->|Hx]; [done|by apply H2].
Qed.

Lemma all_of_app f a b : all_of f (a +:+ b) ↔ all_of f a ∧ all_of f b.
Proof.
  unfold all_of. rewrite chars_app. split.
  - intros H. split; intros c Hc; apply H, elem_of_app; [by left|by right].
  - intros [H1 H2] c Hc. apply elem_of_app in Hc as [Hc|Hc]; [by apply H1|by apply H2].
Qed.

(** ** Prefixes and suffixes *)

Lemma startswith_app p q : startswith p (p +:+ q) = true.
Proof.
  induction p as [|c p IH]; [done|].
  rewrite append_cons. simpl. by rewrite Ascii.eqb_refl.
Qed.

Lemma startswith_split p s :
  startswith p s = true → s = p +:+ slice_from (String.length p) s.
Proof.
  revert s. induction p as [|a p IH]; intros s; [done|].
  destruct s as [|b s]; [done|]. simpl.
  intros H. apply andb_true_iff in H as [H1 H2].
  apply Ascii.eqb_eq in H1 as ->. rewrite append_cons.
  f_equal. by apply IH.
Qed.

Lemma slice_from_app p q : slice_from (String.length p) (p +:+ q) = q.
Proof. induction p as [|c p IH]; [by destruct q|]. by rewrite append_cons. Qed.

Lemma rev_onto_app a b acc : rev_onto (a +:+ b) acc = rev_onto b (rev_onto a acc).
Proof.
  revert acc. induction a as [|c a IH]; intros acc; [done|].
  rewrite append_cons. simpl. apply IH.
Qed.

Lemma rev_onto_acc s acc : rev_onto s acc = rev_onto s EmptyString +:+ acc.
Proof.
  revert acc. induction s as [|c s IH]; intros acc; simpl; [done|].
  rewrite IH, (IH (String c EmptyString)). by rewrite append_assoc.
Qed.

Lemma endswith_app base id : endswith id (base +:+ id) = true.
Proof.
  unfold endswith, reverse. rewrite rev_onto_app, (rev_onto_acc id (rev_onto base _)).
  apply startswith_app.
Qed.

(** ** Greedy spans *)

(** [b] is empty or starts with a character that is not of class [f]. *)
Definition stops (f : ascii → bool) (b : string) : Prop :=
  match b with
  | EmptyString => True
  | String c _ => f c = false
  end.

Lemma span_spec f s a b :
  span f s = (a, b) ↔ s = a +:+ b ∧ all_of f a ∧ stops f b.
Proof.
  revert a b. induction s as [|c r IH]; intros a b; simpl.
  - split.
    + intros [= <- <-]. split; [done|]. split; [apply all_of_nil|done].
    + intros (H1 & H2 & H3). destruct a; [|done].
      rewrite append_nil_l in H1. by subst.
  - destruct (f c) eqn:E.
    + case_eq (span f r). intros a' b' Es. split.
      * intros [= <- <-]. destruct (proj1 (IH a' b') Es) as (-> & H2 & H3).
        split; [done|]. split; [|done]. by apply all_of_cons.
      * intros (H1 & H2 & H3). destruct a as [|x a].
        -- rewrite append_nil_l in H1. subst b. simpl in H3. congruence.
        -- rewrite append_cons in H1. injection H1 as <- ->.
           apply all_of_cons in H2 as [_ H2].
           assert (span f (a +:+ b) = (a, b)) as Heq by (by apply IH).
           rewrite Heq in Es. by injection Es as <- <-.
    + split.
      * intros [= <- <-]. split; [done|]. split; [apply all_of_nil|done].
      * intros (H1 & H2 & H3). destruct a as [|x a];
          [rewrite append_nil_l in H1; by subst|].
        rewrite append_cons in H1. injection H1 as <- ->.
        apply all_of_cons in H2 as [H2 _]. congruence.
Qed.

Lemma space_not_word c : is_space c = true → is_word c = false.
Proof. destruct c as [[] [] [] [] [] [] [] []]; done. Qed.

Lemma word_not_space c : is_word c = true → is_space c = false.
Proof. destruct c as [[] [] [] [] [] [] [] []]; done. Qed.

End StringFacts.

(* ===================================================================== *)
(** * Properties of the goal normalizer *)
(* ===================================================================== *)

Module GoalNormalizerFacts.
Import PyStr GoalNormalizer.

(** The rewrite table at work: legacy predicates are renamed whatever
    their case and spacing, [isClosed] becomes a negated [isOpen], and
    a bare [not (...)] is wrapped. *)
Example normalize_rewrites :
  normalize_goal_formula
    "(and (ISINSPACE cup_1   kitchen_2) (isclosed door_3) not (isOpen box_4))"
  = "(and (artifactIsInSpace cup_1 kitchen_2) (not (isOpen door_3)) (not (isOpen box_4)))".
Proof. vm_compute. reflexivity. Qed.

(** On that result the normalizer changes nothing. *)
Example normalize_rewrites_stable :
  let g := "(and (artifactIsInSpace cup_1 kitchen_2) (not (isOpen door_3)) (not (isOpen box_4)))" in
  normalize_goal_formula g = g.
Proof. vm_compute. reflexivity. Qed.

(** C6 (idempotence of the goal normalizer), at a failing input.  A
    bare [not (...)] whose argument holds another bare [not (...)] is
    wrapped without its argument being scanned: the inner [not] is
    left without parentheses after one run, and is wrapped only by a
    second run, so that the result of one run is not a fixed point. *)
Theorem normalize_goal_formula_nested_not :
  let g := "not (and (isOpen door_1) not (isLocked safe_2))" in
  normalize_goal_formula g
    = "(not (and (isOpen door_1) not (isLocked safe_2)))" ∧
  normalize_goal_formula (normalize_goal_formula g)
    = "(not (and (isOpen door_1) (not (isLocked safe_2))))" ∧
  normalize_goal_formula (normalize_goal_formula g) ≠ normalize_goal_formula g.
Proof. vm_compute. repeat split; try reflexivity. discriminate. Qed.

End GoalNormalizerFacts.

(* ===================================================================== *)
(** * Properties of the SPARQL generator *)
(* ===================================================================== *)

Module SparqlFacts.
Import PyStr Rdf WorldUpdate.

Lemma add_delete_mono line k k' st :
  k' ∈ delete_triples_set st → k' ∈ delete_triples_set (add_delete line k st).
Proof.
  intros Hk. unfold add_delete. case_decide; simpl; [done|].
  apply elem_of_app. by left.
Qed.

Lemma add_delete_in line k st : k ∈ delete_triples_set (add_delete line k st).
Proof.
  unfold add_delete. case_decide; simpl; [done|].
  apply elem_of_app. right. by apply list_elem_of_singleton.
Qed.

(** An entry of ["inferred_relationships"]. *)
Definition entry (relationship type : string) : Py.value :=
  Py.Dict [("relationship", Py.Str relationship); ("type", Py.Str type)].

(** A relationship mapping as [json.load] gives it: the entries of
    [robotIsInSpace], one of each kind. *)
Definition example_mapping : Py.value :=
  Py.Dict
    [("mappings",
      Py.Dict
        [("robotIsInSpace",
          Py.Dict
            [("inferred_relationships",
              Py.List [ entry "objectIsInSpace" "subproperty";
                        entry "objectIsInStorey" "property_chain";
                        entry "spaceHasObject" "inverse_inference" ])])])].

(** The triple a move of [robot1] out of [corridor_14] removes, in the
    namespace the generator has as its default. *)
Definition removed_move : triple :=
  (URIRef "http://www.semanticweb.org/namh_woo/ontologies/2025/9/untitled-ontology-10#robot1",
   URIRef "http://www.semanticweb.org/namh_woo/ontologies/2025/9/untitled-ontology-10#robotIsInSpace",
   URIRef "http://www.semanticweb.org/namh_woo/ontologies/2025/9/untitled-ontology-10#corridor_14").

(** The default [namespace] argument already ends in ["#"], and
    [get_inferred_relationships_for_delete] adds one more. *)
Lemma entity_uri_default (name : string) :
  startswith "http" name = false → startswith ":" name = false →
  entity_uri default_namespace name = default_namespace +:+ "#" +:+ name.
Proof. intros H1 H2. unfold entity_uri. by rewrite H1, H2. Qed.

(** C3.  The removal of [robot1 robotIsInSpace corridor_14], with a
    mapping that lists a [subproperty], a [property_chain] and an
    [inverse_inference] entry for [robotIsInSpace] and with the
    namespace [world_update] leaves to its default: the DELETE block
    has one line per entry after the line of the removed triple, the
    inverse entry with its two ends swapped, but none of the three
    lines keeps the subject and the object of the removed triple.
    Their IRIs are written with two ["#"] ([...untitled-ontology-10##robot1]),
    and so is the predicate: the lines name entities the removed
    triple does not mention. *)
Theorem inferred_deletes_name_other_entities :
  generate_sparql_update [] [removed_move] (Some example_mapping) default_namespace
  = join newline
      [ "DELETE {";
        "    <http://www.semanticweb.org/namh_woo/ontologies/2025/9/untitled-ontology-10#robot1> <http://www.semanticweb.org/namh_woo/ontologies/2025/9/untitled-ontology-10#robotIsInSpace> <http://www.semanticweb.org/namh_woo/ontologies/2025/9/untitled-ontology-10#corridor_14> .";
        "    <http://www.semanticweb.org/namh_woo/ontologies/2025/9/untitled-ontology-10##robot1> <http://www.semanticweb.org/namh_woo/ontologies/2025/9/untitled-ontology-10##objectIsInSpace> <http://www.semanticweb.org/namh_woo/ontologies/2025/9/untitled-ontology-10##corridor_14> .";
        "    <http://www.semanticweb.org/namh_woo/ontologies/2025/9/untitled-ontology-10##robot1> <http://www.semanticweb.org/namh_woo/ontologies/2025/9/untitled-ontology-10##objectIsInStorey> <http://www.semanticweb.org/namh_woo/ontologies/2025/9/untitled-ontology-10##corridor_14> .";
        "    <http://www.semanticweb.org/namh_woo/ontologies/2025/9/untitled-ontology-10##corridor_14> <http://www.semanticweb.org/namh_woo/ontologies/2025/9/untitled-ontology-10##spaceHasObject> <http://www.semanticweb.org/namh_woo/ontologies/2025/9/untitled-ontology-10##robot1> .";
        "}" ]
  ∧ ∀ k, k ∈ default [] (inferred_for example_mapping default_namespace removed_move) →
         k.1.1 ≠ str removed_move.1.1 ∧ k.1.1 ≠ str removed_move.2 ∧
         k.2 ≠ str removed_move.1.1 ∧ k.2 ≠ str removed_move.2.
Proof.
  split; [vm_compute; reflexivity|].
  intros k Hk. vm_compute in Hk.
  repeat (apply elem_of_cons in Hk as [->|Hk]; [vm_compute; repeat split; congruence|]).
  by apply elem_of_nil in Hk.
Qed.

(** With a namespace that does not end in ["#"] the lines of the
    inferred triples name the entities of the removed triple. *)
Example generate_sparql_update_move :
  generate_sparql_update
    [ (URIRef "http://ex.org/o#robot1", URIRef "http://ex.org/o#robotIsInSpace",
       URIRef "http://ex.org/o#door_9") ]
    [ (URIRef "http://ex.org/o#robot1", URIRef "http://ex.org/o#robotIsInSpace",
       URIRef "http://ex.org/o#corridor_14") ]
    (Some example_mapping) "http://ex.org/o"
  = join newline
      [ "DELETE {";
        "    <http://ex.org/o#robot1> <http://ex.org/o#robotIsInSpace> <http://ex.org/o#corridor_14> .";
        "    <http://ex.org/o#robot1> <http://ex.org/o#objectIsInSpace> <http://ex.org/o#corridor_14> .";
        "    <http://ex.org/o#robot1> <http://ex.org/o#objectIsInStorey> <http://ex.org/o#corridor_14> .";
        "    <http://ex.org/o#corridor_14> <http://ex.org/o#spaceHasObject> <http://ex.org/o#robot1> .";
        "}";
        "INSERT {";
        "    <http://ex.org/o#robot1> <http://ex.org/o#robotIsInSpace> <http://ex.org/o#door_9> .";
        "}";
        "WHERE { }" ].
Proof. vm_compute. reflexivity. Qed.

End SparqlFacts.

(* ===================================================================== *)
(** * Properties of the TTL rewriter *)
(* ===================================================================== *)

Module RewriterFacts.
Import PyStr Rdf WorldUpdate.

(** The triple [(robot, robotIsInSpace, location)] in namespace [ns]. *)
Definition move_triple (ns robot location : string) : triple :=
  (URIRef (ns +:+ robot), URIRef (ns +:+ "robotIsInSpace"),
   URIRef (ns +:+ location)).

(** P3 for one pair of versions: the diff is the one removal and the
    one addition of the move. *)
Definition exact_move_diff (original_run updated_run : parse_run) (ns : string)
    (original updated : list string)
    (robot from_location to_location : string) : Prop :=
  extract_changes_with_rdflib original_run updated_run original updated
  = ([move_triple ns robot to_location], [move_triple ns robot from_location]).





(** A dynamic file with two robots, both in [corridor_14]. *)
Definition two_robots : list string :=
  [ "@prefix : <http://ex.org/o#> .";
    "@prefix rdf: <http://www.w3.org/1999/02/22-rdf-syntax-ns#> .";
    EmptyString;
    ":robot10 rdf:type :Robot ;";
    "    :robotIsInSpace :corridor_14 .";
    EmptyString;
    ":robot1 rdf:type :Robot ;";
    "    :robotIsInSpace :corridor_14 ;";
    "    :hasHand :left_hand ." ].

(** The block search looks for [":robot1"] as a piece of the line: for
    [move(robot1, corridor_14, door_9)] on that file it takes the block
    of [robot10] for the block of [robot1] and rewrites the location of
    [robot10]. *)
Example move_rewrites_longer_id :
  ∃ updated,
    save_incremental_update_to_ttl (Some two_robots) "robot1" "corridor_14" "door_9"
      = Some updated ∧
    ∀ original_run updated_run,
      extract_changes_with_rdflib original_run updated_run two_robots updated
        = ([move_triple "http://ex.org/o#" "robot10" "door_9"],
           [move_triple "http://ex.org/o#" "robot10" "corridor_14"]) ∧
      ¬ exact_move_diff original_run updated_run "http://ex.org/o#"
          two_robots updated "robot1" "corridor_14" "door_9".
Proof.
  eexists. split; [vm_compute; reflexivity|].
  intros original_run updated_run.
  split; [vm_compute; reflexivity|].
  unfold exact_move_diff. vm_compute. discriminate.
Qed.



End RewriterFacts.

(* ===================================================================== *)
(** * Properties of the distance table *)
(* ===================================================================== *)

Module TopologyFacts.
Import Topology.

Lemma length_tail {A} (l : list A) : length (tail l) = length l - 1.
Proof. destruct l; simpl; lia. Qed.

Section walks.
Variable adj : string → string → Prop.

Definition shortest (a : string) (p : list string) (b : string) : Prop :=
  walk adj a p b ∧ ∀ q, walk adj a q b → hops p ≤ hops q.

Lemma walk_head a p b : walk adj a p b → ∃ p', p = a :: p'.
Proof. destruct 1; eauto. Qed.

Lemma walk_length a p b : walk adj a p b → 1 ≤ length p.
Proof. destruct 1; simpl; lia. Qed.

Lemma walk_zero a p b : walk adj a p b → hops p = 0 → a = b.
Proof.
  destruct 1 as [a|a x p b Hax Hw]; [done|].
  apply walk_length in Hw. unfold hops. simpl. lia.
Qed.

Lemma walk_snoc a p b c : walk adj a p b → adj b c → walk adj a (p ++ [c]) c.
Proof.
  induction 1 as [a|a x p b Hax Hw IH]; intros Hbc; simpl.
  - apply walk_step with c; [done|constructor].
  - apply walk_step with x; [done|by apply IH].
Qed.

Lemma walk_join a p y q b :
  walk adj a p y → walk adj y q b → walk adj a (p ++ tail q) b.
Proof.
  induction 1 as [a|a x p y Hax Hw IH]; intros Hq; simpl.
  - destruct Hq; simpl; [constructor|]. by eapply walk_step.
  - apply walk_step with x; [done|by apply IH].
Qed.

Lemma walk_take a p b k y :
  walk adj a p b → p !! k = Some y → walk adj a (take (S k) p) y.
Proof.
  intros Hw. revert k. induction Hw as [a|a x p b Hax Hw IH]; intros k Hk.
  - destruct k; simpl in *; [|done]. injection Hk as <-. constructor.
  - destruct k as [|k]; simpl in *.
    + injection Hk as <-. rewrite take_0. constructor.
    + apply walk_step with x; [done|by apply IH].
Qed.

Lemma walk_drop a p b k y :
  walk adj a p b → p !! k = Some y → walk adj y (drop k p) b.
Proof.
  intros Hw. revert k. induction Hw as [a|a x p b Hax Hw IH]; intros k Hk.
  - destruct k; simpl in *; [|done]. injection Hk as <-. constructor.
  - destruct k as [|k]; simpl in *.
    + injection Hk as <-. by eapply walk_step.
    + by apply IH.
Qed.

(** A prefix of a shortest walk is a shortest walk. *)
Lemma shortest_prefix a p b k y :
  shortest a p b → p !! k = Some y → distance adj a y k.
Proof.
  intros [Hw Hmin] Hk.
  assert (Hlt : k < length p) by (by eapply lookup_lt_Some).
  split.
  - exists (take (S k) p). split; [by eapply walk_take|].
    unfold hops. rewrite length_take. lia.
  - intros q Hq.
    pose proof (walk_join _ _ _ _ _ Hq (walk_drop _ _ _ _ _ Hw Hk)) as Hj.
    apply Hmin in Hj. apply walk_length in Hq.
    unfold hops in *. rewrite length_app, length_tail, length_drop in Hj. lia.
Qed.

(** A suffix of a shortest walk is a shortest walk. *)
Lemma shortest_suffix a p b k x :
  shortest a p b → p !! k = Some x → shortest x (drop k p) b.
Proof.
  intros [Hw Hmin] Hk.
  assert (Hlt : k < length p) by (by eapply lookup_lt_Some).
  split; [by eapply walk_drop|].
  intros q Hq.
  pose proof (walk_join _ _ _ _ _ (walk_take _ _ _ _ _ Hw Hk) Hq) as Hj.
  apply Hmin in Hj. apply walk_length in Hq.
  unfold hops in *. rewrite length_app, length_tail, length_take in Hj.
  rewrite length_drop. lia.
Qed.

(** Between any two positions of a shortest walk the hop count is the
    difference of the positions. *)
Lemma shortest_between a p b i j x y :
  shortest a p b → i ≤ j → p !! i = Some x → p !! j = Some y →
  distance adj x y (j - i).
Proof.
  intros Hs Hij Hi Hj.
  apply shortest_prefix with (p := drop i p) (b := b).
  - by eapply shortest_suffix.
  - rewrite lookup_drop. by replace (i + (j - i)) with j by lia.
Qed.

Lemma distance_unique a b n m :
  distance adj a b n → distance adj a b m → n = m.
Proof.
  intros [(p & Hp & <-) Hn] [(q & Hq & <-) Hm].
  apply Hn in Hq. apply Hm in Hp. lia.
Qed.

Hypothesis adj_sym : ∀ x y, adj x y → adj y x.

Lemma walk_rev a p b : walk adj a p b → walk adj b (rev p) a.
Proof.
  induction 1 as [a|a x p b Hax Hw IH]; simpl; [constructor|].
  eapply walk_snoc; [done|by apply adj_sym].
Qed.

Lemma distance_sym a b n : distance adj a b n → distance adj b a n.
Proof.
  intros [(p & Hp & Hn) Hmin]. split.
  - exists (rev p). split; [by apply walk_rev|]. unfold hops in *.
    by rewrite length_rev.
  - intros q Hq. apply walk_rev, Hmin in Hq. unfold hops in *.
    by rewrite length_rev in Hq.
Qed.

(** An edge between two different nodes is a shortest walk. *)
Lemma distance_edge a b : adj a b → a ≠ b → distance adj a b 1.
Proof.
  intros Hab Hne. split.
  - exists [a; b]. split; [|done]. apply walk_step with b; [done|constructor].
  - intros q Hq. destruct (hops q) eqn:E; [|lia].
    by apply walk_zero in Hq.
Qed.

(** ** The table holds shortest-path hop counts *)

Definition sound (d : distance_table) : Prop :=
  ∀ a b n, d !! (a, b) = Some n → distance adj a b n.

Lemma sound_insert d a b n :
  sound d → distance adj a b n → sound (<[(a, b) := n]> d).
Proof.
  intros Hd Hn a' b' n'. destruct (decide ((a, b) = (a', b'))) as [[= <- <-]|Hne].
  - rewrite lookup_insert_eq. by intros [= <-].
  - rewrite lookup_insert_ne by done. apply Hd.
Qed.

Lemma sound_set_default d a b n :
  sound d → distance adj a b n → sound (set_default (a, b) n d).
Proof.
  intros Hd Hn. unfold set_default.
  destruct (d !! (a, b)); [done|by apply sound_insert].
Qed.

Lemma sound_record_from node1 offset rest d :
  sound d →
  (∀ k y, rest !! k = Some y → distance adj node1 y (offset + k)) →
  sound (record_from node1 offset rest d).
Proof.
  revert offset d. induction rest as [|node2 rest IH]; intros offset d Hd Hr; [done|].
  simpl. apply IH.
  - assert (distance adj node1 node2 offset).
    { replace offset with (offset + 0) by lia. by apply (Hr 0). }
    apply sound_set_default; [by apply sound_set_default|by apply distance_sym].
  - intros k y Hk. replace (S offset + k) with (offset + S k) by lia.
    by apply (Hr (S k)).
Qed.

Lemma sound_record_subpaths a p b d :
  sound d → shortest a p b → sound (record_subpaths p d).
Proof.
  revert a d. induction p as [|node1 rest IH]; intros a d Hd Hs; [done|].
  simpl. destruct rest as [|x rest]; [done|].
  assert (node1 = a) as ->.
  { destruct Hs as [Hw _]. destruct (walk_head _ _ _ Hw) as [p' Hp'].
    by injection Hp'. }
  apply (IH x).
  - apply sound_record_from; [done|].
    intros k y Hk.
    replace (1 + k) with (S k - 0) by lia.
    eapply (shortest_between a (a :: x :: rest) b 0 (S k)); [done|lia|done|done].
  - replace (x :: rest) with (drop 1 (a :: x :: rest)) by done.
    eapply shortest_suffix; [done|done].
Qed.

(** ** Every pair of positions of a path gets an entry *)

Definition keeps (d d' : distance_table) : Prop :=
  ∀ k, is_Some (d !! k) → is_Some (d' !! k).

Lemma keeps_refl d : keeps d d.
Proof. by intros k. Qed.

Lemma keeps_trans d1 d2 d3 : keeps d1 d2 → keeps d2 d3 → keeps d1 d3.
Proof. intros H1 H2 k Hk. by apply H2, H1. Qed.

Lemma keeps_insert d k v : keeps d (<[k := v]> d).
Proof.
  intros k' Hk'. destruct (decide (k = k')) as [<-|Hne].
  - rewrite lookup_insert_eq. eauto.
  - by rewrite lookup_insert_ne.
Qed.

Lemma set_default_has d k v : is_Some (set_default k v d !! k).
Proof.
  unfold set_default. destruct (d !! k) eqn:E; [by rewrite E|].
  rewrite lookup_insert_eq. eauto.
Qed.

Lemma keeps_set_default d k v : keeps d (set_default k v d).
Proof.
  unfold set_default. destruct (d !! k); [apply keeps_refl|apply keeps_insert].
Qed.

Lemma record_from_keeps node1 offset rest d :
  keeps d (record_from node1 offset rest d).
Proof.
  revert offset d. induction rest as [|node2 rest IH]; intros offset d; simpl.
  - apply keeps_refl.
  - eapply keeps_trans; [|apply IH].
    eapply keeps_trans; apply keeps_set_default.
Qed.

Lemma record_from_has node1 offset rest d k y :
  rest !! k = Some y → is_Some (record_from node1 offset rest d !! (node1, y)).
Proof.
  revert offset d k. induction rest as [|node2 rest IH]; intros offset d k Hk; [done|].
  simpl. destruct k as [|k]; simpl in Hk.
  - injection Hk as ->. apply record_from_keeps, keeps_set_default, set_default_has.
  - by eapply IH.
Qed.

Lemma record_subpaths_keeps p d : keeps d (record_subpaths p d).
Proof.
  revert d. induction p as [|node1 rest IH]; intros d; simpl.
  - apply keeps_refl.
  - eapply keeps_trans; [apply record_from_keeps|apply IH].
Qed.

Lemma record_subpaths_has p d i j x y :
  i < j → p !! i = Some x → p !! j = Some y →
  is_Some (record_subpaths p d !! (x, y)).
Proof.
  revert d i j. induction p as [|node1 rest IH]; intros d i j Hij Hi Hj; [done|].
  simpl. destruct i as [|i]; simpl in Hi.
  - injection Hi as ->. destruct j as [|j]; [lia|]. simpl in Hj.
    apply record_subpaths_keeps. by eapply record_from_has.
  - destruct j as [|j]; [lia|]. simpl in Hj.
    apply (IH _ i j); [lia|done|done].
Qed.

End walks.

Section projection.
Variable P : projection.

Lemma adjacent_sym x y : adjacent P x y → adjacent P y x.
Proof. unfold adjacent. tauto. Qed.

Lemma row_shortest r p :
  row_answers P r → path_nodes r = Some p →
  shortest (adjacent P) (loc1 r) p (loc2 r) ∧
  path_length r = Some (hops p) ∧ ∃ n ns, p = n :: ns.
Proof.
  intros (_ & _ & Hp & _) E. rewrite E in Hp.
  destruct Hp as (Hw & Hmin & Hlen & Hpl).
  split; [by split|]. split; [done|].
  destruct p as [|n ns]; [unfold hops in Hlen; simpl in Hlen; lia|eauto].
Qed.

Lemma record_row_sound acc r :
  row_answers P r → sound (adjacent P) acc.2 →
  sound (adjacent P) (record_row acc r).2.
Proof.
  intros Hr Hd. destruct acc as [locs d]. simpl in Hd. unfold record_row.
  destruct (path_nodes r) as [p|] eqn:E.
  - destruct (row_shortest r p Hr E) as (Hs & -> & n & ns & ->). cbv [snd].
    assert (Hdist : distance (adjacent P) (loc1 r) (loc2 r) (hops (n :: ns))).
    { destruct Hs as [Hw Hmin]. split; [eauto|done]. }
    apply (sound_record_subpaths (adjacent P) adjacent_sym (loc1 r) _ (loc2 r));
      [|done].
    apply sound_insert; [by apply sound_insert|].
    by apply distance_sym; [apply adjacent_sym|].
  - destruct Hr as (_ & _ & _ & Hdirect & Hne).
    assert (Hcase : (if has_direct_connection r
                     then (locs, <[(loc2 r, loc1 r) := 1]> (<[(loc1 r, loc2 r) := 1]> d))
                     else (locs, d)).2
                    = if has_direct_connection r
                      then <[(loc2 r, loc1 r) := 1]> (<[(loc1 r, loc2 r) := 1]> d)
                      else d) by (by destruct (has_direct_connection r)).
    assert (Hgoal : sound (adjacent P)
              (if has_direct_connection r
               then <[(loc2 r, loc1 r) := 1]> (<[(loc1 r, loc2 r) := 1]> d)
               else d)).
    { destruct (has_direct_connection r); [|done].
      assert (distance (adjacent P) (loc1 r) (loc2 r) 1)
        by (apply distance_edge; [by apply Hdirect|done]).
      apply sound_insert; [by apply sound_insert|].
      by apply distance_sym; [apply adjacent_sym|]. }
    destruct (path_length r); by rewrite Hcase.
Qed.

Lemma record_row_keeps acc r : keeps acc.2 (record_row acc r).2.
Proof.
  destruct acc as [locs d]. unfold record_row.
  destruct (path_nodes r) as [[|n ns]|]; destruct (path_length r) as [len|];
    destruct (has_direct_connection r); cbv [snd];
    try apply keeps_refl;
    try (eapply keeps_trans; apply keeps_insert).
  all: eapply keeps_trans; [|apply record_subpaths_keeps].
  all: eapply keeps_trans; apply keeps_insert.
Qed.

Lemma record_row_has acc r p i j x y :
  row_answers P r → path_nodes r = Some p →
  i < j → p !! i = Some x → p !! j = Some y →
  is_Some ((record_row acc r).2 !! (x, y)).
Proof.
  intros Hr E Hij Hi Hj. destruct acc as [locs d]. unfold record_row.
  destruct (row_shortest r p Hr E) as (_ & Hlen & n & ns & ->).
  rewrite E, Hlen. cbv [snd]. by eapply record_subpaths_has.
Qed.

Lemma rows_sound rows acc :
  (∀ r, r ∈ rows → row_answers P r) → sound (adjacent P) acc.2 →
  sound (adjacent P) (foldl record_row acc rows).2.
Proof.
  revert acc. induction rows as [|r rows IH]; intros acc Hrows Hd; [done|].
  simpl. apply IH.
  - intros r' Hr'. apply Hrows. by right.
  - apply record_row_sound; [|done]. apply Hrows. by left.
Qed.

Lemma rows_keep rows acc : keeps acc.2 (foldl record_row acc rows).2.
Proof.
  revert acc. induction rows as [|r rows IH]; intros acc; simpl.
  - apply keeps_refl.
  - eapply keeps_trans; [apply record_row_keeps|apply IH].
Qed.

Lemma rows_have rows acc r p i j x y :
  (∀ r, r ∈ rows → row_answers P r) →
  r ∈ rows → path_nodes r = Some p →
  i < j → p !! i = Some x → p !! j = Some y →
  is_Some ((foldl record_row acc rows).2 !! (x, y)).
Proof.
  revert acc. induction rows as [|r' rows IH]; intros acc Hrows Hr E Hij Hi Hj.
  - by apply elem_of_nil in Hr.
  - simpl. apply elem_of_cons in Hr as [->|Hr].
    + apply rows_keep. eapply record_row_has; [|done..]. apply Hrows. by left.
    + eapply IH; [|done..]. intros r0 Hr0. apply Hrows. by right.
Qed.

Lemma connections_from_rows rows init c :
  c ∈ foldl add_connection init rows → c ∈ init ∨ c ∈ rows.
Proof.
  revert init. induction rows as [|[f t] rows IH]; intros init Hc; simpl in Hc.
  - by left.
  - apply IH in Hc as [Hc|Hc]; [|right; by right].
    unfold add_connection in Hc. case_decide; [by left|].
    apply elem_of_app in Hc as [Hc|Hc]; [by left|].
    apply list_elem_of_singleton in Hc as ->. right. by left.
Qed.

Lemma add_direct_sound d c :
  edge_answers P c → sound (adjacent P) d → sound (adjacent P) (add_direct d c).
Proof.
  destruct c as [f t]. intros [He Hne] Hd. simpl in Hne. unfold add_direct.
  assert (distance (adjacent P) f t 1)
    by (apply distance_edge; [by left|done]).
  apply sound_set_default; [by apply sound_set_default|].
  by apply distance_sym; [apply adjacent_sym|].
Qed.

Lemma add_direct_keeps d c : keeps d (add_direct d c).
Proof.
  destruct c as [f t]. unfold add_direct.
  eapply keeps_trans; apply keeps_set_default.
Qed.

Lemma topology_sound direct_edges locs d :
  (∀ ids e, e ∈ direct_edges ids → edge_answers P e) →
  sound (adjacent P) d →
  sound (adjacent P) (get_topology direct_edges locs d).2.
Proof.
  intros He Hd. unfold get_topology. case_decide; [done|]. simpl.
  assert (Hc : ∀ c, c ∈ foldl add_connection [] (direct_edges (elements locs)) →
                    edge_answers P c).
  { intros c Hc. apply connections_from_rows in Hc as [Hc|Hc].
    - by apply elem_of_nil in Hc.
    - by eapply He. }
  revert Hc. generalize (foldl add_connection [] (direct_edges (elements locs))).
  intros cs. revert d Hd. induction cs as [|c cs IH]; intros d Hd Hc; [done|].
  simpl. apply IH.
  - apply add_direct_sound; [|done]. apply Hc. by left.
  - intros c' Hc'. apply Hc. by right.
Qed.

Lemma topology_keeps direct_edges locs d :
  locs ≠ ∅ → keeps d (get_topology direct_edges locs d).2.
Proof.
  intros Hne. unfold get_topology. case_decide; [done|]. simpl.
  generalize (foldl add_connection [] (direct_edges (elements locs))).
  intros cs. revert d. induction cs as [|c cs IH]; intros d; simpl.
  - apply keeps_refl.
  - eapply keeps_trans; [apply add_direct_keeps|apply IH].
Qed.

(** The emitted table, in the [hasPathTo] graph as the queries see
    it. *)
Lemma emitted_sound shortest_paths direct_edges location_ids artifact_pairs :
  (∀ pairs r, r ∈ shortest_paths pairs → row_answers P r) →
  (∀ ids e, e ∈ direct_edges ids → edge_answers P e) →
  sound (adjacent P)
    (emitted_distances shortest_paths direct_edges location_ids artifact_pairs).2.
Proof.
  intros Hrows Hedges. unfold emitted_distances.
  destruct (get_locations_with_paths shortest_paths location_ids artifact_pairs)
    as [locs d] eqn:E. simpl.
  apply topology_sound; [done|].
  unfold get_locations_with_paths in E.
  destruct (length location_ids <? 2)%nat.
  - injection E as <- <-. intros a b n Hn. by rewrite lookup_empty in Hn.
  - replace d with (locs, d).2 by done. rewrite <- E.
    apply rows_sound; [by eapply Hrows|].
    intros a b n Hn. simpl in Hn. by rewrite lookup_empty in Hn.
Qed.

End projection.

Lemma walk_ext (adj1 adj2 : string → string → Prop) a p b :
  (∀ x y, adj1 x y → adj2 x y) → walk adj1 a p b → walk adj2 a p b.
Proof.
  intros H. induction 1 as [a|a x p b Hax Hw IH]; [constructor|].
  apply walk_step with x; [by apply H|done].
Qed.

Lemma distance_ext (adj1 adj2 : string → string → Prop) a b n :
  (∀ x y, adj1 x y ↔ adj2 x y) → distance adj1 a b n → distance adj2 a b n.
Proof.
  intros H [(p & Hp & Hn) Hmin]. split.
  - exists p. split; [|done]. eapply walk_ext; [|done]. intros x y. apply H.
  - intros q Hq. apply Hmin. eapply walk_ext; [|done]. intros x y. apply H.
Qed.

Lemma rows_locations rows acc : acc.1 ⊆ (foldl record_row acc rows).1.
Proof.
  revert acc. induction rows as [|r rows IH]; intros acc; [done|].
  simpl. etrans; [|apply IH].
  destruct acc as [locs d]. unfold record_row.
  destruct (path_nodes r) as [[|n ns]|]; destruct (path_length r);
    destruct (has_direct_connection r); cbv [fst]; set_solver.
Qed.

Lemma required_locations_ids location_ids artifact_pairs :
  list_to_set location_ids ⊆ required_locations location_ids artifact_pairs.
Proof.
  unfold required_locations.
  generalize (list_to_set location_ids : gset string). intros s0.
  revert s0. induction artifact_pairs as [|[a b] l IH]; intros s0; [done|].
  simpl. etrans; [|apply IH]. set_solver.
Qed.

(** C5, amended.  The shortest-path query restricts the two end points
    of a pair to Space, Door, Stairs or Opening nodes and lets the path
    run over any [hasPathTo] edge.  When every [hasPathTo] edge of the
    projection joins two such nodes, every distance the synthesizer
    emits is the shortest-path hop count of its pair in the [hasPathTo]
    subgraph restricted to these nodes; and, once two locations or
    more are required, every pair of positions [i < j] of a returned
    path is in the table with distance [j - i]. *)
Theorem emitted_distances_shortest (P : projection)
    (shortest_paths : list (string * string) → list path_record)
    (direct_edges : list string → list (string * string))
    (location_ids : list string) (artifact_pairs : list (string * string)) :
  (∀ pairs r, r ∈ shortest_paths pairs → row_answers P r) →
  (∀ ids e, e ∈ direct_edges ids → edge_answers P e) →
  (∀ x y, adjacent P x y → x ∈ location_nodes P ∧ y ∈ location_nodes P) →
  let table :=
    (emitted_distances shortest_paths direct_edges location_ids artifact_pairs).2 in
  (∀ a b n, table !! (a, b) = Some n → distance (adjacent_loc P) a b n) ∧
  (2 ≤ length location_ids →
   ∀ r p i j x y,
     r ∈ shortest_paths (queried_pairs location_ids artifact_pairs) →
     path_nodes r = Some p → i < j → p !! i = Some x → p !! j = Some y →
     table !! (x, y) = Some (j - i)).
Proof.
  intros Hrows Hedges Hloc table.
  pose proof (emitted_sound P shortest_paths direct_edges location_ids
                artifact_pairs Hrows Hedges) as Hsound.
  fold table in Hsound. split.
  - intros a b n Hn. apply (distance_ext (adjacent P)); [|by apply Hsound].
    intros x y. unfold adjacent_loc. split; [|by intros [? _]].
    intros Hxy. split; [done|]. by apply Hloc.
  - intros Hlen r p i j x y Hr E Hij Hi Hj.
    assert (Hsome : is_Some (table !! (x, y))).
    { unfold table, emitted_distances, get_locations_with_paths.
      destruct (Nat.ltb_spec (length location_ids) 2) as [|_]; [lia|].
      destruct (foldl record_row
                  (required_locations location_ids artifact_pairs, ∅)
                  (shortest_paths (queried_pairs location_ids artifact_pairs)))
        as [locs d] eqn:Efold. cbv [snd].
      apply topology_keeps.
      - assert (Hsub : list_to_set location_ids ⊆ locs).
        { etrans; [apply required_locations_ids|].
          pose proof (rows_locations
            (shortest_paths (queried_pairs location_ids artifact_pairs))
            (required_locations location_ids artifact_pairs, ∅)) as H.
          by rewrite Efold in H. }
        destruct location_ids as [|l0 ls]; [simpl in Hlen; lia|].
        clear -Hsub. set_solver.
      - replace d with (locs, d).2 by done. rewrite <- Efold.
        eapply (rows_have P); [by eapply Hrows|done..]. }
    destruct Hsome as [n Hn]. rewrite Hn. f_equal.
    eapply (distance_unique (adjacent P)); [by apply Hsound|].
    destruct (row_shortest P r p (Hrows _ _ Hr) E) as (Hs & _).
    eapply shortest_between; [done|lia|done|done].
Qed.

(** ** Two projections *)

(** Two rooms joined through a node [x]. *)
Definition corridor_edges : list (string * string) := [("a", "x"); ("x", "b")].

Definition corridor_paths (pairs : list (string * string)) : list path_record :=
  [PathRecord "a" "b" (Some ["a"; "x"; "b"]) (Some 2) false].

(** [x] is a door. *)
Definition with_door : projection := Projection corridor_edges ["a"; "x"; "b"].

(** [x] carries none of the four labels. *)
Definition with_unlabelled : projection := Projection corridor_edges ["a"; "b"].

Ltac refute H :=
  exfalso; revert H; refine (bool_decide_eq_false_1 _ _); vm_compute; reflexivity.

Lemma corridor_row_answers (P : projection) :
  hasPathTo P = corridor_edges →
  "a" ∈ location_nodes P → "b" ∈ location_nodes P →
  ∀ pairs r, r ∈ corridor_paths pairs → row_answers P r.
Proof.
  intros HP Ha Hb pairs r Hr. apply list_elem_of_singleton in Hr as ->.
  unfold row_answers. simpl.
  assert (Hadj : ∀ u v, (u, v) ∈ corridor_edges → adjacent P u v).
  { intros u v Huv. left. by rewrite HP. }
  split; [done|]. split; [done|]. split; [|split; [done|done]].
  split.
  { apply walk_step with "x"; [apply Hadj; by left|].
    apply walk_step with "b"; [apply Hadj; right; by left|]. constructor. }
  split; [|split; [unfold hops; simpl; lia|done]].
  intros q Hq. inversion Hq as [|a0 x0 p0 b0 Hax Hw]; subst.
  inversion Hw as [|a1 x1 p1 b1 Hax1 Hw1]; subst.
  - destruct Hax as [H|H]; rewrite HP in H; refute H.
  - apply walk_length in Hw1. unfold hops. simpl. lia.
Qed.

Lemma corridor_edge_answers (P : projection) :
  hasPathTo P = corridor_edges →
  ∀ (ids : list string) e, e ∈ corridor_edges → edge_answers P e.
Proof.
  intros HP ids e He. unfold edge_answers. rewrite HP. split; [done|].
  apply elem_of_cons in He as [->|He]; [done|].
  apply list_elem_of_singleton in He as ->. done.
Qed.

(** The amended claim on the corridor with a door. *)
Lemma emitted_distances_shortest_witness :
  distance (adjacent_loc with_door) "a" "b" 2 ∧
  (emitted_distances corridor_paths (λ _, corridor_edges) ["b"; "a"] []).2
    !! ("x", "b") = Some 1.
Proof.
  destruct (emitted_distances_shortest with_door corridor_paths
              (λ _, corridor_edges) ["b"; "a"] []) as [Hdist Hpairs].
  - apply corridor_row_answers; [done|by left|right; right; by left].
  - intros ids. by apply corridor_edge_answers.
  - intros x y [H|H]; simpl in H;
      (apply elem_of_cons in H as [[= -> ->]|H];
       [|apply list_elem_of_singleton in H as [= -> ->]]);
      split; refine (bool_decide_unpack _ _); vm_compute; exact I.
  - split.
    + apply Hdist. vm_compute. reflexivity.
    + apply (Hpairs ltac:(simpl; lia)
               (PathRecord "a" "b" (Some ["a"; "x"; "b"]) (Some 2) false)
               ["a"; "x"; "b"] 1 2 "x" "b");
        [by left|done|lia|done|done].
Defined.

(** C5 as stated fails.  On the corridor whose middle node has none of
    the four labels the query still answers the path through it (only
    the end points are filtered), the synthesizer emits distance 2 for
    the two rooms, and in the subgraph restricted to Space and Portal
    nodes the two rooms are not connected at all. *)
Lemma distance_through_unlabelled_node :
  (∀ pairs r, r ∈ corridor_paths pairs → row_answers with_unlabelled r) ∧
  (∀ (ids : list string) e, e ∈ corridor_edges → edge_answers with_unlabelled e) ∧
  (emitted_distances corridor_paths (λ _, corridor_edges) ["a"; "b"] []).2
    !! ("a", "b") = Some 2 ∧
  ¬ ∃ n, distance (adjacent_loc with_unlabelled) "a" "b" n.
Proof.
  split; [apply corridor_row_answers; [done|by left|right; by left]|].
  split; [by apply corridor_edge_answers|].
  split; [vm_compute; reflexivity|].
  intros (n & (p & Hp & _) & _).
  inversion Hp as [|a0 x0 p0 b0 (Hax & _ & Hx) Hw]; subst.
  simpl in Hx. apply elem_of_cons in Hx as [->|Hx].
  - destruct Hax as [H|H]; simpl in H; refute H.
  - apply list_elem_of_singleton in Hx as ->.
    destruct Hax as [H|H]; simpl in H; refute H.
Qed.

End TopologyFacts.

(* ===================================================================== *)
(** * Properties of the projection *)
(* ===================================================================== *)

Module ProjectionFacts.
Import Neo4j.

Definition is_individual (n : node) : Prop := "Individual" ∈ labels n.

(** [frame g g']: the nodes that are not labelled [Individual], and the
    edges between such nodes, are the same in [g] and [g']. *)
Definition frame (g g' : graph) : Prop :=
  (∀ k n, ¬ is_individual n → nodes g' !! k = Some n ↔ nodes g !! k = Some n) ∧
  (∀ a t b na nb,
     nodes g !! a = Some na → nodes g !! b = Some nb →
     ¬ is_individual na → ¬ is_individual nb →
     (a, t, b) ∈ edges g' ↔ (a, t, b) ∈ edges g).

Lemma frame_refl g : frame g g.
Proof. by split. Qed.

Lemma frame_trans g1 g2 g3 : frame g1 g2 → frame g2 g3 → frame g1 g3.
Proof.
  intros [Hn12 He12] [Hn23 He23]. split.
  - intros k n Hn. by rewrite Hn23, Hn12.
  - intros a t b na nb Ha Hb Hna Hnb.
    rewrite (He23 a t b na nb), (He12 a t b na nb); try done; by apply Hn12.
Qed.

(** A node is out of the frame: not there, or labelled [Individual]. *)
Definition outside (g : graph) (k : nat) : Prop :=
  ∀ n, nodes g !! k = Some n → is_individual n.

Lemma has_label_true l n : has_label l n = true ↔ l ∈ labels n.
Proof. unfold has_label. apply bool_decide_eq_true. Qed.

Lemma match_nodes_spec ls id g k :
  k ∈ match_nodes ls id g ↔
  ∃ n, nodes g !! k = Some n ∧ matches ls id n = true.
Proof.
  unfold match_nodes. rewrite list_elem_of_fmap. split.
  - intros ([k' n] & -> & H). apply elem_of_map_to_list in H.
    apply map_lookup_filter_Some in H as [H1 H2]. by exists n.
  - intros (n & H1 & H2). exists (k, n). split; [done|].
    apply elem_of_map_to_list, map_lookup_filter_Some. by split.
Qed.

Lemma match_individual_outside ls id g k :
  "Individual" ∈ ls → k ∈ match_nodes ls id g → outside g k.
Proof.
  intros Hl Hk n Hn. apply match_nodes_spec in Hk as (n' & Hn' & Hm).
  assert (n' = n) as -> by congruence.
  unfold matches in Hm. apply andb_true_iff in Hm as [Hm _].
  rewrite forallb_forall in Hm. apply has_label_true, Hm.
  by apply list_elem_of_In.
Qed.

Lemma alter_outside (f : node → node) g k :
  (∀ n, labels (f n) = labels n) → outside g k →
  frame g (Graph (alter f k (nodes g)) (edges g)).
Proof.
  intros Hf Hout. split; [|done].
  intros k' n Hn. simpl. destruct (decide (k = k')) as [<-|Hne].
  - rewrite lookup_alter_eq. split.
    + intros H. destruct (nodes g !! k) as [n0|] eqn:E; [|done].
      simpl in H. injection H as <-. exfalso. apply Hn.
      unfold is_individual. rewrite Hf. by apply Hout.
    + intros H. exfalso. apply Hn. by apply Hout.
  - by rewrite lookup_alter_ne.
Qed.

Lemma alter_keeps_outside (f : node → node) g k k' :
  (∀ n, labels (f n) = labels n) → outside g k' →
  outside (Graph (alter f k (nodes g)) (edges g)) k'.
Proof.
  intros Hf Hout n. simpl. destruct (decide (k = k')) as [<-|Hne].
  - rewrite lookup_alter_eq. destruct (nodes g !! k) as [n0|] eqn:E; [|done].
    simpl. intros [= <-]. unfold is_individual. rewrite Hf. by apply Hout.
  - rewrite lookup_alter_ne by done. apply Hout.
Qed.

Lemma set_prop_frame name v keys g :
  (∀ k, k ∈ keys → outside g k) → frame g (set_prop name v keys g).
Proof.
  unfold set_prop. destruct g as [ns es]. simpl.
  revert ns. induction keys as [|k keys IH]; intros ns Hout; simpl.
  - apply frame_refl.
  - eapply frame_trans.
    + apply (alter_outside (λ n, Node (labels n) (Py.assoc_set name v (props n)))
               (Graph ns es) k); [done|]. apply Hout. by left.
    + simpl. apply IH. intros k' Hk'.
      apply (alter_keeps_outside _ (Graph ns es)); [done|]. apply Hout. by right.
Qed.

Lemma set_prop_edges name v keys g : edges (set_prop name v keys g) = edges g.
Proof. done. Qed.

Lemma set_props_frame kvs keys g :
  (∀ k, k ∈ keys → outside g k) → frame g (set_props kvs keys g).
Proof.
  unfold set_props. revert g. induction kvs as [|kv kvs IH]; intros g Hout; simpl.
  - apply frame_refl.
  - eapply frame_trans; [by apply set_prop_frame|].
    apply IH. intros k Hk n Hn.
    destruct (set_prop_frame kv.1 kv.2 keys g Hout) as [Hnodes _].
    destruct (decide (is_individual n)) as [|Hni]; [done|].
    apply Hnodes in Hn; [|done]. exfalso. apply Hni. by eapply Hout.
Qed.

Lemma merge_node_frame ls id kvs g :
  "Individual" ∈ ls → frame g (merge_node ls id kvs g).
Proof.
  intros Hl. unfold merge_node.
  destruct (match_nodes ls id g) as [|k0 keys] eqn:E.
  - set (k := fresh (dom (nodes g))).
    assert (Hfresh : nodes g !! k = None).
    { apply not_elem_of_dom. apply is_fresh. }
    eapply frame_trans; [|apply set_props_frame].
    + split; [|done]. intros k' n Hn. simpl.
      destruct (decide (k = k')) as [<-|Hne].
      * rewrite lookup_insert_eq, Hfresh. split; [|done].
        intros [= <-]. by destruct Hn.
      * by rewrite lookup_insert_ne.
    + intros k' Hk' n. apply list_elem_of_singleton in Hk' as ->. simpl.
      rewrite lookup_insert_eq. by intros [= <-].
  - apply set_props_frame. intros k Hk.
    eapply match_individual_outside; [done|]. by rewrite E.
Qed.

Lemma merge_edge_frame t a b g : outside g a → frame g (merge_edge t a b g).
Proof.
  intros Hout. unfold merge_edge. case_decide; [apply frame_refl|].
  split; [done|]. intros a' t' b' na nb Ha Hb Hna Hnb. simpl.
  rewrite elem_of_app, list_elem_of_singleton. split; [|by left].
  intros [H'|[= -> -> ->]]; [done|]. exfalso. by apply Hna, Hout.
Qed.

Lemma merge_edge_nodes t a b g : nodes (merge_edge t a b g) = nodes g.
Proof. unfold merge_edge. by case_decide. Qed.

Lemma merge_edges_frame la ida t lb idb g :
  la = "Individual" → frame g (merge_edges la ida t lb idb g).
Proof.
  intros ->. unfold merge_edges.
  assert (Hkeys : ∀ a, a ∈ match_nodes ["Individual"] ida g → outside g a).
  { intros a. apply match_individual_outside. by left. }
  revert Hkeys. generalize (match_nodes ["Individual"] ida g). intros srcs.
  assert (Hinner : ∀ dsts g0 a, outside g0 a →
            frame g0 (foldl (λ g b, merge_edge t a b g) g0 dsts)
            ∧ nodes (foldl (λ g b, merge_edge t a b g) g0 dsts) = nodes g0).
  { induction dsts as [|b dsts IH]; intros g0 a Ha; simpl.
    - split; [apply frame_refl|done].
    - destruct (IH (merge_edge t a b g0) a) as [Hf Hn].
      { intros n. rewrite merge_edge_nodes. apply Ha. }
      split; [|by rewrite Hn, merge_edge_nodes].
      eapply frame_trans; [by apply merge_edge_frame|done]. }
  revert g. induction srcs as [|a srcs IH]; intros g Hkeys; simpl.
  - apply frame_refl.
  - destruct (Hinner (match_nodes [lb] idb g) g a) as [Hf Hn].
    { apply Hkeys. by left. }
    eapply frame_trans; [done|]. apply IH.
    intros a' Ha' n. rewrite Hn. apply Hkeys. by right.
Qed.

Lemma detach_delete_frame g : frame g (detach_delete "Individual" g).
Proof.
  assert (Hkept : ∀ k n, ¬ is_individual n →
            filter (λ kn, has_label "Individual" kn.2 = false) (nodes g) !! k = Some n
            ↔ nodes g !! k = Some n).
  { intros k n Hn. rewrite map_lookup_filter_Some. simpl. split; [by intros [? _]|].
    intros H. split; [done|]. apply not_true_is_false.
    by rewrite has_label_true. }
  split; [done|].
  intros a t b na nb Ha Hb Hna Hnb. unfold detach_delete. simpl.
  rewrite list_elem_of_filter. simpl. split; [by intros [_ ?]|].
  intros H. split; [|done]. split.
  - exists na. by apply Hkept.
  - exists nb. by apply Hkept.
Qed.

End ProjectionFacts.

(* ===================================================================== *)
(** * Properties of the sync *)
(* ===================================================================== *)

Module SyncFacts.
Import Neo4j ProjectionFacts Owl Exc Store.

Lemma foldl_frame {A} (f : graph → A → graph) (l : list A) (g : graph) :
  (∀ g x, frame g (f g x)) → frame g (foldl f g l).
Proof.
  intros Hf. revert g. induction l as [|x l IH]; intros g; simpl.
  - apply frame_refl.
  - eapply frame_trans; [apply Hf|apply IH].
Qed.

Lemma set_prop_matched_frame name v id g :
  frame g (set_prop name v (match_nodes ["Individual"] id g) g).
Proof.
  apply set_prop_frame. intros k.
  apply match_individual_outside. by left.
Qed.

Lemma sync_node_frame w r g i : frame g (sync_node w r g i).
Proof.
  unfold sync_node.
  set (g1 := merge_node _ _ _ g).
  set (g2 := foldl _ g1 _).
  apply (frame_trans g g1); [apply merge_node_frame; by left|].
  apply (frame_trans g1 g2).
  - apply foldl_frame. intros g0 c. by apply merge_edges_frame.
  - apply foldl_frame. intros g0 p.
    destruct (data_value _); [apply set_prop_matched_frame|apply frame_refl].
Qed.

Lemma sync_edges_frame w r g i : frame g (sync_edges w r g i).
Proof.
  unfold sync_edges. apply foldl_frame. intros g0 p.
  apply foldl_frame. intros g1 v. by apply merge_edges_frame.
Qed.

(** The embedding block changes the projection by steps that set
    [description_embedding] on the [Individual] nodes of one id: what
    such steps keep, the block keeps. *)
Section embedding_steps.
Variable R : graph → graph → Prop.
Hypothesis R_refl : ∀ g, R g g.
Hypothesis R_trans : ∀ g1 g2 g3, R g1 g2 → R g2 g3 → R g1 g3.
Hypothesis R_step : ∀ v id g,
  R g (set_prop "description_embedding" v (match_nodes ["Individual"] id g) g).

Lemma load_item_keeps item g : R g (Embedding.load_item item g).1.
Proof.
  unfold Embedding.load_item.
  destruct item as [| | | |?|fields]; try apply R_refl.
  destruct (Py.get "description_embedding" fields) as [emb|]; [|apply R_refl].
  destruct emb; try apply R_refl;
    (destruct (Py.get "id" fields) as [[| | |id| |]|]; try apply R_refl;
     unfold bind, get, modify, ret; simpl; apply R_step).
Qed.

Lemma load_items_keeps items count g :
  R g (Embedding.load_items items count g).1.
Proof.
  revert count g. induction items as [|item items IH]; intros count g; simpl.
  - apply R_refl.
  - unfold bind. pose proof (load_item_keeps item g) as H.
    destruct (Embedding.load_item item g) as [g1 [e|found]]; [done|].
    eapply R_trans; [done|apply IH].
Qed.

Lemma load_embeddings_keeps em file g :
  R g (Embedding.load_embeddings_from_file em file g).1.
Proof.
  unfold Embedding.load_embeddings_from_file.
  destruct file as [data|]; [|apply R_refl].
  match goal with
  | |- context [match ?x with inl _ => _ | inr _ => _ end] => destruct x as [e|l]
  end; [apply R_refl|].
  destruct (Embedding.iterate l); [apply R_refl|apply load_items_keeps].
Qed.

Lemma embed_individual_keeps em r i g : R g (embed_individual em r i g).1.
Proof.
  unfold embed_individual. case_bool_decide; [|apply R_refl].
  match goal with
  | |- context [match ?x with Some _ => _ | None => _ end] => destruct x as [v|]
  end; [|apply R_refl].
  destruct v; try apply R_refl.
  destruct (String.eqb _ _); [apply R_refl|].
  destruct (Embedding.generate_description_embedding em s); [|apply R_refl].
  unfold bind, get, modify, ret. simpl. apply R_step.
Qed.

Lemma embed_all_keeps em r l failed g : R g (embed_all em r l failed g).1.
Proof.
  revert failed g. induction l as [|i l IH]; intros failed g; simpl.
  - apply R_refl.
  - pose proof (embed_individual_keeps em r i g) as H.
    destruct (embed_individual em r i g) as [g1 [e|b]]; simpl in H.
    + match goal with
      | |- context [if ?c then _ else _] => destruct c
      end; [done|].
      eapply R_trans; [done|apply IH].
    + eapply R_trans; [done|apply IH].
Qed.

Lemma handle_embeddings_keeps E st g : R g (handle_embeddings E st g).1.
Proof.
  unfold handle_embeddings.
  destruct (openai_api_key E); [|apply R_refl].
  destruct (generate_embeddings E); [apply embed_all_keeps|].
  unfold bind.
  pose proof (load_embeddings_keeps (embedding_manager E)
                (cache_file E (cache_path E (current_data_type st))) g) as H.
  by destruct (Embedding.load_embeddings_from_file _ _ g) as [g1 [e|n]].
Qed.

End embedding_steps.

Lemma handle_embeddings_frame E st g : frame g (handle_embeddings E st g).1.
Proof.
  apply handle_embeddings_keeps;
    [apply frame_refl|apply frame_trans|intros; apply set_prop_matched_frame].
Qed.

(** ** What the schema initialisation creates *)

Definition all_labels (Q : list string → Prop) (g : graph) : Prop :=
  ∀ k n, nodes g !! k = Some n → Q (labels n).

Lemma set_prop_labels Q name v keys g :
  all_labels Q g → all_labels Q (set_prop name v keys g).
Proof.
  unfold set_prop. destruct g as [ns es]. simpl.
  revert ns. induction keys as [|k keys IH]; intros ns H; simpl; [done|].
  apply IH. intros k' n. simpl. destruct (decide (k = k')) as [<-|Hne].
  - rewrite lookup_alter_eq. destruct (ns !! k) as [n0|] eqn:E; [|done].
    simpl. intros [= <-]. by apply (H k n0).
  - rewrite lookup_alter_ne by done. apply H.
Qed.

Lemma set_props_labels Q kvs keys g :
  all_labels Q g → all_labels Q (set_props kvs keys g).
Proof.
  unfold set_props. revert g. induction kvs as [|kv kvs IH]; intros g H; simpl; [done|].
  by apply IH, set_prop_labels.
Qed.

Lemma merge_node_labels Q ls id kvs g :
  Q ls → all_labels Q g → all_labels Q (merge_node ls id kvs g).
Proof.
  intros Hls H. unfold merge_node.
  destruct (match_nodes ls id g); [|by apply set_props_labels].
  apply set_props_labels. intros k n. simpl.
  destruct (decide (fresh (dom (nodes g)) = k)) as [<-|Hne].
  - rewrite lookup_insert_eq. by intros [= <-].
  - rewrite lookup_insert_ne by done. apply H.
Qed.

Lemma merge_edges_nodes la ida t lb idb g :
  nodes (merge_edges la ida t lb idb g) = nodes g.
Proof.
  unfold merge_edges. generalize (match_nodes [la] ida g). intros srcs.
  assert (Hinner : ∀ dsts g0 a,
            nodes (foldl (λ g b, merge_edge t a b g) g0 dsts) = nodes g0).
  { induction dsts as [|b dsts IH]; intros g0 a; simpl; [done|].
    by rewrite IH, merge_edge_nodes. }
  assert (Houter : ∀ (dsts : graph → list nat) g0,
            nodes (foldl (λ g a, foldl (λ g b, merge_edge t a b g) g (dsts g))
                         g0 srcs) = nodes g0).
  { induction srcs as [|a srcs IH]; intros dsts g0; simpl; [done|].
    by rewrite IH, Hinner. }
  apply (Houter (λ g, match_nodes [lb] idb g)).
Qed.

Lemma merge_edges_labels Q la ida t lb idb g :
  all_labels Q g → all_labels Q (merge_edges la ida t lb idb g).
Proof. intros H k n. rewrite merge_edges_nodes. apply H. Qed.

Lemma foldl_preserves {A} (I : graph → Prop) (f : graph → A → graph)
    (l : list A) (g : graph) :
  (∀ g x, I g → I (f g x)) → I g → I (foldl f g l).
Proof.
  intros Hf. revert g. induction l as [|x l IH]; intros g Hg; simpl; [done|].
  by apply IH, Hf.
Qed.

Definition schema_labels (ls : list string) : Prop :=
  ls = ["Class"] ∨ ls = ["Property"].

Definition schema_edge_types : list string :=
  ["SUBCLASS_OF"; "SUBPROPERTY_OF"; "HAS_DOMAIN"; "HAS_RANGE"].

(** Every edge has one of the schema's types and joins two nodes of
    the graph. *)
Definition schema_edges (g : graph) : Prop :=
  ∀ a t b, (a, t, b) ∈ edges g →
    t ∈ schema_edge_types ∧ is_Some (nodes g !! a) ∧ is_Some (nodes g !! b).

Lemma set_prop_dom name v keys g k :
  is_Some (nodes g !! k) → is_Some (nodes (set_prop name v keys g) !! k).
Proof.
  unfold set_prop. destruct g as [ns es]. simpl.
  revert ns. induction keys as [|k0 keys IH]; intros ns H; simpl; [done|].
  apply IH. destruct (decide (k0 = k)) as [<-|Hne].
  - rewrite lookup_alter_eq. destruct H as [n ->]. simpl. eauto.
  - by rewrite lookup_alter_ne.
Qed.

Lemma set_props_dom kvs keys g k :
  is_Some (nodes g !! k) → is_Some (nodes (set_props kvs keys g) !! k).
Proof.
  unfold set_props. revert g. induction kvs as [|kv kvs IH]; intros g H; simpl; [done|].
  by apply IH, set_prop_dom.
Qed.

Lemma set_props_edges kvs keys g : edges (set_props kvs keys g) = edges g.
Proof.
  unfold set_props. revert g. induction kvs as [|kv kvs IH]; intros g; simpl; [done|].
  by rewrite IH.
Qed.

Lemma merge_node_schema_edges ls id kvs g :
  schema_edges g → schema_edges (merge_node ls id kvs g).
Proof.
  intros H a t b. unfold merge_node.
  destruct (match_nodes ls id g).
  - rewrite set_props_edges. simpl. intros He.
    destruct (H a t b He) as (Ht & Ha & Hb).
    split; [done|]. split; apply set_props_dom; simpl.
    + destruct (decide (fresh (dom (nodes g)) = a)) as [<-|Hne];
        [rewrite lookup_insert_eq; eauto|by rewrite lookup_insert_ne].
    + destruct (decide (fresh (dom (nodes g)) = b)) as [<-|Hne];
        [rewrite lookup_insert_eq; eauto|by rewrite lookup_insert_ne].
  - rewrite set_props_edges. intros He.
    destruct (H a t b He) as (Ht & Ha & Hb).
    split; [done|]. split; by apply set_props_dom.
Qed.

Lemma merge_edges_schema_edges la ida t lb idb g :
  t ∈ schema_edge_types → schema_edges g →
  schema_edges (merge_edges la ida t lb idb g).
Proof.
  intros Ht H. unfold merge_edges.
  assert (Hsrc : ∀ a, a ∈ match_nodes [la] ida g → is_Some (nodes g !! a)).
  { intros a Ha. apply match_nodes_spec in Ha as (n & -> & _). eauto. }
  assert (Hinner : ∀ dsts g0 a,
            is_Some (nodes g0 !! a) →
            (∀ b, b ∈ dsts → is_Some (nodes g0 !! b)) →
            schema_edges g0 →
            schema_edges (foldl (λ g b, merge_edge t a b g) g0 dsts)).
  { induction dsts as [|b dsts IH]; intros g0 a Ha Hd H0; simpl; [done|].
    apply IH.
    - by rewrite merge_edge_nodes.
    - intros b' Hb'. rewrite merge_edge_nodes. apply Hd. by right.
    - intros a' t' b'. unfold merge_edge. case_decide; [apply H0|]. simpl.
      rewrite elem_of_app, list_elem_of_singleton.
      intros [He|[= -> -> ->]]; [by apply H0|].
      split; [done|]. split; [done|]. apply Hd. by left. }
  assert (Hnodes : ∀ dsts g0 a,
            nodes (foldl (λ g b, merge_edge t a b g) g0 dsts) = nodes g0).
  { induction dsts as [|b dsts IH]; intros g0 a; simpl; [done|].
    by rewrite IH, merge_edge_nodes. }
  assert (Hmatch : ∀ ls id g0 k,
            k ∈ match_nodes ls id g0 → is_Some (nodes g0 !! k)).
  { intros ls id g0 k Hk. apply match_nodes_spec in Hk as (n & -> & _). eauto. }
  assert (Houter : ∀ sources g0,
            (∀ a, a ∈ sources → is_Some (nodes g0 !! a)) → schema_edges g0 →
            schema_edges
              (foldl (λ g a, foldl (λ g b, merge_edge t a b g) g
                                   (match_nodes [lb] idb g)) g0 sources)).
  { intros sources. induction sources as [|a sources IH]; intros g0 Hs H0; simpl; [done|].
    apply IH.
    - intros a' Ha'. rewrite Hnodes. apply Hs. by right.
    - apply Hinner; [apply Hs; by left| |done].
      intros b Hb. by eapply Hmatch. }
  apply Houter; [|done]. apply Hsrc.
Qed.

Lemma initialize_schema_only s g0 :
  let g := initialize_neo4j_schema s g0 in
  all_labels schema_labels g ∧ schema_edges g.
Proof.
  set (I := λ g, all_labels schema_labels g ∧ schema_edges g).
  assert (Hnode : ∀ ls id kvs g, schema_labels ls → I g → I (merge_node ls id kvs g)).
  { intros ls id kvs g Hls [H1 H2]. split;
      [by apply merge_node_labels|by apply merge_node_schema_edges]. }
  assert (Hedge : ∀ la ida t lb idb g,
            t ∈ schema_edge_types → I g → I (merge_edges la ida t lb idb g)).
  { intros la ida t lb idb g Ht [H1 H2]. split;
      [by apply merge_edges_labels|by apply merge_edges_schema_edges]. }
  assert (Hclass : schema_labels ["Class"]) by (by left).
  assert (Hprop : schema_labels ["Property"]) by (by right).
  assert (Hty : ∀ t, t ∈ schema_edge_types ↔
            t = "SUBCLASS_OF" ∨ t = "SUBPROPERTY_OF" ∨ t = "HAS_DOMAIN" ∨ t = "HAS_RANGE").
  { intros t. unfold schema_edge_types.
    rewrite !elem_of_cons, elem_of_nil. tauto. }
  simpl. fold (I (initialize_neo4j_schema s g0)).
  unfold initialize_neo4j_schema. cbv zeta.
  apply foldl_preserves.
  { intros g p Hg. apply foldl_preserves; [|done]. intros g' parent Hg'.
    case_bool_decide; [done|]. apply Hedge; [|done]. apply Hty. tauto. }
  apply foldl_preserves.
  { intros g p Hg. apply foldl_preserves.
    - intros g' c Hg'. apply Hedge; [|done]. apply Hty. tauto.
    - apply foldl_preserves; [|done].
      intros g' c Hg'. apply Hedge; [|done]. apply Hty. tauto. }
  apply foldl_preserves; [intros g p Hg; by apply Hnode|].
  apply foldl_preserves; [intros g p Hg; by apply Hnode|].
  apply foldl_preserves.
  { intros g c Hg. apply foldl_preserves; [|done]. intros g' parent Hg'.
    apply Hedge; [|done]. apply Hty. tauto. }
  apply foldl_preserves; [intros g c Hg; by apply Hnode|].
  split.
  - intros k n H. simpl in H. by rewrite lookup_empty in H.
  - intros a t b H. simpl in H. by apply elem_of_nil in H.
Qed.

(** C9.  A sync leaves every node that is not labelled [Individual],
    and every edge between two such nodes, as it was: what it deletes,
    creates or updates is [Individual] nodes and edges that touch one.
    The schema projection is out of its reach: the initialisation
    creates only nodes labelled [Class] or [Property], and only
    [SUBCLASS_OF], [SUBPROPERTY_OF], [HAS_DOMAIN] and [HAS_RANGE] edges
    between them. *)
Theorem sync_keeps_schema_projection (E : environment) (skip_reasoning : bool)
    (st : manager) :
  frame (projection st) (projection (sync_to_neo4j E skip_reasoning st).1) ∧
  ∀ s g0,
    all_labels schema_labels (initialize_neo4j_schema s g0) ∧
    schema_edges (initialize_neo4j_schema s g0).
Proof.
  split; [|intros s g0; apply initialize_schema_only].
  unfold sync_to_neo4j.
  destruct (if skip_reasoning then Some (inferred st) else reason E (world st))
    as [r|]; [|apply frame_refl].
  cbv [fst with_projection projection with_inferred world].
  set (g1 := detach_delete "Individual" _).
  set (g2 := foldl (sync_node _ r) g1 _).
  set (g3 := foldl (sync_edges _ r) g2 _).
  apply (frame_trans _ g1); [apply detach_delete_frame|].
  apply (frame_trans _ g2); [apply foldl_frame; intros; apply sync_node_frame|].
  apply (frame_trans _ g3); [apply foldl_frame; intros; apply sync_edges_frame|].
  apply handle_embeddings_frame.
Qed.

End SyncFacts.

(* ===================================================================== *)
(** * Properties of the store operations *)
(* ===================================================================== *)

Module StoreFacts.
Import PyStr Owl Exc Exc.Notations Store StringFacts.

(** A small schema: robots and spaces, a list-valued [robotIsInSpace]
    and [category], a functional [description]. *)
Definition house_schema : schema :=
  Schema "http://ex.org/o#"
    [OwlClass "Robot" []; OwlClass "Space" []]
    [OwlProperty "robotIsInSpace" false [] [] []]
    [OwlProperty "category" false [] [] [];
     OwlProperty "description" true [] [] []].

Definition no_embeddings : Embedding.embedding_manager :=
  Embedding.EmbeddingManager "text-embedding-3-small" 512 (λ _, None).

(** owlready2 around that schema: the ontology itself is a resource of
    the world, the ontology object has its Python attributes, an
    individual keeps its annotations and its methods for itself, and
    a call that leaves the model raises. *)
Definition plain_library : library :=
  Library [("http://ex.org/o", true)]
          (λ a, if bool_decide (a ∈ ["name"; "base_iri"; "world"])
                then Some true else None)
          true
          (λ a, bool_decide (a ∈ ["label"; "comment"; "get_properties"]))
          (λ _ w, (w, inl TypeError)).

(** Sets iterated in the order of insertion, no inference, no OpenAI
    key. *)
Definition plain_environment : environment :=
  Environment plain_library (λ l, l) no_inference false false no_embeddings
              None (λ _, None).

Definition no_properties : properties := Properties None None.

(** A server that has just loaded a kitchen and a hall. *)
Definition house : manager :=
  (add_individuals_batch plain_environment
     [IndividualData "kitchen" "Space" no_properties;
      IndividualData "hall" "Space" no_properties]
     (Manager (World house_schema [])
              (initialize_neo4j_schema house_schema Neo4j.empty)
              (asserted_view (World house_schema [])) None)).1.

(** The individuals of a model by name and asserted classes. *)
Definition kinds (w : Owl.world) : list (string * list string) :=
  map (λ i, (i_name i, i_is_a i)) (individuals w).

Definition names (w : Owl.world) : list string := map i_name (individuals w).

Lemma names_kinds w : names w = (kinds w).*1.
Proof. unfold names, kinds. rewrite <- list_fmap_compose. done. Qed.

Lemma sync_world E skip st : world (sync_to_neo4j E skip st).1 = world st.
Proof.
  unfold sync_to_neo4j.
  by destruct (if skip then Some (inferred st) else reason E (world st)).
Qed.

(** ** What the assignments leave alone *)

(** Two states of the manager that differ in the asserted model at
    most. *)
Definition same_but_world (st st' : manager) : Prop :=
  projection st' = projection st ∧ inferred st' = inferred st ∧
  current_data_type st' = current_data_type st.

Lemma same_but_world_refl st : same_but_world st st.
Proof. done. Qed.

Lemma same_but_world_trans st1 st2 st3 :
  same_but_world st1 st2 → same_but_world st2 st3 → same_but_world st1 st3.
Proof. intros (H1 & H2 & H3) (H4 & H5 & H6). repeat split; congruence. Qed.

Lemma for_each_preserves {S A} (R : S → S → Prop) (l : list A)
    (body : A → M S unit) :
  (∀ s, R s s) → (∀ s1 s2 s3, R s1 s2 → R s2 s3 → R s1 s3) →
  (∀ a s s' y, body a s = (s', y) → R s s') →
  ∀ st st' x, for_each l body st = (st', x) → R st st'.
Proof.
  intros Hrefl Htrans Hbody. induction l as [|a l IH]; intros st st' x; simpl.
  - intros [= <- <-]. apply Hrefl.
  - unfold bind. destruct (body a st) as [s1 [e|[]]] eqn:E.
    + intros [= <- <-]. by eapply Hbody.
    + intros H. eapply Htrans; [by eapply Hbody|by eapply IH].
Qed.

(** A loop that raises has run its body on the items before the one
    that raised. *)
Lemma for_each_raises {S A} (l : list A) (body : A → M S unit) st st' ex :
  for_each l body st = (st', inl ex) →
  ∃ done a rest st_mid,
    l = done ++ a :: rest ∧
    for_each done body st = (st_mid, inr ()) ∧
    body a st_mid = (st', inl ex).
Proof.
  revert st. induction l as [|a l IH]; intros st; simpl; [done|].
  unfold bind. destruct (body a st) as [s1 [e|[]]] eqn:E.
  - intros [= <- <-]. by exists [], a, l, st.
  - intros H. destruct (IH _ H) as (done & b & rest & st_mid & -> & Hd & Hb).
    exists (a :: done), b, rest, st_mid. split; [done|]. split; [|done].
    simpl. unfold bind. by rewrite E.
Qed.

Lemma set_attribute_same E individual prop_name v st st' x :
  set_attribute E individual prop_name v st = (st', x) → same_but_world st st'.
Proof.
  unfold set_attribute.
  destruct (setattr (owlready2 E) (world st) individual prop_name v) as [w r].
  by intros [= <- <-].
Qed.

Lemma call_outside_same E c st st' x :
  call_outside E c st = (st', x) → same_but_world st st'.
Proof.
  unfold call_outside. destruct (outside (owlready2 E) c (world st)) as [w r].
  by intros [= <- <-].
Qed.

Lemma set_data_properties_same E individual data st st' x :
  set_data_properties E individual data st = (st', x) → same_but_world st st'.
Proof.
  unfold set_data_properties.
  destruct (r_data_properties data) as [items|]; [|by intros [= <- <-]].
  apply for_each_preserves;
    [apply same_but_world_refl|apply same_but_world_trans|].
  intros kv s s' y. apply set_attribute_same.
Qed.

Lemma set_object_properties_same E individual data st st' x :
  set_object_properties E individual data st = (st', x) → same_but_world st st'.
Proof.
  unfold set_object_properties.
  destruct (r_object_properties data) as [items|]; [|by intros [= <- <-]].
  apply for_each_preserves;
    [apply same_but_world_refl|apply same_but_world_trans|].
  intros kv s s' y. unfold bind, get.
  destruct (resolve_targets (owlready2 E) (world s) kv.2);
    [by intros [= <- <-]|].
  apply set_attribute_same.
Qed.

Lemma set_properties_same E individual data st st' x :
  (_ <- set_data_properties E individual data ;
   set_object_properties E individual data) st = (st', x) →
  same_but_world st st'.
Proof.
  unfold bind.
  destruct (set_data_properties E individual data st) as [s1 [e|[]]] eqn:Ed.
  - intros [= <- <-]. by eapply set_data_properties_same.
  - intros H. eapply same_but_world_trans;
      [by eapply set_data_properties_same|by eapply set_object_properties_same].
Qed.

(** An assignment to [name] is owlready2's own business (it renames
    the entity): it is not followed by the model. *)
Example name_leaves_the_model (L : library) (w : Owl.world) (e : entity)
    (v : attr_value) :
  setattr L w e "name" v = outside L (SetAttr e "name" v) w.
Proof. by destruct e. Qed.

(** ** Errors *)

(** The assignments of a request, started in [st0], were ended in
    [st'] by the exception [ex]: some item of ["data_properties"] or
    of ["object_properties"] raised it, after the items before it had
    been assigned. *)
Definition stopped (E : environment) (individual : entity) (data : properties)
    (st0 st' : manager) (ex : exn) : Prop :=
  (∃ done kv rest st_mid,
     r_data_properties data = Some (done ++ kv :: rest) ∧
     set_data_properties E individual (Properties (Some done) None) st0
       = (st_mid, inr ()) ∧
     set_attribute E individual kv.1 (AValue kv.2) st_mid = (st', inl ex))
  ∨
  (∃ st1 done kv rest st_mid,
     set_data_properties E individual data st0 = (st1, inr ()) ∧
     r_object_properties data = Some (done ++ kv :: rest) ∧
     set_object_properties E individual (Properties None (Some done)) st1
       = (st_mid, inr ()) ∧
     resolve_targets (owlready2 E) (world st_mid) kv.2 ≠ [] ∧
     set_attribute E individual kv.1
       (AEntities (resolve_targets (owlready2 E) (world st_mid) kv.2)) st_mid
       = (st', inl ex)).

Lemma set_properties_stopped E individual data st0 st' ex :
  (_ <- set_data_properties E individual data ;
   set_object_properties E individual data) st0 = (st', inl ex) →
  stopped E individual data st0 st' ex.
Proof.
  unfold bind.
  destruct (set_data_properties E individual data st0) as [s1 [e|[]]] eqn:Ed.
  - intros [= <- <-]. left. unfold set_data_properties in Ed.
    destruct (r_data_properties data) as [items|]; [|done].
    apply for_each_raises in Ed as (done & kv & rest & st_mid & -> & Hd & Hb).
    by exists done, kv, rest, st_mid.
  - intros Ho. right. unfold set_object_properties in Ho.
    destruct (r_object_properties data) as [items|]; [|done].
    apply for_each_raises in Ho as (done & kv & rest & st_mid & -> & Hd & Hb).
    exists s1, done, kv, rest, st_mid. split; [done|]. split; [done|].
    split; [done|]. unfold bind, get in Hb.
    destruct (resolve_targets (owlready2 E) (world st_mid) kv.2) as [|t ts];
      [done|].
    split; [done|]. exact Hb.
Qed.

(** C7, amended.  An error that [add_individual] returns because the
    class is unknown or the id is taken, and an error that
    [update_individual] returns because the individual is not found,
    leave the store exactly as it was.  An error raised later leaves
    the projection, the reasoned model and the data type as they were,
    and nothing of the asserted model is rolled back: the model is the
    one in which the individual was created (for [add_individual]) and
    the properties before the one that raised were assigned, with what
    the raising assignment itself did to it; an assignment the model
    follows changes nothing when it raises. *)
Theorem errors_keep_what_was_assigned (E : environment) (st st' : manager) :
  (∀ data auto_sync e,
     add_individual E data auto_sync st = (st', Error e) →
     match e with
     | Raised ex =>
         same_but_world st st' ∧
         match get_class (owlready2 E) (world st) (d_class data) with
         | Some (AClass c) =>
             stopped E (EIndividual (d_id data)) (d_properties data)
               (with_world st (create (world st) c (d_id data))) st' ex
         | _ =>
             call_outside E
               (Instantiate (d_class data) (d_id data)
                  (r_data_properties (d_properties data))
                  (r_object_properties (d_properties data))) st
             = (st', inl ex)
         end
     | _ => st' = st
     end) ∧
  (∀ individual_id data e,
     update_individual E individual_id data st = (st', Error e) →
     match e with
     | Raised ex =>
         same_but_world st st' ∧
         ∃ individual,
           search_one (owlready2 E) (world st) individual_id = Some individual ∧
           stopped E individual data st st' ex
     | _ => st' = st
     end) ∧
  (∀ name attr v ex,
     is_reserved (owlready2 E) attr = false →
     assign (world st) name attr v = Raises ex →
     set_attribute E (EIndividual name) attr v st = (st, inl ex)).
Proof.
  split; [|split].
  - intros data auto_sync e. unfold add_individual. cbv zeta.
    destruct (get_class (owlready2 E) (world st) (d_class data)) as [[c|]|];
      [| |by intros [= <- <-]];
      (destruct (search_one (owlready2 E) (world st) (d_id data));
         [by intros [= <- <-]|]).
    + unfold bind at 1, modify.
      match goal with
      | |- context [match ?c ?s with _ => _ end] =>
          destruct (c s) as [s2 [x|[]]] eqn:Eset
      end; [|by destruct auto_sync].
      intros [= <- <-]. split.
      * by apply set_properties_same in Eset.
      * by apply set_properties_stopped.
    + match goal with
      | |- context [match ?c ?s with _ => _ end] =>
          destruct (c s) as [s2 [x|[]]] eqn:Eset
      end; [|by destruct auto_sync].
      intros [= <- <-]. split; [by eapply call_outside_same|done].
  - intros individual_id data e. unfold update_individual.
    destruct (search_one (owlready2 E) (world st) individual_id)
      as [individual|]; [|by intros [= <- <-]].
    match goal with
    | |- context [match ?c ?s with _ => _ end] =>
        destruct (c s) as [s2 [x|[]]] eqn:Eset
    end; [|done].
    intros [= <- <-]. split; [by eapply set_properties_same|].
    exists individual. split; [done|]. by apply set_properties_stopped.
  - intros name attr v ex Hr Ha. unfold set_attribute, setattr.
    rewrite Hr, Ha. by destruct st.
Qed.

(** A request whose second data property is list-valued in the schema
    and comes with a single value. *)
Definition cup_request : individual_data :=
  IndividualData "cup_1" "Space"
    (Properties (Some [("description", Py.Str "a red cup");
                       ("category", Py.Str "cup")])
                None).

(** The amended claim at three rejected requests: a class the schema
    does not have, an update of an individual that is not there, and
    the request for [cup_1], ended by the assignment of [category]
    after the creation of the individual and the assignment of
    [description]. *)
Lemma errors_keep_what_was_assigned_witness :
  (add_individual plain_environment
     (IndividualData "cup_1" "Artifact" no_properties) true house).1 = house ∧
  (update_individual plain_environment "cup_1" no_properties house).1 = house ∧
  same_but_world house (add_individual plain_environment cup_request true house).1 ∧
  stopped plain_environment (EIndividual "cup_1") (d_properties cup_request)
    (with_world house (create (world house) (OwlClass "Space" []) "cup_1"))
    (add_individual plain_environment cup_request true house).1 ValueError.
Proof.
  set (r1 := add_individual plain_environment
               (IndividualData "cup_1" "Artifact" no_properties) true house).
  set (r2 := update_individual plain_environment "cup_1" no_properties house).
  set (r3 := add_individual plain_environment cup_request true house).
  destruct (errors_keep_what_was_assigned plain_environment house r1.1)
    as (H1 & _ & _).
  destruct (errors_keep_what_was_assigned plain_environment house r2.1)
    as (_ & H2 & _).
  destruct (errors_keep_what_was_assigned plain_environment house r3.1)
    as (H3 & _ & _).
  split; [|split].
  - apply (H1 (IndividualData "cup_1" "Artifact" no_properties) true
              (ClassNotFound "Artifact")).
    vm_compute. reflexivity.
  - apply (H2 "cup_1" no_properties (NotFound "cup_1")).
    vm_compute. reflexivity.
  - apply (H3 cup_request true (Raised ValueError)).
    vm_compute. reflexivity.
Defined.

(** C7 as stated fails: the assignment of [category] raises
    [ValueError] after the individual was created and its
    [description] set; the call returns an error and the asserted
    model has the new individual. *)
Lemma add_individual_error_keeps_individual :
  ∃ st',
    add_individual plain_environment cup_request true house
      = (st', Error (Raised ValueError)) ∧
    get_individual (world st') "cup_1"
      = Some (Individual "cup_1" ["Space"]
                [("description", [Py.Str "a red cup"])] []) ∧
    get_individual (world house) "cup_1" = None ∧
    world st' ≠ world house.
Proof.
  eexists. split; [vm_compute; reflexivity|].
  split; [vm_compute; reflexivity|].
  split; [vm_compute; reflexivity|].
  vm_compute. discriminate.
Qed.

(** ** Searching by suffix *)

Lemma find_over_app {A} (f : A → bool) (l1 l2 : list A) :
  List.find f (l1 ++ l2)
  = match List.find f l1 with Some x => Some x | None => List.find f l2 end.
Proof. induction l1 as [|x l1 IH]; simpl; [done|]. by destruct (f x). Qed.

Lemma find_over_map {A B} (f : B → bool) (g : A → B) (l : list A) :
  List.find f (map g l) = g <$> List.find (λ x, f (g x)) l.
Proof. induction l as [|x l IH]; simpl; [done|]. by destruct (f (g x)). Qed.

Lemma find_all_false {A} (f : A → bool) (l : list A) :
  forallb (λ x, negb (f x)) l = true → List.find f l = None.
Proof.
  induction l as [|x l IH]; simpl; [done|].
  intros H. apply andb_true_iff in H as [H1 H2].
  apply negb_true_iff in H1. rewrite H1. by apply IH.
Qed.

Lemma forallb_over_map {A B} (f : B → bool) (g : A → B) (l : list A) :
  forallb f (map g l) = forallb (λ x, f (g x)) l.
Proof. induction l as [|x l IH]; simpl; [done|]. by rewrite IH. Qed.

Lemma find_one_true {A} (f : A → bool) (l : list A) (x : A) :
  x ∈ l → f x = true → ∃ y, List.find f l = Some y ∧ y ∈ l ∧ f y = true.
Proof.
  induction l as [|z l IH]; intros Hx Hf; [by apply elem_of_nil in Hx|].
  simpl. destruct (f z) eqn:E.
  - exists z. split; [done|]. split; [by left|done].
  - apply elem_of_cons in Hx as [->|Hx]; [congruence|].
    destruct (IH Hx Hf) as (y & H1 & H2 & H3). exists y.
    split; [done|]. split; [by right|done].
Qed.

(** No resource outside the ontology has an IRI that ends with [id]. *)
Definition apart_from_others (L : library) (id : string) : bool :=
  forallb (λ r, negb (endswith id r.1)) (other_resources L).

(** The names of the classes and the properties. *)
Definition schema_names (s : schema) : list string :=
  map c_name (classes s) ++ map p_name (object_properties s)
  ++ map p_name (data_properties s).

(** No class and no property has an IRI that ends with [id]. *)
Definition apart_from_schema (s : schema) (id : string) : bool :=
  forallb (λ n, negb (endswith id (base_iri s +:+ n))) (schema_names s).

(** An entity of the ontology. *)
Definition named (e : entity) : bool :=
  match e with EOther _ => false | _ => true end.

Lemma entities_named w e : e ∈ entities w → named e = true.
Proof.
  unfold entities. rewrite !elem_of_app.
  intros [H|[H|[H|H]]]; apply list_elem_of_fmap in H as (x & -> & _); done.
Qed.

Lemma search_one_others L w id :
  apart_from_others L id = true →
  search_one L w id
  = List.find (λ e, endswith id (entity_iri w e)) (entities w).
Proof.
  intros Ho. unfold search_one, resources.
  rewrite find_over_app, !find_over_map. simpl.
  rewrite (find_all_false _ _ Ho). simpl.
  by destruct (List.find _ (entities w)).
Qed.

(** A search that no other resource and no entity of the schema
    answers goes through the individuals, by name. *)
Lemma search_one_individuals L w id :
  apart_from_others L id = true →
  apart_from_schema (w_schema w) id = true →
  search_one L w id
  = EIndividual <$> List.find (λ n, endswith id (iri w n)) (names w).
Proof.
  intros Ho Hs. rewrite search_one_others by done.
  unfold apart_from_schema, schema_names in Hs.
  rewrite !forallb_app in Hs.
  apply andb_true_iff in Hs as [H1 Hs]. apply andb_true_iff in Hs as [H2 H3].
  unfold entities, names.
  rewrite !find_over_app, !find_over_map. simpl. unfold iri.
  rewrite forallb_over_map in H1. rewrite forallb_over_map in H2. rewrite forallb_over_map in H3.
  rewrite (find_all_false _ _ H1), (find_all_false _ _ H2),
    (find_all_false _ _ H3). simpl.
  by destruct (List.find _ (individuals w)).
Qed.

Lemma search_one_named L w id e :
  apart_from_others L id = true → search_one L w id = Some e → named e = true.
Proof.
  intros Ho. rewrite search_one_others by done. intros H.
  apply List.find_some in H as [H _]. apply list_elem_of_In in H.
  by eapply entities_named.
Qed.

(** ** Assignments the model follows *)

Lemma update_record_kinds w name f :
  (∀ i, i_name (f i) = i_name i ∧ i_is_a (f i) = i_is_a i) →
  kinds (update_individual_record w name f) = kinds w.
Proof.
  intros Hf. unfold kinds, update_individual_record. simpl.
  rewrite map_map. apply map_ext. intros i.
  destruct (String.eqb (i_name i) name); [|done].
  destruct (Hf i) as [-> ->]. done.
Qed.

(** What an assignment that stays in the model keeps: the schema and
    the individuals with their classes. *)
Definition same_kinds_and_schema (w w' : Owl.world) : Prop :=
  w_schema w' = w_schema w ∧ kinds w' = kinds w.

Lemma set_data_keeps w name prop vs :
  same_kinds_and_schema w (set_data w name prop vs).
Proof. split; [done|]. by apply update_record_kinds. Qed.

Lemma set_objects_keeps w name prop targets :
  same_kinds_and_schema w (set_objects w name prop targets).
Proof. split; [done|]. by apply update_record_kinds. Qed.

Lemma assign_done_keeps w name attr v w' :
  assign w name attr v = Done w' → same_kinds_and_schema w w'.
Proof.
  unfold assign. intros H.
  repeat match type of H with
  | context [match ?x with _ => _ end] => destruct x
  end; try discriminate; injection H as <-;
    first [apply set_data_keeps | apply set_objects_keeps | done].
Qed.

(** A key of ["data_properties"] with its value, as the model follows
    it: the key is not reserved, the value is a boolean, a number or a
    text, and the key names a functional data property or no property
    at all. *)
Definition data_key_fits (L : library) (w : Owl.world) (kv : string * Py.value)
  : bool :=
  negb (is_reserved L kv.1) && is_scalar kv.2
  && match get_object_property w kv.1, get_data_property w kv.1 with
     | None, Some p => p_functional p
     | None, None => true
     | Some _, _ => false
     end.

(** A key of ["object_properties"] with its targets: the key is not
    reserved, no target is looked up among the resources outside the
    ontology, and the key names an object property that is not
    functional or no property at all. *)
Definition object_key_fits (L : library) (w : Owl.world)
    (kv : string * list string) : bool :=
  negb (is_reserved L kv.1) && forallb (apart_from_others L) kv.2
  && match get_object_property w kv.1, get_data_property w kv.1 with
     | Some p, _ => negb (p_functional p)
     | None, None => true
     | None, Some _ => false
     end.

Definition properties_fit (L : library) (w : Owl.world) (data : properties)
  : bool :=
  forallb (data_key_fits L w) (default [] (r_data_properties data))
  && forallb (object_key_fits L w) (default [] (r_object_properties data)).

Lemma get_object_property_schema w w' name :
  w_schema w' = w_schema w → get_object_property w' name = get_object_property w name.
Proof. unfold get_object_property. by intros ->. Qed.

Lemma get_data_property_schema w w' name :
  w_schema w' = w_schema w → get_data_property w' name = get_data_property w name.
Proof. unfold get_data_property. by intros ->. Qed.

Lemma assign_data_done L w0 w name kv :
  w_schema w = w_schema w0 → data_key_fits L w0 kv = true →
  ∃ w', assign w name kv.1 (AValue kv.2) = Done w'.
Proof.
  intros Hs H. unfold data_key_fits in H.
  apply andb_true_iff in H as [H H3]. apply andb_true_iff in H as [_ H2].
  unfold assign.
  rewrite (get_object_property_schema w0 w), (get_data_property_schema w0 w)
    by done.
  destruct (get_object_property w0 kv.1); [done|].
  destruct (get_data_property w0 kv.1) as [p|]; [|by eexists].
  rewrite H3. destruct kv.2; try done; by eexists.
Qed.

Lemma names_of_named targets :
  forallb named targets = true → is_Some (names_of targets).
Proof.
  intros H. unfold names_of. apply mapM_is_Some.
  apply Forall_forall. intros e He.
  apply list_elem_of_In in He.
  pose proof (proj1 (forallb_forall _ _) H e He) as Hn.
  destruct e; simpl in *; try done; by eexists.
Qed.

Lemma assign_objects_done L w0 w name kv targets :
  w_schema w = w_schema w0 → object_key_fits L w0 kv = true →
  forallb named targets = true →
  ∃ w', assign w name kv.1 (AEntities targets) = Done w'.
Proof.
  intros Hs H Hn. unfold object_key_fits in H.
  apply andb_true_iff in H as [_ H3].
  unfold assign.
  rewrite (get_object_property_schema w0 w), (get_data_property_schema w0 w)
    by done.
  destruct (get_object_property w0 kv.1) as [p|].
  - apply negb_true_iff in H3. rewrite H3.
    destruct (names_of_named _ Hn) as [ns ->]. by eexists.
  - destruct (get_data_property w0 kv.1); [done|by eexists].
Qed.

Lemma resolve_targets_named L w ids :
  forallb (apart_from_others L) ids = true →
  forallb named (resolve_targets L w ids) = true.
Proof.
  unfold resolve_targets. induction ids as [|id ids IH]; [done|].
  simpl. intros H. apply andb_true_iff in H as [H1 H2]. csimpl.
  destruct (search_one L w id) as [e|] eqn:Es; [|by apply IH].
  simpl. rewrite (search_one_named _ _ _ _ H1 Es). by apply IH.
Qed.

(** What the loops of a request keep when every assignment stays in
    the model. *)
Definition kept (st st' : manager) : Prop :=
  same_kinds_and_schema (world st) (world st') ∧ same_but_world st st'.

Lemma kept_refl st : kept st st.
Proof. done. Qed.

Lemma kept_trans st1 st2 st3 : kept st1 st2 → kept st2 st3 → kept st1 st3.
Proof.
  intros [[H1 H2] H3] [[H4 H5] H6]. split; [split; congruence|].
  by eapply same_but_world_trans.
Qed.

Lemma set_attribute_done E name attr v st w' :
  is_reserved (owlready2 E) attr = false →
  assign (world st) name attr v = Done w' →
  set_attribute E (EIndividual name) attr v st = (with_world st w', inr ()) ∧
  kept st (with_world st w').
Proof.
  intros Hr Ha. unfold set_attribute, setattr. rewrite Hr, Ha.
  split; [done|]. split; [|done]. by eapply assign_done_keeps.
Qed.

(** A loop whose body succeeds on every item, from any state the loop
    can reach. *)
Lemma for_each_succeeds {S A} (R : S → S → Prop) (l : list A)
    (body : A → M S unit) (st : S) :
  (∀ s, R s s) → (∀ s1 s2 s3, R s1 s2 → R s2 s3 → R s1 s3) →
  (∀ a s, a ∈ l → R st s → ∃ s', body a s = (s', inr ()) ∧ R s s') →
  ∃ st', for_each l body st = (st', inr ()) ∧ R st st'.
Proof.
  intros Hrefl Htrans. revert st. induction l as [|a l IH]; intros st Hbody.
  - exists st. split; [done|apply Hrefl].
  - destruct (Hbody a st) as (s1 & H1 & HR1); [by left|apply Hrefl|].
    destruct (IH s1) as (s2 & H2 & HR2).
    { intros b s Hb HR. apply Hbody; [by right|]. by eapply Htrans. }
    exists s2. split; [|by eapply Htrans].
    simpl. unfold bind. by rewrite H1.
Qed.

Lemma set_data_properties_fits E w0 name data st :
  w_schema (world st) = w_schema w0 →
  forallb (data_key_fits (owlready2 E) w0) (default [] (r_data_properties data))
    = true →
  ∃ st', set_data_properties E (EIndividual name) data st = (st', inr ()) ∧
         kept st st'.
Proof.
  intros Hs Hfit. unfold set_data_properties.
  destruct (r_data_properties data) as [items|]; [|by exists st].
  simpl in Hfit. apply for_each_succeeds; [apply kept_refl|apply kept_trans|].
  intros kv s Hkv [[Hs' _] _].
  pose proof (proj1 (forallb_forall _ _) Hfit kv
                (proj1 (list_elem_of_In _ _) Hkv)) as Hk.
  destruct (assign_data_done (owlready2 E) w0 (world s) name kv) as [w' Hw'];
    [congruence|done|].
  exists (with_world s w'). apply set_attribute_done; [|done].
  unfold data_key_fits in Hk. apply andb_true_iff in Hk as [Hk _].
  apply andb_true_iff in Hk as [Hk _]. by apply negb_true_iff in Hk.
Qed.

Lemma set_object_properties_fits E w0 name data st :
  w_schema (world st) = w_schema w0 →
  forallb (object_key_fits (owlready2 E) w0)
    (default [] (r_object_properties data)) = true →
  ∃ st', set_object_properties E (EIndividual name) data st = (st', inr ()) ∧
         kept st st'.
Proof.
  intros Hs Hfit. unfold set_object_properties.
  destruct (r_object_properties data) as [items|]; [|by exists st].
  simpl in Hfit. apply for_each_succeeds; [apply kept_refl|apply kept_trans|].
  intros kv s Hkv [[Hs' _] _].
  pose proof (proj1 (forallb_forall _ _) Hfit kv
                (proj1 (list_elem_of_In _ _) Hkv)) as Hk.
  unfold bind, get.
  assert (Hn : forallb named (resolve_targets (owlready2 E) (world s) kv.2) = true).
  { apply resolve_targets_named. unfold object_key_fits in Hk.
    apply andb_true_iff in Hk as [Hk _]. by apply andb_true_iff in Hk as [_ Hk]. }
  destruct (resolve_targets (owlready2 E) (world s) kv.2) as [|t ts] eqn:Et;
    [by exists s|].
  destruct (assign_objects_done (owlready2 E) w0 (world s) name kv (t :: ts))
    as [w' Hw'];
    [congruence|done|done|].
  exists (with_world s w'). apply set_attribute_done; [|done].
  unfold object_key_fits in Hk. apply andb_true_iff in Hk as [Hk _].
  apply andb_true_iff in Hk as [Hk _]. by apply negb_true_iff in Hk.
Qed.

Lemma set_properties_fits E w0 name data st :
  w_schema (world st) = w_schema w0 →
  properties_fit (owlready2 E) w0 data = true →
  ∃ st', (_ <- set_data_properties E (EIndividual name) data ;
          set_object_properties E (EIndividual name) data) st = (st', inr ()) ∧
         kept st st'.
Proof.
  intros Hs Hfit. unfold properties_fit in Hfit.
  apply andb_true_iff in Hfit as [Hd Ho].
  destruct (set_data_properties_fits E w0 name data st Hs Hd) as (s1 & H1 & K1).
  destruct (set_object_properties_fits E w0 name data s1) as (s2 & H2 & K2);
    [destruct K1 as [[? _] _]; congruence|done|].
  exists s2. split; [|by eapply kept_trans].
  unfold bind. by rewrite H1.
Qed.

(** ** The two passes of a batch *)

(** An entry as the model follows its load: its class is a class of
    the ontology and not a Python attribute of the ontology object, no
    class, no property and no resource outside the ontology has an IRI
    that ends with its id, and its properties fit. *)
Definition entry_fits (L : library) (w : Owl.world) (d : individual_data) : bool :=
  bool_decide (ontology_attribute L (d_class d) = None)
  && existsb (λ c, String.eqb (c_name c) (d_class d)) (classes (w_schema w))
  && apart_from_others L (d_id d)
  && apart_from_schema (w_schema w) (d_id d)
  && properties_fit L w (d_properties d).

(** Ids that are new: no name taken so far has an IRI that ends with
    the next id. *)
Fixpoint fresh_ids (base : string) (taken ids : list string) : bool :=
  match ids with
  | [] => true
  | id :: rest =>
      forallb (λ n, negb (endswith id (base +:+ n))) taken
      && fresh_ids base (taken ++ [id]) rest
  end.

Definition loadable (L : library) (w : Owl.world) (entries : list individual_data)
  : bool :=
  forallb (entry_fits L w) entries
  && fresh_ids (base_iri (w_schema w)) (names w) (map d_id entries).

Lemma existsb_find {A} (f : A → bool) (l : list A) :
  existsb f l = true → ∃ x, List.find f l = Some x ∧ f x = true.
Proof.
  induction l as [|y l IH]; simpl; [done|].
  destruct (f y) eqn:E; [by exists y|]. simpl. apply IH.
Qed.

Lemma get_class_known L w0 w class_name :
  w_schema w = w_schema w0 →
  ontology_attribute L class_name = None →
  existsb (λ c, String.eqb (c_name c) class_name) (classes (w_schema w0)) = true →
  ∃ c, get_class L w class_name = Some (AClass c) ∧ c_name c = class_name.
Proof.
  intros Hs Ha He. unfold get_class. rewrite Ha, Hs.
  destruct (existsb_find _ _ He) as (c & -> & Hc).
  exists c. split; [done|]. by apply String.eqb_eq.
Qed.

Lemma entry_fits_parts L w d :
  entry_fits L w d = true →
  ontology_attribute L (d_class d) = None ∧
  existsb (λ c, String.eqb (c_name c) (d_class d)) (classes (w_schema w)) = true ∧
  apart_from_others L (d_id d) = true ∧
  apart_from_schema (w_schema w) (d_id d) = true ∧
  properties_fit L w (d_properties d) = true.
Proof.
  unfold entry_fits. rewrite !andb_true_iff, bool_decide_eq_true. tauto.
Qed.

Lemma create_kinds w c id : kinds (create w c id) = kinds w ++ [(id, [c_name c])].
Proof. unfold kinds, create. simpl. by rewrite map_app. Qed.

Lemma create_names w c id : names (create w c id) = names w ++ [id].
Proof. unfold names, create. simpl. by rewrite map_app. Qed.

(** Pass 1 on entries that fit, with new ids: every one is created. *)
Lemma pass1_creates L w0 entries :
  forallb (entry_fits L w0) entries = true →
  ∀ w added failed,
    w_schema w = w_schema w0 →
    fresh_ids (base_iri (w_schema w0)) (names w) (map d_id entries) = true →
    ∃ w1, foldl (create_one L) (w, (added, failed)) entries
          = (w1, (added + length entries, failed)) ∧
          w_schema w1 = w_schema w0 ∧
          kinds w1 = kinds w ++ map (λ d, (d_id d, [d_class d])) entries.
Proof.
  induction entries as [|d entries IH]; intros Hfit w added failed Hs Hfresh.
  - exists w. simpl. rewrite Nat.add_0_r, app_nil_r. done.
  - simpl in Hfit, Hfresh. apply andb_true_iff in Hfit as [Hd Hfit].
    apply andb_true_iff in Hfresh as [Hnew Hfresh].
    destruct (entry_fits_parts _ _ _ Hd) as (Ha & Hc & Ho & Hsch & _).
    assert (Hsearch : search_one L w (d_id d) = None).
    { rewrite search_one_individuals; [|done|by rewrite Hs].
      unfold iri. rewrite Hs. by rewrite (find_all_false _ _ Hnew). }
    destruct (get_class_known L w0 w (d_class d) Hs Ha Hc) as (c & Hcls & Hname).
    destruct (IH Hfit (create w c (d_id d)) (S added) failed) as (w1 & H1 & H2 & H3).
    { done. }
    { by rewrite create_names. }
    exists w1. split; [|split; [done|]].
    + simpl. rewrite Hsearch, Hcls, H1. do 2 f_equal. lia.
    + rewrite H3, create_kinds, Hname, <- (assoc_L (++)). done.
Qed.

(** Pass 2 for one entry that fits and whose id is the name of an
    individual. *)
Lemma attach_one_fits E w0 d st :
  w_schema (world st) = w_schema w0 →
  entry_fits (owlready2 E) w0 d = true →
  d_id d ∈ names (world st) →
  ∃ st', attach_one E d st = (st', inr ()) ∧ kept st st'.
Proof.
  intros Hs Hd Hin.
  destruct (entry_fits_parts _ _ _ Hd) as (_ & _ & Ho & Hsch & Hp).
  unfold attach_one, bind at 1, get.
  rewrite search_one_individuals; [|done|by rewrite Hs].
  destruct (find_one_true (λ n, endswith (d_id d) (iri (world st) n)) _ _ Hin)
    as (n & -> & _ & _).
  { unfold iri. apply endswith_app. }
  simpl. by apply (set_properties_fits E w0).
Qed.

Lemma kept_names st st' : kept st st' → names (world st') = names (world st).
Proof. intros [[_ H] _]. rewrite !names_kinds. by rewrite H. Qed.

(** A batch of entries that fit, with new ids: every one is added,
    none fails, and the model has them after the individuals it had,
    each in the class its entry names. *)
Lemma batch_loads E entries st :
  loadable (owlready2 E) (world st) entries = true →
  ∃ st', add_individuals_batch E entries st
           = (st', BatchSuccess (length entries) 0) ∧
         w_schema (world st') = w_schema (world st) ∧
         kinds (world st')
         = kinds (world st) ++ map (λ d, (d_id d, [d_class d])) entries.
Proof.
  intros H. unfold loadable in H. apply andb_true_iff in H as [Hfit Hfresh].
  destruct (pass1_creates _ _ _ Hfit (world st) 0 0 eq_refl Hfresh)
    as (w1 & H1 & Hs1 & Hk1).
  unfold add_individuals_batch. rewrite H1.
  destruct (for_each_succeeds kept entries (attach_one E) (with_world st w1))
    as (st2 & H2 & K2); [apply kept_refl|apply kept_trans| |].
  { intros d s Hd Ks. apply (attach_one_fits E (world st)).
    - destruct Ks as [[-> _] _]. done.
    - apply (proj1 (forallb_forall _ _) Hfit). by apply list_elem_of_In.
    - rewrite (kept_names _ _ Ks). simpl. rewrite names_kinds, Hk1.
      rewrite fmap_app. apply elem_of_app. right.
      rewrite <- list_fmap_compose. apply list_elem_of_fmap. by exists d. }
  rewrite H2. eexists. split; [reflexivity|].
  rewrite sync_world. destruct K2 as [[-> ->] _]. done.
Qed.

(** ** Loading a TTL file *)

Lemma create_one_counts L acc data :
  (create_one L acc data).2.1 + (create_one L acc data).2.2
  = S (acc.2.1 + acc.2.2).
Proof.
  destruct acc as [w [added failed]]. unfold create_one. simpl.
  destruct (search_one L w (d_id data)); simpl; [lia|].
  destruct (get_class L w (d_class data)) as [[c|]|]; simpl; try lia.
  destruct (outside L _ w) as [w' [e|[]]]; simpl; lia.
Qed.

Lemma pass1_counts L l acc :
  (foldl (create_one L) acc l).2.1 + (foldl (create_one L) acc l).2.2
  = length l + (acc.2.1 + acc.2.2).
Proof.
  revert acc. induction l as [|data l IH]; intros acc; simpl; [done|].
  rewrite IH, create_one_counts. lia.
Qed.

Lemma batch_counts E l st st' added failed :
  add_individuals_batch E l st = (st', BatchSuccess added failed) →
  added + failed = length l.
Proof.
  unfold add_individuals_batch.
  pose proof (pass1_counts (owlready2 E) l (world st, (0, 0))) as H.
  destruct (foldl (create_one (owlready2 E)) (world st, (0, 0)) l)
    as [w1 [a f]]. simpl in H.
  destruct (for_each l (attach_one E) (with_world st w1)) as [s2 [e|[]]];
    [done|].
  intros [= _ <- <-]. lia.
Qed.











(** A file with an ontology declaration, a kitchen typed twice and a
    subject without a type. *)
Definition mixed_file : list string :=
  [ "@prefix : <http://ex.org/o#> .";
    "@prefix rdf: <http://www.w3.org/1999/02/22-rdf-syntax-ns#> .";
    "@prefix owl: <http://www.w3.org/2002/07/owl#> .";
    "<http://ex.org/o> rdf:type owl:Ontology .";
    ":kitchen_13 rdf:type :Space ,";
    "        :Room ;";
    "    :description " +:+ PyStr.dquote +:+ "the kitchen" +:+ PyStr.dquote +:+ " .";
    ":ghost :description " +:+ PyStr.dquote +:+ "never typed" +:+ PyStr.dquote +:+ " ." ].

(** rdflib on a file the reader takes on. *)
Definition plain_run : Rdf.parse_run := Rdf.ParseRun (λ label, label) (λ _, None).


(** On that file the load gives the kitchen its description. *)
Example load_mixed_file :
  get_individual
    (world (load_instances_from_ttl plain_environment "dynamic.ttl" plain_run
              (Some mixed_file) house).1) "kitchen_13"
  = Some (Individual "kitchen_13" ["Space"]
            [("description", [Py.Str "the kitchen"])] []).
Proof. vm_compute. reflexivity. Qed.

End StoreFacts.
(* ===================================================================== *)
(** * Properties of the SPARQL update endpoint *)
(* ===================================================================== *)

Module ApiFacts.
Import Owl Exc Exc.Notations Store Api StoreFacts.

(** C1, amended.  The endpoint does not look at the shape of the
    update.  It rejects a missing or empty update with status 400 and
    leaves the store as it was; any other text is scanned line by line
    and answered with success or with status 500, never with a shape
    error; and when the scan finds no triple line under a DELETE or an
    INSERT line, no mutation is applied to the asserted model. *)
Theorem update_without_triple_lines (E : environment) (st : manager) :
  (∀ update, update = None ∨ update = Some EmptyString →
     execute_sparql_update E update (Some st) = (Some st, HTTPException 400)) ∧
  (∀ sparql_update m answer,
     sparql_update ≠ EmptyString →
     execute_sparql_update E (Some sparql_update) (Some st) = (m, answer) →
     (answer = Ok ∨ answer = HTTPException 500) ∧
     (sections sparql_update = ([], []) →
      ∃ st', m = Some st' ∧ world st' = world st)).
Proof.
  split.
  { by intros update [->| ->]. }
  intros sparql_update m answer Hne. unfold execute_sparql_update.
  destruct sparql_update as [|c rest]; [done|].
  set (u := String c rest).
  destruct (apply_update E u st) as [st1 [e|[]]] eqn:Eapply.
  - intros [= <- <-]. split; [by right|]. intros Hs.
    unfold apply_update in Eapply. rewrite Hs in Eapply.
    injection Eapply as <-. done.
  - assert (Hworld : sections u = ([], []) → world st1 = world st).
    { intros Hs. unfold apply_update in Eapply. rewrite Hs in Eapply.
      by injection Eapply as <-. }
    destruct (reason E _) as [r|].
    + match goal with
      | |- context [sync_to_neo4j E true ?s] =>
          pose proof (sync_world E true s) as Hsync;
          destruct (sync_to_neo4j E true s) as [st3 resp]
      end.
      simpl in Hsync.
      destruct resp; intros [= <- <-]; (split; [by (left + right)|]);
        intros Hs; eexists; (split; [done|]); rewrite Hsync; by apply Hworld.
    + intros [= <- <-]. split; [by right|]. intros Hs.
      eexists. split; [done|]. simpl. by apply Hworld.
Qed.

(** A robot in the kitchen. *)
Definition house_with_robot : manager :=
  (add_individual plain_environment
     (IndividualData "robot1" "Robot"
        (Properties None (Some [("robotIsInSpace", ["kitchen"])])))
     true house).1.

(** A text that is no SPARQL update at all. *)
Definition not_sparql : string := "SELECT ?s WHERE { ?s ?p ?o }".

(** The amended claim at that text: accepted, and the model is as it
    was. *)
Lemma update_without_triple_lines_witness :
  (execute_sparql_update plain_environment (Some not_sparql)
     (Some house_with_robot)).2 = Ok ∧
  ∃ st', (execute_sparql_update plain_environment (Some not_sparql)
            (Some house_with_robot)).1 = Some st' ∧
         world st' = world house_with_robot.
Proof.
  destruct (update_without_triple_lines plain_environment house_with_robot)
    as [_ H].
  destruct (H not_sparql
              (execute_sparql_update plain_environment (Some not_sparql)
                 (Some house_with_robot)).1
              (execute_sparql_update plain_environment (Some not_sparql)
                 (Some house_with_robot)).2) as [_ Hw].
  - discriminate.
  - by destruct (execute_sparql_update _ _ _).
  - split; [vm_compute; reflexivity|]. apply Hw. vm_compute. reflexivity.
Defined.

(** An [INSERT DATA] block, as [generate_sparql_update] writes it for
    a diff without removals. *)
Definition insert_data : string :=
  PyStr.join WorldUpdate.newline
    [ "INSERT DATA {";
      "    <http://ex.org/o#robot1> <http://ex.org/o#robotIsInSpace> <http://ex.org/o#hall> .";
      "}" ].

(** C1 as stated fails: an update that is not a DELETE/INSERT/WHERE
    block (it has neither DELETE nor WHERE) is not rejected; it is
    applied to the asserted model and answered with success. *)
Lemma insert_data_accepted :
  mentions_shape_keywords insert_data = false ∧
  ∃ st',
    execute_sparql_update plain_environment (Some insert_data)
      (Some house_with_robot) = (Some st', Ok) ∧
    objects_of (world house_with_robot) "robot1" "robotIsInSpace" = ["kitchen"] ∧
    objects_of (world st') "robot1" "robotIsInSpace" = ["kitchen"; "hall"].
Proof.
  split; [vm_compute; reflexivity|].
  eexists. split; [vm_compute; reflexivity|].
  split; vm_compute; reflexivity.
Qed.

End ApiFacts.

(* ===================================================================== *)
(** * Properties of the embedding loader *)
(* ===================================================================== *)

Module EmbeddingFacts.
Import Owl Exc Store Embedding StoreFacts.

(** C8, amended.  With [generate: false] the loader raises
    [FileNotFoundError] when there is no cache file, and otherwise
    loads what the file holds without comparing the cached model or
    dimensionality to the configured ones: its result is the same
    under any configuration.  Neither outcome is fatal: the sync
    reports whatever the embedding block raises as a warning and
    returns success as soon as the reasoner has succeeded. *)
Theorem cache_loaded_unchecked (self : embedding_manager) (g : Neo4j.graph) :
  load_embeddings_from_file self None g = (g, inl FileNotFoundError) ∧
  (∀ other file,
     load_embeddings_from_file self file g = load_embeddings_from_file other file g) ∧
  (∀ E st r,
     generate_embeddings E = false →
     reason E (world st) = Some r →
     ∃ st', sync_to_neo4j E false st
            = (st', SyncSuccess (length (individuals (world st)))
                                (relationships_count (world st) r))).
Proof.
  split; [done|]. split; [done|].
  intros E st r Hgen Hr. unfold sync_to_neo4j. rewrite Hr. eauto.
Qed.

(** The configuration asks for [text-embedding-3-small] in 512
    dimensions; the cache was written by another model in 3. *)
Definition configured : embedding_manager :=
  EmbeddingManager "text-embedding-3-small" 512 (λ _, None).

Definition other_cache : Py.value :=
  Py.Dict
    [ ("metadata",
       Py.Dict [ ("description_model", Py.Str "text-embedding-ada-002");
                 ("description_dimensions", Py.Num "3") ]);
      ("embeddings",
       Py.List
         [ Py.Dict [ ("id", Py.Str "kitchen");
                     ("description_embedding",
                      Py.List [Py.Num "0.1"; Py.Num "0.2"; Py.Num "0.3"]) ] ]) ].

Definition cached_environment : environment :=
  Environment plain_library (λ l, l) no_inference true false configured None
              (λ _, Some other_cache).

(** The amended claim on that cache: the sync succeeds. *)
Lemma cache_loaded_unchecked_witness :
  ∃ st', sync_to_neo4j cached_environment false house = (st', SyncSuccess 2 0).
Proof.
  destruct (cache_loaded_unchecked configured (projection house)) as (_ & _ & H).
  apply (H cached_environment house (asserted_view (world house))).
  - reflexivity.
  - reflexivity.
Defined.

(** C8 as stated fails: the cached model and dimensionality disagree
    with the configured ones, and the loader raises nothing: it
    returns the count of the embeddings it has put on the nodes. *)
Lemma mismatching_cache_loaded :
  ¬ metadata_matches configured other_cache ∧
  ∃ g', load_embeddings_from_file configured (Some other_cache) (projection house)
        = (g', inr 1).
Proof.
  split.
  - intros (fields & metadata & Hf & Hm & Hmodel & _).
    injection Hf as <-. vm_compute in Hm. injection Hm as <-.
    vm_compute in Hmodel. discriminate.
  - eexists. vm_compute. reflexivity.
Qed.

End EmbeddingFacts.

(* ===================================================================== *)
(** * The robot's location edges *)
(* ===================================================================== *)

Module RobotEdgeFacts.
Import Neo4j ProjectionFacts SyncFacts Owl Exc Store StoreFacts.

(** The node carries this [id]. *)
Definition id_is (n : node) (x : string) : Prop :=
  Py.is_str (Py.assoc_get "id" (props n)) x = true.

(** The edge starts at a node labelled [Individual]. *)
Definition source_individual (g : graph) (e : edge) : bool :=
  match nodes g !! e.1.1 with
  | Some n => bool_decide (is_individual n)
  | None => false
  end.

(** Two nodes with the same labels and the same [id]. *)
Definition alike (n n' : node) : Prop :=
  labels n' = labels n ∧
  Py.assoc_get "id" (props n') = Py.assoc_get "id" (props n).

(** Two graphs with the same edges and, node by node, the same labels
    and [id]. *)
Definition similar (g g' : graph) : Prop :=
  edges g' = edges g ∧
  ∀ k, match nodes g !! k, nodes g' !! k with
       | Some n, Some n' => alike n n'
       | None, None => True
       | _, _ => False
       end.

(** What the sync keeps true of the projection while it has written the
    individuals [ps], for the reasoned model [r]: an [Individual] node
    has the id of one of them, no two have the same id, each of them
    has its node, an edge joins nodes of the graph, an edge that leaves
    an [Individual] node is an [INSTANCE_OF] edge or stands for a value
    the reasoned model holds, and no such edge is there twice. *)
Record good (r : reasoned) (ps : list string) (g : graph) : Prop := Good {
  good_ids : ∀ k n, nodes g !! k = Some n → is_individual n →
    ∃ x, x ∈ ps ∧ id_is n x;
  good_unique : ∀ k1 k2 n1 n2 x,
    nodes g !! k1 = Some n1 → nodes g !! k2 = Some n2 →
    is_individual n1 → is_individual n2 → id_is n1 x → id_is n2 x → k1 = k2;
  good_present : ∀ x, x ∈ ps →
    ∃ k n, nodes g !! k = Some n ∧
           matches ("Individual" :: class_labels r x) x n = true;
  good_closed : ∀ a t b, (a, t, b) ∈ edges g →
    is_Some (nodes g !! a) ∧ is_Some (nodes g !! b);
  good_edges : ∀ a t b na,
    (a, t, b) ∈ edges g → nodes g !! a = Some na → is_individual na →
    t = "INSTANCE_OF" ∨
    ∃ x v nb, id_is na x ∧ nodes g !! b = Some nb ∧ is_individual nb ∧
              id_is nb v ∧ v ∈ indirect_values r x t;
  good_nodup : NoDup (filter (λ e, source_individual g e = true) (edges g))
}.

(** A house whose robot is given two locations at once. *)
Definition two_places : individual_data :=
  IndividualData "robot1" "Robot"
    (Properties None (Some [("robotIsInSpace", ["kitchen"; "hall"])])).

(** A house whose robot is in the kitchen. *)
Definition one_place : individual_data :=
  IndividualData "robot1" "Robot"
    (Properties None (Some [("robotIsInSpace", ["kitchen"])])).

Definition house_one_place : manager :=
  (add_individual plain_environment one_place false house).1.

Lemma id_is_inj n x y : id_is n x → id_is n y → x = y.
Proof.
  unfold id_is, Py.is_str.
  destruct (Py.assoc_get "id" (props n)) as [[]|]; try done.
  intros H1 H2. apply String.eqb_eq in H1, H2. congruence.
Qed.

Lemma matches_spec ls x n :
  matches ls x n = true ↔ (∀ l, l ∈ ls → l ∈ labels n) ∧ id_is n x.
Proof.
  unfold matches, id_is. rewrite andb_true_iff, forallb_forall.
  split; intros [H1 H2]; (split; [|done]); intros l Hl.
  - apply has_label_true, H1. by apply list_elem_of_In.
  - apply has_label_true, H1. by apply list_elem_of_In.
Qed.

Lemma matches_individual x n :
  matches ["Individual"] x n = true ↔ is_individual n ∧ id_is n x.
Proof.
  rewrite matches_spec. unfold is_individual. split; intros [H1 H2]; (split; [|done]).
  - apply H1. by left.
  - intros l Hl. by apply list_elem_of_singleton in Hl as ->.
Qed.

Lemma alike_refl n : alike n n.
Proof. by split. Qed.

Lemma alike_trans n1 n2 n3 : alike n1 n2 → alike n2 n3 → alike n1 n3.
Proof. intros [H1 H2] [H3 H4]. split; congruence. Qed.

Lemma alike_individual n n' : alike n n' → is_individual n' ↔ is_individual n.
Proof. intros [H _]. unfold is_individual. by rewrite H. Qed.

Lemma alike_id n n' x : alike n n' → id_is n' x ↔ id_is n x.
Proof. intros [_ H]. unfold id_is. by rewrite H. Qed.

Lemma alike_matches ls x n n' :
  alike n n' → matches ls x n' = true ↔ matches ls x n = true.
Proof.
  intros H. rewrite !matches_spec, (alike_id n n' x H).
  destruct H as [-> _]. done.
Qed.

Lemma similar_refl g : similar g g.
Proof.
  split; [done|]. intros k. destruct (nodes g !! k); [apply alike_refl|done].
Qed.

Lemma similar_trans g1 g2 g3 : similar g1 g2 → similar g2 g3 → similar g1 g3.
Proof.
  intros [He12 Hn12] [He23 Hn23]. split; [congruence|]. intros k.
  specialize (Hn12 k). specialize (Hn23 k).
  destruct (nodes g1 !! k), (nodes g2 !! k), (nodes g3 !! k); try done.
  by eapply alike_trans.
Qed.

Lemma similar_back g g' k n' :
  similar g g' → nodes g' !! k = Some n' →
  ∃ n, nodes g !! k = Some n ∧ alike n n'.
Proof.
  intros [_ H] Hk. specialize (H k). rewrite Hk in H.
  destruct (nodes g !! k) as [n|]; [|done]. by exists n.
Qed.

Lemma similar_forth g g' k n :
  similar g g' → nodes g !! k = Some n →
  ∃ n', nodes g' !! k = Some n' ∧ alike n n'.
Proof.
  intros [_ H] Hk. specialize (H k). rewrite Hk in H.
  destruct (nodes g' !! k) as [n'|]; [|done]. by exists n'.
Qed.

Lemma similar_source g g' e :
  similar g g' → source_individual g' e = source_individual g e.
Proof.
  intros [_ H]. unfold source_individual. specialize (H e.1.1).
  destruct (nodes g !! e.1.1) as [n|], (nodes g' !! e.1.1) as [n'|]; try done.
  apply bool_decide_ext. by apply alike_individual.
Qed.

Lemma assoc_get_set_ne {V} key name (v : V) l :
  name ≠ key → Py.assoc_get key (Py.assoc_set name v l) = Py.assoc_get key l.
Proof.
  intros Hne. unfold Py.assoc_get, Py.assoc_set. f_equal.
  assert (Hk : String.eqb name key = false) by by apply String.eqb_neq.
  destruct (existsb _ l).
  - induction l as [|kv l IH]; simpl; [done|].
    destruct (String.eqb kv.1 name) eqn:E; simpl.
    + apply String.eqb_eq in E. rewrite E, Hk. apply IH.
    + destruct (String.eqb kv.1 key); [done|apply IH].
  - induction l as [|kv l IH]; simpl; [by rewrite Hk|].
    destruct (String.eqb kv.1 key); [done|apply IH].
Qed.

Lemma set_prop_similar name v keys g :
  name ≠ "id" → similar g (set_prop name v keys g).
Proof.
  intros Hne. unfold set_prop. destruct g as [ns es]. simpl.
  revert ns. induction keys as [|k keys IH]; intros ns; simpl.
  - apply similar_refl.
  - eapply similar_trans; [|apply IH].
    split; [done|]. intros k'. simpl.
    destruct (decide (k = k')) as [<-|Hk].
    + rewrite lookup_alter_eq. destruct (ns !! k) as [n|]; simpl; [|done].
      split; [done|]. simpl. by apply assoc_get_set_ne.
    + rewrite lookup_alter_ne by done.
      destruct (ns !! k'); [apply alike_refl|done].
Qed.

Lemma filter_agree {A} (P Q : A → Prop) `{∀ x, Decision (P x)}
    `{∀ x, Decision (Q x)} (l : list A) :
  (∀ x, x ∈ l → P x ↔ Q x) → filter P l = filter Q l.
Proof.
  induction l as [|x l IH]; intros H'; [done|].
  rewrite !filter_cons.
  assert (Hx : P x ↔ Q x) by (apply H'; by left).
  assert (Hl : filter P l = filter Q l).
  { apply IH. intros y Hy. apply H'. by right. }
  destruct (decide (P x)), (decide (Q x)); try tauto; by rewrite Hl.
Qed.

Section invariant.
Variable r : reasoned.

Lemma good_similar ps g g' : similar g g' → good r ps g → good r ps g'.
Proof.
  intros Hs Hg. pose proof Hs as [He Hn]. split.
  - intros k n' Hk Hi.
    destruct (similar_back g g' k n' Hs Hk) as (n & Hk0 & Ha).
    destruct (good_ids r ps g Hg k n Hk0) as (x & Hx & Hid).
    { by apply (alike_individual n n'). }
    exists x. split; [done|]. by apply (alike_id n n').
  - intros k1 k2 n1' n2' x Hk1 Hk2 Hi1 Hi2 Hx1 Hx2.
    destruct (similar_back g g' k1 n1' Hs Hk1) as (n1 & Hk1' & Ha1).
    destruct (similar_back g g' k2 n2' Hs Hk2) as (n2 & Hk2' & Ha2).
    apply (good_unique r ps g Hg k1 k2 n1 n2 x); try done.
    + by apply (alike_individual n1 n1').
    + by apply (alike_individual n2 n2').
    + by apply (alike_id n1 n1').
    + by apply (alike_id n2 n2').
  - intros x Hx. destruct (good_present r ps g Hg x Hx) as (k & n & Hk & Hm).
    destruct (similar_forth g g' k n Hs Hk) as (n' & Hk' & Ha).
    exists k, n'. split; [done|]. by apply (alike_matches _ _ n n').
  - intros a t b. rewrite He. intros Hin.
    destruct (good_closed r ps g Hg a t b Hin) as [[na Ha] [nb Hb]].
    destruct (similar_forth g g' a na Hs Ha) as (na' & -> & _).
    destruct (similar_forth g g' b nb Hs Hb) as (nb' & -> & _). eauto.
  - intros a t b na'. rewrite He. intros Hin Ha Hi.
    destruct (similar_back g g' a na' Hs Ha) as (na & Ha0 & Haa).
    destruct (good_edges r ps g Hg a t b na Hin Ha0) as [Ht|(x & v & nb & H1 & H2 & H3 & H4 & H5)].
    { by apply (alike_individual na na'). }
    { by left. }
    right. destruct (similar_forth g g' b nb Hs H2) as (nb' & Hb' & Hab).
    exists x, v, nb'. split; [by apply (alike_id na na')|].
    split; [done|]. split; [by apply (alike_individual nb nb')|].
    split; [by apply (alike_id nb nb')|done].
  - rewrite He.
    rewrite (filter_agree _ (λ e, source_individual g e = true)).
    + apply (good_nodup r ps g Hg).
    + intros e _. by rewrite (similar_source g g' e Hs).
Qed.

Lemma good_known ps g x : x ∈ ps → good r ps g → good r (x :: ps) g.
Proof.
  intros Hx Hg. split.
  - intros k n Hk Hi. destruct (good_ids r ps g Hg k n Hk Hi) as (y & Hy & Hid).
    exists y. split; [by right|done].
  - apply (good_unique r ps g Hg).
  - intros y Hy. apply (good_present r ps g Hg).
    apply elem_of_cons in Hy as [->|Hy]; done.
  - apply (good_closed r ps g Hg).
  - apply (good_edges r ps g Hg).
  - apply (good_nodup r ps g Hg).
Qed.

Lemma good_insert ps g x :
  good r ps g → x ∉ ps →
  good r (x :: ps)
    (Graph (<[fresh (dom (nodes g)) :=
                Node ("Individual" :: class_labels r x) [("id", Py.Str x)]]>
              (nodes g))
           (edges g)).
Proof.
  intros Hg Hx. set (k0 := fresh (dom (nodes g))).
  set (n0 := Node ("Individual" :: class_labels r x) [("id", Py.Str x)]).
  assert (Hfresh : nodes g !! k0 = None).
  { apply not_elem_of_dom. apply is_fresh. }
  assert (Hid0 : id_is n0 x).
  { unfold id_is. simpl. apply String.eqb_refl. }
  assert (Hold : ∀ k, is_Some (nodes g !! k) → k0 ≠ k).
  { intros k [n Hk] <-. congruence. }
  assert (Hnew : ∀ k n, nodes g !! k = Some n → is_individual n → ¬ id_is n x).
  { intros k n Hk Hi Hid.
    destruct (good_ids r ps g Hg k n Hk Hi) as (y & Hy & Hid').
    by rewrite (id_is_inj n x y Hid Hid') in Hx. }
  split; simpl.
  - intros k n. destruct (decide (k0 = k)) as [<-|Hne].
    + rewrite lookup_insert_eq. intros [= <-] _. exists x. split; [by left|done].
    + rewrite lookup_insert_ne by done. intros Hk Hi.
      destruct (good_ids r ps g Hg k n Hk Hi) as (y & Hy & Hid).
      exists y. split; [by right|done].
  - intros k1 k2 n1 n2 y.
    destruct (decide (k0 = k1)) as [<-|Hne1], (decide (k0 = k2)) as [<-|Hne2];
      try done.
    + rewrite lookup_insert_eq, lookup_insert_ne by done.
      intros [= <-] Hk2 _ Hi2 Hy1 Hy2. exfalso.
      rewrite <- (id_is_inj n0 x y Hid0 Hy1) in Hy2. by eapply Hnew.
    + rewrite lookup_insert_eq, lookup_insert_ne by done.
      intros Hk1 [= <-] Hi1 _ Hy1 Hy2. exfalso.
      rewrite <- (id_is_inj n0 x y Hid0 Hy2) in Hy1. by eapply Hnew.
    + rewrite !lookup_insert_ne by done. apply (good_unique r ps g Hg).
  - intros y Hy. apply elem_of_cons in Hy as [->|Hy].
    + exists k0, n0. rewrite lookup_insert_eq. split; [done|].
      apply matches_spec. by split.
    + destruct (good_present r ps g Hg y Hy) as (k & n & Hk & Hm).
      exists k, n. split; [|done]. rewrite lookup_insert_ne; [done|].
      apply Hold. eauto.
  - intros a t b Hin. destruct (good_closed r ps g Hg a t b Hin) as [Ha Hb].
    rewrite !lookup_insert_ne by by apply Hold. done.
  - intros a t b na Hin. destruct (good_closed r ps g Hg a t b Hin) as [Ha Hb].
    rewrite lookup_insert_ne by by apply Hold. intros Hna Hi.
    destruct (good_edges r ps g Hg a t b na Hin Hna Hi)
      as [Ht|(y & v & nb & H1 & H2 & H3 & H4 & H5)]; [by left|].
    right. exists y, v, nb. rewrite lookup_insert_ne by by apply Hold. done.
  - rewrite (filter_agree _ (λ e, source_individual g e = true)).
    + apply (good_nodup r ps g Hg).
    + intros [[a t] b] Hin. unfold source_individual. simpl.
      destruct (good_closed r ps g Hg a t b Hin) as [Ha _].
      by rewrite lookup_insert_ne by by apply Hold.
Qed.

Lemma merge_node_good ps g x u :
  good r ps g →
  good r (x :: ps)
    (merge_node ("Individual" :: class_labels r x) x [("uri", u)] g).
Proof.
  intros Hg. unfold merge_node.
  destruct (match_nodes ("Individual" :: class_labels r x) x g) as [|k keys] eqn:E.
  - assert (Hx : x ∉ ps).
    { intros Hx. destruct (good_present r ps g Hg x Hx) as (k & n & Hk & Hm).
      assert (Hin : k ∈ match_nodes ("Individual" :: class_labels r x) x g).
      { apply match_nodes_spec. by exists n. }
      rewrite E in Hin. by apply elem_of_nil in Hin. }
    eapply good_similar; [|by apply good_insert].
    unfold set_props. simpl. by apply set_prop_similar.
  - assert (Hx : x ∈ ps).
    { assert (Hin : k ∈ match_nodes ("Individual" :: class_labels r x) x g).
      { rewrite E. by left. }
      apply match_nodes_spec in Hin as (n & Hk & Hm).
      apply matches_spec in Hm as [Hl Hid].
      destruct (good_ids r ps g Hg k n Hk) as (y & Hy & Hid').
      { apply Hl. by left. }
      by rewrite (id_is_inj n x y Hid Hid'). }
    apply good_known; [done|].
    eapply good_similar; [|done].
    unfold set_props. simpl. by apply set_prop_similar.
Qed.

Lemma merge_edge_good ps g t a b na nb :
  good r ps g → nodes g !! a = Some na → nodes g !! b = Some nb →
  (is_individual na →
   t = "INSTANCE_OF" ∨
   ∃ x v, id_is na x ∧ is_individual nb ∧ id_is nb v ∧
          v ∈ indirect_values r x t) →
  good r ps (merge_edge t a b g).
Proof.
  intros Hg Ha Hb Hnew. unfold merge_edge. case_decide as Hin; [done|].
  split; simpl.
  - apply (good_ids r ps g Hg).
  - apply (good_unique r ps g Hg).
  - apply (good_present r ps g Hg).
  - intros a' t' b'. rewrite elem_of_app, list_elem_of_singleton.
    intros [H|[= -> -> ->]]; [by apply (good_closed r ps g Hg a' t' b')|].
    rewrite Ha, Hb. eauto.
  - intros a' t' b' na'. rewrite elem_of_app, list_elem_of_singleton.
    intros [H|[= -> -> ->]]; [by apply (good_edges r ps g Hg)|].
    rewrite Ha. intros [= <-] Hi.
    destruct (Hnew Hi) as [Ht|(x & v & H1 & H2 & H3 & H4)]; [by left|].
    right. by exists x, v, nb.
  - rewrite filter_app. apply NoDup_app. split; [apply (good_nodup r ps g Hg)|].
    split.
    + intros e He He'. apply list_elem_of_filter in He as [_ He].
      apply list_elem_of_filter in He' as [_ He'].
      apply list_elem_of_singleton in He' as ->. done.
    + apply NoDup_filter, NoDup_singleton.
Qed.

Lemma match_nodes_nodes ls id g g' :
  nodes g' = nodes g → match_nodes ls id g' = match_nodes ls id g.
Proof. unfold match_nodes. by intros ->. Qed.

(** What every single [MERGE] of an edge keeps, the statement keeps. *)
Lemma merge_edges_keeps (I : graph → Prop) la ida t lb idb g :
  I g →
  (∀ g' a b, nodes g' = nodes g → I g' →
     a ∈ match_nodes [la] ida g → b ∈ match_nodes [lb] idb g →
     I (merge_edge t a b g')) →
  I (merge_edges la ida t lb idb g).
Proof.
  intros Hg Hstep. unfold merge_edges.
  assert (Hinner : ∀ dsts g0 a,
            nodes g0 = nodes g → I g0 → a ∈ match_nodes [la] ida g →
            (∀ b, b ∈ dsts → b ∈ match_nodes [lb] idb g) →
            I (foldl (λ g b, merge_edge t a b g) g0 dsts) ∧
            nodes (foldl (λ g b, merge_edge t a b g) g0 dsts) = nodes g).
  { induction dsts as [|b dsts IH]; intros g0 a Hn H0 Ha Hd; simpl; [done|].
    apply IH; [by rewrite merge_edge_nodes| |done|].
    - apply Hstep; try done. apply Hd. by left.
    - intros b' Hb'. apply Hd. by right. }
  assert (Houter : ∀ sources g0,
            nodes g0 = nodes g → I g0 →
            (∀ a, a ∈ sources → a ∈ match_nodes [la] ida g) →
            I (foldl (λ g a, foldl (λ g b, merge_edge t a b g) g
                                   (match_nodes [lb] idb g)) g0 sources)).
  { intros sources. induction sources as [|a sources IH]; intros g0 Hn H0 Hs;
      simpl; [done|].
    destruct (Hinner (match_nodes [lb] idb g0) g0 a) as [H1 H2]; try done.
    - apply Hs. by left.
    - intros b. by rewrite (match_nodes_nodes _ _ g g0).
    - apply IH; [done|done|]. intros a' Ha'. apply Hs. by right. }
  by apply Houter.
Qed.

Lemma foldl_keeps {A} (I : graph → Prop) (f : graph → A → graph)
    (l : list A) (g : graph) :
  (∀ g x, x ∈ l → I g → I (f g x)) → I g → I (foldl f g l).
Proof.
  revert g. induction l as [|x l IH]; intros g Hf Hg; simpl; [done|].
  apply IH.
  - intros g' y Hy. apply Hf. by right.
  - apply Hf; [by left|done].
Qed.

Lemma sync_node_good w ps g i :
  (∀ p, p ∈ data_properties (w_schema w) → p_name p ≠ "id") →
  good r ps g → good r (i_name i :: ps) (sync_node w r g i).
Proof.
  intros Hid Hg. unfold sync_node.
  apply foldl_keeps.
  { intros g' p Hp Hg'. destruct (data_value _); [|done].
    eapply good_similar; [|done]. apply set_prop_similar. by apply Hid. }
  apply foldl_keeps; [|by apply merge_node_good].
  intros g' c _ Hg'. apply merge_edges_keeps; [done|].
  intros g'' a b Hn Hg'' Ha Hb.
  apply match_nodes_spec in Ha as (na & Ha & _).
  apply match_nodes_spec in Hb as (nb & Hb & _).
  apply (merge_edge_good _ _ _ _ _ na nb); try done; try by rewrite Hn.
  by left.
Qed.

Lemma sync_edges_good w ps g i :
  good r ps g → good r ps (sync_edges w r g i).
Proof.
  intros Hg. unfold sync_edges.
  apply foldl_keeps; [|done]. intros g1 p _ Hg1.
  apply foldl_keeps; [|done]. intros g2 v Hv Hg2.
  apply merge_edges_keeps; [done|].
  intros g3 a b Hn Hg3 Ha Hb.
  apply match_nodes_spec in Ha as (na & Ha & Hma).
  apply match_nodes_spec in Hb as (nb & Hb & Hmb).
  apply matches_individual in Hma as [Hia Hxa].
  apply matches_individual in Hmb as [Hib Hxb].
  apply (merge_edge_good _ _ _ _ _ na nb); try done; try by rewrite Hn.
  intros _. right. by exists (i_name i), v.
Qed.

Lemma detach_delete_good g : good r [] (detach_delete "Individual" g).
Proof.
  assert (Hkept : ∀ k n,
            filter (λ kn, has_label "Individual" kn.2 = false) (nodes g) !! k = Some n →
            ¬ is_individual n).
  { intros k n H Hi. apply map_lookup_filter_Some in H as [_ H]. simpl in H.
    apply has_label_true in Hi. congruence. }
  split; simpl.
  - intros k n Hk Hi. by destruct (Hkept k n).
  - intros k1 k2 n1 n2 x Hk1 _ Hi1. by destruct (Hkept k1 n1).
  - intros x Hx. by apply elem_of_nil in Hx.
  - intros a t b Hin. by apply list_elem_of_filter in Hin as [Hin _].
  - intros a t b na _ Ha Hi. by destruct (Hkept a na).
  - match goal with |- NoDup ?l => destruct l as [|e l'] eqn:E end;
      [constructor|].
    assert (He : e ∈ e :: l') by by left.
    rewrite <- E in He. apply list_elem_of_filter in He as [He _].
    unfold source_individual in He. simpl in He.
    destruct (filter _ (nodes g) !! e.1.1) as [n|] eqn:Hn; [|done].
    apply bool_decide_eq_true in He. by destruct (Hkept _ n Hn).
Qed.

Lemma one_edge ps g x t :
  good r ps g → t ≠ "INSTANCE_OF" →
  (∀ v1 v2, v1 ∈ indirect_values r x t → v2 ∈ indirect_values r x t → v1 = v2) →
  length (out_edges "Individual" x t g) ≤ 1.
Proof.
  intros Hg Ht Hone.
  assert (Hsame : ∀ e1 e2, e1 ∈ out_edges "Individual" x t g →
            e2 ∈ out_edges "Individual" x t g → e1 = e2).
  { assert (Hedge : ∀ a t' b, (a, t', b) ∈ out_edges "Individual" x t g →
              t' = t ∧ ∃ na nb v, nodes g !! a = Some na ∧ is_individual na ∧
                id_is na x ∧ nodes g !! b = Some nb ∧ is_individual nb ∧
                id_is nb v ∧ v ∈ indirect_values r x t).
    { intros a t' b He. unfold out_edges in He.
      apply list_elem_of_filter in He as [[Ha Htt] Hin]. simpl in Ha, Htt.
      subst t'. split; [done|].
      apply match_nodes_spec in Ha as (na & Ha & Hma).
      apply matches_individual in Hma as [Hia Hxa].
      destruct (good_edges r ps g Hg a t b na Hin Ha Hia)
        as [?|(y & v & nb & H1 & H2 & H3 & H4 & H5)]; [done|].
      rewrite <- (id_is_inj na x y Hxa H1) in H5.
      by exists na, nb, v. }
    intros [[a1 t1] b1] [[a2 t2] b2] H1 H2.
    destruct (Hedge a1 t1 b1 H1) as (-> & na1 & nb1 & v1 & A1 & A2 & A3 & A4 & A5 & A6 & A7).
    destruct (Hedge a2 t2 b2 H2) as (-> & na2 & nb2 & v2 & B1 & B2 & B3 & B4 & B5 & B6 & B7).
    assert (a1 = a2) as -> by by apply (good_unique r ps g Hg a1 a2 na1 na2 x).
    rewrite (Hone v2 v1 B7 A7) in B6.
    assert (b1 = b2) as -> by by apply (good_unique r ps g Hg b1 b2 nb1 nb2 v1).
    done. }
  assert (Hnd : NoDup (out_edges "Individual" x t g)).
  { unfold out_edges.
    rewrite (filter_agree _
               (λ e, (e.1.1 ∈ match_nodes ["Individual"] x g ∧ e.1.2 = t)
                     ∧ source_individual g e = true)).
    - rewrite <- list_filter_filter. apply NoDup_filter, (good_nodup r ps g Hg).
    - intros e _. split; [|by intros [? _]]. intros [Ha Htt]. split; [done|].
      apply match_nodes_spec in Ha as (na & Ha & Hma).
      apply matches_individual in Hma as [Hia _].
      unfold source_individual. rewrite Ha. by apply bool_decide_eq_true. }
  destruct (out_edges "Individual" x t g) as [|e1 [|e2 l]]; simpl; try lia.
  exfalso. apply NoDup_cons in Hnd as [Hnd _]. apply Hnd.
  rewrite (Hsame e1 e2); [by left|by left|right; by left].
Qed.

End invariant.

Lemma handle_embeddings_similar E st g : similar g (handle_embeddings E st g).1.
Proof.
  apply handle_embeddings_keeps;
    [apply similar_refl|apply similar_trans|intros; by apply set_prop_similar].
Qed.

(** C4, amended.  After a sync that succeeds, an individual for which
    the reasoned model holds at most one [robotIsInSpace] value has at
    most one outgoing [robotIsInSpace] edge in the projection, in an
    ontology with no data property named [id]. *)
Theorem robot_edges_follow_reasoned_values (E : environment) (skip : bool)
    (st st' : manager) (n_individuals n_relationships : nat) (robot : string) :
  sync_to_neo4j E skip st = (st', SyncSuccess n_individuals n_relationships) →
  (∀ p, p ∈ data_properties (w_schema (world st)) → p_name p ≠ "id") →
  (∀ v1 v2,
     v1 ∈ indirect_values (inferred st') robot "robotIsInSpace" →
     v2 ∈ indirect_values (inferred st') robot "robotIsInSpace" → v1 = v2) →
  length (out_edges "Individual" robot "robotIsInSpace" (projection st')) ≤ 1.
Proof.
  unfold sync_to_neo4j.
  destruct (if skip then Some (inferred st) else reason E (world st))
    as [r|]; [|discriminate].
  cbv zeta. intros [= <- _ _] Hid Hone. simpl in *.
  assert (Hgood : ∃ ps, good r ps
            (foldl (sync_edges (world st) r)
               (foldl (sync_node (world st) r)
                  (detach_delete "Individual" (projection st))
                  (individuals (world st)))
               (individuals (world st)))).
  { apply (foldl_keeps (λ g, ∃ ps, good r ps g)).
    { intros g i _ [ps Hg]. exists ps. by apply sync_edges_good. }
    apply (foldl_keeps (λ g, ∃ ps, good r ps g)).
    { intros g i _ [ps Hg]. exists (i_name i :: ps). by apply sync_node_good. }
    exists []. apply detach_delete_good. }
  destruct Hgood as [ps Hgood].
  apply (one_edge r ps); [|done|done].
  eapply good_similar; [|done]. apply handle_embeddings_similar.
Qed.

(** The amended claim at the house whose robot is in the kitchen. *)
Lemma robot_edges_follow_reasoned_values_witness :
  length (out_edges "Individual" "robot1" "robotIsInSpace"
            (projection (sync_to_neo4j plain_environment false house_one_place).1))
  ≤ 1.
Proof.
  apply (robot_edges_follow_reasoned_values plain_environment false
           house_one_place
           (sync_to_neo4j plain_environment false house_one_place).1 3 1 "robot1").
  - vm_compute. reflexivity.
  - intros p Hp. vm_compute in Hp.
    repeat (apply elem_of_cons in Hp as [->|Hp]; [discriminate|]).
    by apply elem_of_nil in Hp.
  - intros v1 v2 H1 H2. vm_compute in H1, H2.
    apply list_elem_of_singleton in H1, H2. congruence.
Defined.

(** C4 as stated fails: a robot added with two locations is accepted,
    and the sync that follows gives it two [robotIsInSpace] edges. *)
Lemma robot_with_two_location_edges :
  (add_individual plain_environment two_places true house).2 = Success "robot1" ∧
  length (out_edges "Individual" "robot1" "robotIsInSpace"
            (projection (add_individual plain_environment two_places true house).1))
  = 2.
Proof. vm_compute. split; reflexivity. Qed.

End RobotEdgeFacts.

(* ===================================================================== *)
(** * More on the TTL rewriter and the graph diff *)
(* ===================================================================== *)

Module RewriterEdgeFacts.
Import PyStr Rdf WorldUpdate.

(** A line the rewriter can take: it has [:robotIsInSpace] and the old
    location on it. *)
Definition candidate (from_location line : string) : bool :=
  contains ":robotIsInSpace" line && contains (":" +:+ from_location) line.

Lemma find_in_block_candidate robot_id from_location lines i0 prev start i :
  find_in_block robot_id from_location i0 prev start lines = Some i →
  ∃ line, i0 ≤ i ∧ lines !! (i - i0) = Some line ∧
          candidate from_location line = true.
Proof.
  revert i0 prev start. induction lines as [|line rest IH]; intros i0 prev start;
    simpl; [done|].
  assert (Hrec : ∀ prev' start',
            find_in_block robot_id from_location (S i0) prev' start' rest = Some i →
            ∃ l, i0 ≤ i ∧ (line :: rest) !! (i - i0) = Some l ∧
                 candidate from_location l = true).
  { intros prev' start' H. destruct (IH _ _ _ H) as (l & Hle & Hl & Hc).
    exists l. split; [lia|]. split; [|done].
    replace (i - i0) with (S (i - S i0)) by lia. done. }
  destruct (if contains (":" +:+ robot_id) line
               && (contains "rdf:type" line || contains "rdf:type" prev)
            then Some i0 else start) as [b|]; [|apply Hrec].
  destruct (contains ":robotIsInSpace" line) eqn:E1; [|apply Hrec].
  destruct (contains (":" +:+ from_location) line) eqn:E2.
  - intros [= <-]. exists line. rewrite Nat.sub_diag. split; [done|].
    split; [done|]. unfold candidate. by rewrite E1, E2.
  - destruct (contains ";" line && (b + 10 <? i0)); apply Hrec.
Qed.

Lemma find_anywhere_spec from_location lines i0 :
  match find_anywhere from_location i0 lines with
  | Some i => ∃ line, i0 ≤ i ∧ lines !! (i - i0) = Some line ∧
                      candidate from_location line = true
  | None => ∀ line, line ∈ lines → candidate from_location line = false
  end.
Proof.
  revert i0. induction lines as [|line rest IH]; intros i0; simpl.
  - intros line H. by apply elem_of_nil in H.
  - fold (candidate from_location line).
    destruct (candidate from_location line) eqn:E.
    + exists line. rewrite Nat.sub_diag. done.
    + specialize (IH (S i0)).
      destruct (find_anywhere from_location (S i0) rest) as [i|].
      * destruct IH as (l & Hle & Hl & Hc). exists l. split; [lia|].
        split; [|done]. replace (i - i0) with (S (i - S i0)) by lia. done.
      * intros l Hl. apply elem_of_cons in Hl as [->|Hl]; [done|by apply IH].
Qed.

Lemma rewritten_line_spec lines robot_id from_location :
  match rewritten_line lines robot_id from_location with
  | Some i => ∃ line, lines !! i = Some line ∧ candidate from_location line = true
  | None => ∀ line, line ∈ lines → candidate from_location line = false
  end.
Proof.
  unfold rewritten_line.
  destruct (find_in_block _ _ 0 _ None lines) as [i|] eqn:E.
  - destruct (find_in_block_candidate _ _ _ _ _ _ _ E) as (l & _ & Hl & Hc).
    rewrite Nat.sub_0_r in Hl. by exists l.
  - pose proof (find_anywhere_spec from_location lines 0) as H.
    destruct (find_anywhere from_location 0 lines) as [i|]; [|done].
    destruct H as (l & _ & Hl & Hc). rewrite Nat.sub_0_r in Hl. by exists l.
Qed.

(** X1.  [save_incremental_update_to_ttl] returns [False] exactly when no
    line of the file has both [:robotIsInSpace] and the old location on
    it, whatever the robot; when it succeeds, the new file is the old
    one with one such line rewritten, line for line. *)
Theorem rewrite_fails_without_candidate
    (lines : list string) (robot_id from_location to_location : string) :
  (save_incremental_update_to_ttl (Some lines) robot_id from_location to_location
     = None
   ↔ ∀ line, line ∈ lines → candidate from_location line = false) ∧
  (∀ updated,
     save_incremental_update_to_ttl (Some lines) robot_id from_location to_location
       = Some updated →
     length updated = length lines ∧
     ∃ i line,
       lines !! i = Some line ∧ candidate from_location line = true ∧
       updated !! i = Some (rewrite_line from_location to_location line) ∧
       ∀ j, j ≠ i → updated !! j = lines !! j).
Proof.
  unfold save_incremental_update_to_ttl.
  pose proof (rewritten_line_spec lines robot_id from_location) as H.
  destruct (rewritten_line lines robot_id from_location) as [i|].
  - destruct H as (line & Hl & Hc). rewrite Hl. split.
    + split; [done|]. intros Hall. exfalso.
      rewrite (Hall line) in Hc; [done|]. by eapply list_elem_of_lookup_2.
    + intros updated [= <-]. split; [by rewrite length_insert|].
      exists i, line. split; [done|]. split; [done|]. split.
      * apply list_lookup_insert_eq. by eapply lookup_lt_Some.
      * intros j Hj. by apply list_lookup_insert_ne.
  - split; [done|]. intros updated [=].
Qed.

End RewriterEdgeFacts.

(* ===================================================================== *)
(** * The graph diff of a move *)
(* ===================================================================== *)

Module MoveDiffFacts.
Import PyStr Rdf WorldUpdate StringFacts RewriterFacts RewriterEdgeFacts.

(** ** Classes of characters *)





Lemma name_char_no_colon c : is_name_char c = true → negb (Ascii.eqb ":" c) = true.
Proof. destruct c as [[] [] [] [] [] [] [] []]; vm_compute; congruence. Qed.




Lemma space_no_name_char c : is_space c = true → is_name_char c = false.
Proof. destruct c as [[] [] [] [] [] [] [] []]; vm_compute; congruence. Qed.



(** ** Tokens *)









(** ** The line of the location *)




(** ** The replacement *)








(** ** The search *)





(** ** Reading the line *)







(** ** Parses without blank nodes *)








(** ** The diff *)



(** rdflib on a file the reader takes on: two parses that would name
    a blank node differently. *)
Definition first_run : parse_run := ParseRun (λ label, "N1" +:+ label) (λ _, None).
Definition second_run : parse_run := ParseRun (λ label, "N2" +:+ label) (λ _, None).


End MoveDiffFacts.
(* ===================================================================== *)
(** * More on the SPARQL generator *)
(* ===================================================================== *)

Module SparqlShapeFacts.
Import PyStr Rdf WorldUpdate.

(** The DELETE loops keep one line per key and no key twice. *)
Definition tidy (st : delete_state) : Prop :=
  NoDup (delete_triples_set st) ∧
  length (delete_clauses st) = length (delete_triples_set st).

Lemma add_delete_tidy line k st : tidy st → tidy (add_delete line k st).
Proof.
  intros [Hnd Hlen]. unfold add_delete. case_decide as Hk; [done|].
  split; simpl.
  - apply NoDup_app. split; [done|]. split; [|apply NoDup_singleton].
    intros x Hx Hx'. by apply list_elem_of_singleton in Hx' as ->.
  - rewrite !length_app. simpl. lia.
Qed.

Lemma foldl_tidy {A} (f : delete_state → A → delete_state) (l : list A) st :
  (∀ st x, tidy st → tidy (f st x)) → tidy st → tidy (foldl f st l).
Proof.
  intros Hf. revert st. induction l as [|x l IH]; intros st H; simpl; [done|].
  by apply IH, Hf.
Qed.

Lemma add_inferred_tidy m ns acc t : tidy acc.1 → tidy (add_inferred m ns acc t).1.
Proof.
  intros H. unfold add_inferred. destruct acc.2; [done|].
  destruct (inferred_for m ns t) as [keys|]; [|done]. simpl.
  apply foldl_tidy; [|done]. intros st' k Hst'. by apply add_delete_tidy.
Qed.

Lemma foldl_first {A B} (P : A → Prop) (f : A * bool → B → A * bool)
    (l : list B) acc :
  (∀ acc x, P acc.1 → P (f acc x).1) → P acc.1 → P (foldl f acc l).1.
Proof.
  intros Hf. revert acc. induction l as [|x l IH]; intros acc H; simpl; [done|].
  by apply IH, Hf.
Qed.

Lemma build_delete_tidy removed mapping ns : tidy (build_delete removed mapping ns).
Proof.
  unfold build_delete, run_delete.
  assert (H1 : tidy (foldl add_asserted (DeleteState [] []) removed)).
  { apply foldl_tidy.
    - intros st [[s p] o] H. by apply add_delete_tidy.
    - split; [constructor|done]. }
  destruct mapping as [m|]; [|done]. destruct (Py.is_truthy m); [|done].
  apply (foldl_first tidy); [|done]. intros acc t. apply add_inferred_tidy.
Qed.









(** X3.  The DELETE block never states a triple twice: the keys the
    generator tracks are pairwise distinct, and the block has one line
    for each of them. *)
Theorem delete_block_without_repetition
    (removed_triples : list triple) (mapping : option Py.value)
    (namespace : string) :
  let st := build_delete removed_triples mapping namespace in
  NoDup (delete_triples_set st) ∧
  length (delete_clauses st) = length (delete_triples_set st).
Proof. apply build_delete_tidy. Qed.



(** A mapping whose entry for [robotIsInSpace] has no ["type"]: the
    lookup raises [KeyError] and the generator returns the empty
    string for a diff that is not empty. *)
Example entry_without_type :
  generate_sparql_update [] [SparqlFacts.removed_move]
    (Some (Py.Dict
       [("mappings",
         Py.Dict
           [("robotIsInSpace",
             Py.Dict
               [("inferred_relationships",
                 Py.List [Py.Dict [("relationship", Py.Str "objectIsInSpace")]])])])]))
    default_namespace
  = EmptyString.
Proof. vm_compute. reflexivity. Qed.

End SparqlShapeFacts.
(* ===================================================================== *)
(** * More on the path expansion and the topology *)
(* ===================================================================== *)

Module TopologyShapeFacts.
Import Topology.

(** A table that holds a pair holds the reversed pair, with the same
    distance. *)
Definition symmetric (d : distance_table) : Prop :=
  ∀ a b, d !! (a, b) = d !! (b, a).

Lemma symmetric_insert d a b n :
  symmetric d → symmetric (<[(b, a) := n]> (<[(a, b) := n]> d)).
Proof.
  intros H x y. rewrite !lookup_insert.
  repeat case_decide; simplify_eq; first [done|apply H].
Qed.

Lemma symmetric_set_default d a b n :
  symmetric d → symmetric (set_default (b, a) n (set_default (a, b) n d)).
Proof.
  intros H. unfold set_default at 2.
  destruct (d !! (a, b)) as [m|] eqn:E.
  - unfold set_default. rewrite <- H, E. done.
  - unfold set_default. destruct (decide (a = b)) as [->|Hne].
    + rewrite lookup_insert_eq. intros x y. rewrite !lookup_insert.
      repeat case_decide; simplify_eq; first [done|apply H].
    + rewrite lookup_insert_ne by congruence. rewrite <- H, E.
      by apply symmetric_insert.
Qed.

Lemma record_from_symmetric node1 offset rest d :
  symmetric d → symmetric (record_from node1 offset rest d).
Proof.
  revert offset d. induction rest as [|node2 rest IH]; intros offset d H; simpl;
    [done|].
  by apply IH, symmetric_set_default.
Qed.

Lemma record_subpaths_symmetric path d :
  symmetric d → symmetric (record_subpaths path d).
Proof.
  revert d. induction path as [|node1 rest IH]; intros d H; simpl; [done|].
  by apply IH, record_from_symmetric.
Qed.

Lemma record_row_symmetric acc r :
  symmetric acc.2 → symmetric (record_row acc r).2.
Proof.
  destruct acc as [locs d]. simpl. intros H. unfold record_row.
  destruct (path_nodes r) as [[|n ns]|], (path_length r) as [len|];
    try (destruct (has_direct_connection r); simpl;
         [by apply symmetric_insert|done]).
  apply (record_subpaths_symmetric (n :: ns)). by apply symmetric_insert.
Qed.

Lemma rows_symmetric rows acc :
  symmetric acc.2 → symmetric (foldl record_row acc rows).2.
Proof.
  revert acc. induction rows as [|r rows IH]; intros acc H; simpl; [done|].
  by apply IH, record_row_symmetric.
Qed.

Lemma symmetric_empty : symmetric ∅.
Proof. intros a b. by rewrite !lookup_empty. Qed.

Lemma add_direct_symmetric conns d :
  symmetric d → symmetric (foldl add_direct d conns).
Proof.
  revert d. induction conns as [|[a b] conns IH]; intros d H; simpl; [done|].
  by apply IH, symmetric_set_default.
Qed.

(** X5.  The distance table the synthesizer emits is symmetric, whatever
    the two queries answer: a pair and its reverse are both in the
    table or both out of it, with the same distance. *)
Theorem emitted_distances_symmetric
    (shortest_paths : list (string * string) → list path_record)
    (direct_edges : list string → list (string * string))
    (location_ids : list string) (artifact_pairs : list (string * string))
    (a b : string) :
  (get_locations_with_paths shortest_paths location_ids artifact_pairs).2 !! (a, b)
  = (get_locations_with_paths shortest_paths location_ids artifact_pairs).2 !! (b, a)
  ∧
  (emitted_distances shortest_paths direct_edges location_ids artifact_pairs).2
    !! (a, b)
  = (emitted_distances shortest_paths direct_edges location_ids artifact_pairs).2
    !! (b, a).
Proof.
  assert (H : symmetric
            (get_locations_with_paths shortest_paths location_ids artifact_pairs).2).
  { unfold get_locations_with_paths. destruct (length location_ids <? 2).
    - apply symmetric_empty.
    - apply rows_symmetric, symmetric_empty. }
  split; [apply H|].
  unfold emitted_distances.
  destruct (get_locations_with_paths shortest_paths location_ids artifact_pairs)
    as [locs d]. simpl in *.
  unfold get_topology. case_decide; simpl; [apply symmetric_empty|].
  by apply add_direct_symmetric.
Qed.

(** ** The expanded location set *)

Lemma record_row_locations acc r x :
  x ∈ acc.1 → x ∈ (record_row acc r).1.
Proof.
  destruct acc as [locs d]. simpl. intros H. unfold record_row.
  destruct (path_nodes r) as [[|n ns]|], (path_length r) as [len|];
    try (destruct (has_direct_connection r); done).
  cbv [fst]. set_solver.
Qed.

Lemma rows_keep_locations rows acc x :
  x ∈ acc.1 → x ∈ (foldl record_row acc rows).1.
Proof.
  revert acc. induction rows as [|r rows IH]; intros acc H; simpl; [done|].
  by apply IH, record_row_locations.
Qed.

Lemma rows_add_path_nodes rows acc r p len x :
  r ∈ rows → path_nodes r = Some p → path_length r = Some len → x ∈ p →
  x ∈ (foldl record_row acc rows).1.
Proof.
  revert acc. induction rows as [|r0 rows IH]; intros acc Hr Hp Hl Hx; simpl.
  - by apply elem_of_nil in Hr.
  - apply elem_of_cons in Hr as [<-|Hr]; [|by eapply IH].
    apply rows_keep_locations. destruct acc as [locs d]. unfold record_row.
    rewrite Hp, Hl. destruct p as [|n ns]; [by apply elem_of_nil in Hx|].
    cbv [fst]. apply elem_of_union. right. by apply elem_of_list_to_set.
Qed.

Lemma required_locations_spec location_ids artifact_pairs x :
  x ∈ required_locations location_ids artifact_pairs ↔
  x ∈ location_ids ∨ ∃ a b, (a, b) ∈ artifact_pairs ∧ (x = a ∨ x = b).
Proof.
  unfold required_locations.
  assert (H : ∀ (s : gset string),
            x ∈ foldl (λ (s : gset string) '(a, b), s ∪ {[a]} ∪ {[b]}) s artifact_pairs
            ↔ x ∈ s ∨ ∃ a b, (a, b) ∈ artifact_pairs ∧ (x = a ∨ x = b)).
  { induction artifact_pairs as [|[a b] l IH]; intros s; simpl.
    - split; [by left|]. intros [?|(a & b & H & _)]; [done|].
      by apply elem_of_nil in H.
    - rewrite IH. rewrite !elem_of_union, !elem_of_singleton. split.
      + intros [[[?| ->]| ->]|(a' & b' & H & Hx)].
        * by left.
        * right. exists a, b. split; [by left|by left].
        * right. exists a, b. split; [by left|by right].
        * right. exists a', b'. split; [by right|done].
      + intros [?|(a' & b' & H & Hx)]; [by left; left; left|].
        apply elem_of_cons in H as [[= -> ->]|H].
        * destruct Hx as [-> | ->]; [left; left; by right|left; by right].
        * right. by exists a', b'. }
  rewrite H. by rewrite elem_of_list_to_set.
Qed.

(** X6.  The path expansion never loses a location it was given; with two
    locations or more it also holds the two ends of every artifact
    pair and every node of every path the query returned; with fewer
    than two locations it returns them as they are, artifact pairs
    unread and no distance recorded. *)
Theorem expansion_keeps_locations
    (shortest_paths : list (string * string) → list path_record)
    (location_ids : list string) (artifact_pairs : list (string * string)) :
  let result := get_locations_with_paths shortest_paths location_ids artifact_pairs in
  (∀ x, x ∈ location_ids → x ∈ result.1) ∧
  (2 ≤ length location_ids →
   (∀ a b, (a, b) ∈ artifact_pairs → a ∈ result.1 ∧ b ∈ result.1) ∧
   (∀ r p len x,
      r ∈ shortest_paths (queried_pairs location_ids artifact_pairs) →
      path_nodes r = Some p → path_length r = Some len → x ∈ p →
      x ∈ result.1)) ∧
  (length location_ids < 2 → result = (list_to_set location_ids, ∅)).
Proof.
  unfold get_locations_with_paths. simpl.
  destruct (length location_ids <? 2) eqn:E.
  - apply Nat.ltb_lt in E. split; [|split; [lia|done]].
    intros x Hx. simpl. by apply elem_of_list_to_set.
  - apply Nat.ltb_ge in E. split; [|split; [|lia]].
    + intros x Hx. apply rows_keep_locations. simpl.
      apply required_locations_spec. by left.
    + intros _. split.
      * intros a b Hab. split; apply rows_keep_locations; simpl;
          apply required_locations_spec; right; exists a, b; split; try done;
          [by left|by right].
      * intros r p len x Hr Hp Hl Hx. by eapply rows_add_path_nodes.
Qed.

(** On three rooms in a row. *)
Lemma expansion_keeps_locations_witness :
  "hall" ∈ (get_locations_with_paths
              (λ _, [PathRecord "bath" "kitchen"
                       (Some ["bath"; "hall"; "kitchen"]) (Some 2) false])
              ["kitchen"; "bath"] []).1.
Proof.
  destruct (expansion_keeps_locations
              (λ _, [PathRecord "bath" "kitchen"
                       (Some ["bath"; "hall"; "kitchen"]) (Some 2) false])
              ["kitchen"; "bath"] []) as (_ & H & _).
  destruct H as [_ H]; [simpl; lia|].
  apply (H (PathRecord "bath" "kitchen"
              (Some ["bath"; "hall"; "kitchen"]) (Some 2) false)
           ["bath"; "hall"; "kitchen"] 2 "hall").
  - by left.
  - reflexivity.
  - reflexivity.
  - right. by left.
Defined.

(** ** The connections *)

(** No pair twice, and no pair in both directions. *)
Definition one_way (connections : list (string * string)) : Prop :=
  NoDup connections ∧
  ∀ a b, (a, b) ∈ connections → (b, a) ∈ connections → a = b.

Lemma add_connection_one_way connections row :
  one_way connections → one_way (add_connection connections row).
Proof.
  intros [Hnd Hone]. destruct row as [f t]. unfold add_connection.
  case_decide as Hin; [done|]. split.
  - apply NoDup_app. split; [done|]. split; [|apply NoDup_singleton].
    intros x Hx Hx'. apply list_elem_of_singleton in Hx' as ->. apply Hin. by left.
  - intros a b. rewrite !elem_of_app, !list_elem_of_singleton.
    intros [H1|[= -> ->]] [H2|[= E1 E2]]; try by subst.
    + by apply Hone.
    + subst. exfalso. apply Hin. by right.
    + exfalso. apply Hin. by right.
Qed.

Lemma add_connection_spec rows connections :
  let result := foldl add_connection connections rows in
  (∀ c, c ∈ result → c ∈ connections ∨ c ∈ rows) ∧
  (∀ c, c ∈ connections → c ∈ result) ∧
  (∀ a b, (a, b) ∈ rows → (a, b) ∈ result ∨ (b, a) ∈ result).
Proof.
  revert connections. induction rows as [|[f t] rows IH]; intros connections; simpl.
  - split; [by left|]. split; [done|]. intros a b H. by apply elem_of_nil in H.
  - destruct (IH (add_connection connections (f, t))) as (H1 & H2 & H3).
    assert (Hadd : ∀ c, c ∈ add_connection connections (f, t) →
              c ∈ connections ∨ c = (f, t)).
    { intros c. unfold add_connection. case_decide; [by left|].
      rewrite elem_of_app, list_elem_of_singleton. tauto. }
    assert (Hkeep : ∀ c, c ∈ connections → c ∈ add_connection connections (f, t)).
    { intros c Hc. unfold add_connection. case_decide; [done|].
      apply elem_of_app. by left. }
    assert (Hnew : (f, t) ∈ add_connection connections (f, t)
                   ∨ (t, f) ∈ add_connection connections (f, t)).
    { unfold add_connection. case_decide as Hin.
      - destruct Hin; [by left|by right].
      - left. apply elem_of_app. right. by apply list_elem_of_singleton. }
    split; [|split].
    + intros c Hc. destruct (H1 c Hc) as [Hc'|Hc']; [|right; by right].
      destruct (Hadd c Hc') as [?| ->]; [by left|right; by left].
    + intros c Hc. by apply H2, Hkeep.
    + intros a b Hab. apply elem_of_cons in Hab as [[= -> ->]|Hab]; [|by apply H3].
      destruct Hnew as [Hn|Hn]; [left|right]; by apply H2.
Qed.

Lemma set_default_keeps d k n k' v :
  d !! k' = Some v → set_default k n d !! k' = Some v.
Proof.
  intros H. unfold set_default. destruct (d !! k) eqn:E; [done|].
  rewrite lookup_insert_ne; [done|]. congruence.
Qed.

Lemma set_default_there d k n : is_Some (set_default k n d !! k).
Proof.
  unfold set_default. destruct (d !! k) eqn:E; [by rewrite E|].
  rewrite lookup_insert_eq. eauto.
Qed.

Lemma add_direct_spec conns d :
  (∀ k v, d !! k = Some v → foldl add_direct d conns !! k = Some v) ∧
  (∀ a b, (a, b) ∈ conns →
     is_Some (foldl add_direct d conns !! (a, b)) ∧
     is_Some (foldl add_direct d conns !! (b, a))).
Proof.
  revert d. induction conns as [|[f t] conns IH]; intros d; simpl.
  - split; [done|]. intros a b H. by apply elem_of_nil in H.
  - destruct (IH (set_default (t, f) 1 (set_default (f, t) 1 d))) as [H1 H2].
    split.
    + intros k v Hk. by apply H1, set_default_keeps, set_default_keeps.
    + intros a b Hab. apply elem_of_cons in Hab as [[= -> ->]|Hab]; [|by apply H2].
      destruct (set_default_there d (f, t) 1) as [v1 Hv1].
      destruct (set_default_there (set_default (f, t) 1 d) (t, f) 1) as [v2 Hv2].
      split.
      * exists v1. by apply H1, set_default_keeps.
      * exists v2. by apply H1.
Qed.

(** X7.  [get_topology] lists every connected pair once and in one direction
    only, each from a row of the query and each row covered; it never
    overwrites a precomputed distance, and gives every connection a
    distance in both directions.  For an empty location set it returns
    nothing, the precomputed distances included. *)
Theorem topology_connections_one_way
    (direct_edges : list string → list (string * string))
    (location_ids : gset string) (precomputed_distances : distance_table) :
  let topology := get_topology direct_edges location_ids precomputed_distances in
  (location_ids = ∅ → topology = ([], ∅)) ∧
  (location_ids ≠ ∅ →
   NoDup topology.1 ∧
   (∀ a b, (a, b) ∈ topology.1 → (b, a) ∈ topology.1 → a = b) ∧
   (∀ c, c ∈ topology.1 → c ∈ direct_edges (elements location_ids)) ∧
   (∀ a b, (a, b) ∈ direct_edges (elements location_ids) →
      (a, b) ∈ topology.1 ∨ (b, a) ∈ topology.1) ∧
   (∀ k v, precomputed_distances !! k = Some v → topology.2 !! k = Some v) ∧
   (∀ a b, (a, b) ∈ topology.1 →
      is_Some (topology.2 !! (a, b)) ∧ is_Some (topology.2 !! (b, a)))).
Proof.
  unfold get_topology. simpl. case_decide as He; (split; [done|]); [done|].
  intros _. simpl.
  destruct (add_connection_spec (direct_edges (elements location_ids)) [])
    as (H1 & _ & H3).
  assert (Hone : one_way (foldl add_connection []
                            (direct_edges (elements location_ids)))).
  { generalize (direct_edges (elements location_ids)). intros rows.
    assert (H : ∀ conns, one_way conns → one_way (foldl add_connection conns rows)).
    { induction rows as [|r rows IH]; intros conns Hc; simpl; [done|].
      by apply IH, add_connection_one_way. }
    apply H. split; [constructor|]. intros a b Hab. by apply elem_of_nil in Hab. }
  destruct Hone as [Hnd Hdir].
  destruct (add_direct_spec
              (foldl add_connection [] (direct_edges (elements location_ids)))
              precomputed_distances) as [Hkeep Hboth].
  split; [done|]. split; [done|]. split.
  { intros c Hc. destruct (H1 c Hc) as [H|H]; [by apply elem_of_nil in H|done]. }
  split; [done|]. split; [done|]. done.
Qed.

(** On a corridor with its edge stored in both directions. *)
Lemma topology_connections_one_way_witness :
  NoDup (get_topology (λ _, [("a", "b"); ("b", "a")]) {["a"; "b"]} ∅).1 ∧
  is_Some ((get_topology (λ _, [("a", "b"); ("b", "a")]) {["a"; "b"]} ∅).2
             !! ("b", "a")).
Proof.
  destruct (topology_connections_one_way (λ _, [("a", "b"); ("b", "a")])
              {["a"; "b"]} ∅) as [_ H].
  destruct H as (Hnd & _ & _ & _ & _ & Hboth); [done|].
  split; [done|]. apply (Hboth "a" "b"). vm_compute. by left.
Defined.

End TopologyShapeFacts.

(* ===================================================================== *)
(** * The shape of the projection after a sync *)
(* ===================================================================== *)

Module ProjectionShapeFacts.
Import Neo4j ProjectionFacts SyncFacts Owl Exc Store StoreFacts RobotEdgeFacts.

Lemma good_same_names r ps ps' g :
  (∀ x, x ∈ ps ↔ x ∈ ps') → good r ps g → good r ps' g.
Proof.
  intros Heq Hg. split.
  - intros k n Hk Hi. destruct (good_ids r ps g Hg k n Hk Hi) as (x & Hx & Hid).
    exists x. split; [by apply Heq|done].
  - apply (good_unique r ps g Hg).
  - intros x Hx. apply (good_present r ps g Hg). by apply Heq.
  - apply (good_closed r ps g Hg).
  - apply (good_edges r ps g Hg).
  - apply (good_nodup r ps g Hg).
Qed.

Lemma sync_nodes_good w r l ps g :
  (∀ p, p ∈ data_properties (w_schema w) → p_name p ≠ "id") →
  good r ps g →
  ∃ ps', (∀ x, x ∈ ps' ↔ x ∈ map i_name l ∨ x ∈ ps) ∧
         good r ps' (foldl (sync_node w r) g l).
Proof.
  intros Hid. revert ps g. induction l as [|i l IH]; intros ps g Hg; simpl.
  - exists ps. split; [|done]. intros x. split; [by right|].
    intros [H|H]; [by apply elem_of_nil in H|done].
  - destruct (IH (i_name i :: ps) (sync_node w r g i)) as (ps' & Hps' & Hg').
    { by apply sync_node_good. }
    exists ps'. split; [|done]. intros x. rewrite Hps', !elem_of_cons. tauto.
Qed.

(** After a successful sync the projection is [good] for exactly the
    names of the individuals. *)
Lemma sync_good E skip st st' n m :
  sync_to_neo4j E skip st = (st', SyncSuccess n m) →
  (∀ p, p ∈ data_properties (w_schema (world st)) → p_name p ≠ "id") →
  good (inferred st') (map i_name (individuals (world st))) (projection st').
Proof.
  unfold sync_to_neo4j.
  destruct (if skip then Some (inferred st) else reason E (world st))
    as [r|]; [|discriminate].
  cbv zeta. intros [= <- _ _] Hid. simpl in *.
  destruct (sync_nodes_good (world st) r (individuals (world st)) []
              (detach_delete "Individual" (projection st)) Hid
              (detach_delete_good r (projection st))) as (ps & Hps & Hg).
  eapply good_similar; [apply handle_embeddings_similar|].
  apply (foldl_keeps (good r (map i_name (individuals (world st))))).
  { intros g i _ Hgi. by apply sync_edges_good. }
  eapply good_same_names; [|done]. intros x. rewrite Hps. split; [|by left].
  intros [H|H]; [done|by apply elem_of_nil in H].
Qed.

Lemma match_nodes_NoDup ls id g : NoDup (match_nodes ls id g).
Proof. unfold match_nodes. apply NoDup_fst_map_to_list. Qed.

Lemma one_element {A} (l : list A) x :
  NoDup l → x ∈ l → (∀ y, y ∈ l → y = x) → l = [x].
Proof.
  intros Hnd Hx Hall. destruct l as [|a [|b l]].
  - by apply elem_of_nil in Hx.
  - f_equal. apply Hall. by left.
  - exfalso. apply NoDup_cons in Hnd as [Hnd _]. apply Hnd.
    rewrite (Hall a), <- (Hall b); [by left|right; by left|by left].
Qed.

Lemma stranger_has_no_node r names g x :
  good r names g → x ∉ names → match_nodes ["Individual"] x g = [].
Proof.
  intros Hg Hx. destruct (match_nodes ["Individual"] x g) as [|k l] eqn:Em; [done|].
  exfalso. assert (Hk : k ∈ match_nodes ["Individual"] x g) by (rewrite Em; by left).
  apply match_nodes_spec in Hk as (node & Hn & Hm).
  apply matches_individual in Hm as [Hi Hidx].
  destruct (good_ids r names g Hg k node Hn Hi) as (y & Hy & Hidy).
  by rewrite (id_is_inj node x y Hidx Hidy) in Hx.
Qed.

(** X8.  After a sync that succeeds, in an ontology with no data property
    named [id], the [Individual] nodes of the projection are the
    individuals of the model, one node each: an individual has exactly
    one node with its name as [id], labelled with its reasoned classes,
    and no node carries the [id] of anything else. *)
Theorem one_node_per_individual (E : environment) (skip : bool)
    (st st' : manager) (n_individuals n_relationships : nat) :
  sync_to_neo4j E skip st = (st', SyncSuccess n_individuals n_relationships) →
  (∀ p, p ∈ data_properties (w_schema (world st)) → p_name p ≠ "id") →
  (∀ x, x ∈ map i_name (individuals (world st)) →
     ∃ k node,
       match_nodes ["Individual"] x (projection st') = [k] ∧
       nodes (projection st') !! k = Some node ∧
       ∀ c, c ∈ class_labels (inferred st') x → c ∈ labels node) ∧
  (∀ x, x ∉ map i_name (individuals (world st)) →
     match_nodes ["Individual"] x (projection st') = []).
Proof.
  intros Hsync Hid. pose proof (sync_good E skip st st' _ _ Hsync Hid) as Hg.
  set (r := inferred st') in *. set (g := projection st') in *.
  set (names := map i_name (individuals (world st))) in *.
  split.
  - intros x Hx. destruct (good_present r names g Hg x Hx) as (k & node & Hk & Hm).
    apply matches_spec in Hm as [Hl Hidx].
    exists k, node. split; [|split; [done|]].
    + apply one_element; [apply match_nodes_NoDup| |].
      * apply match_nodes_spec. exists node. split; [done|].
        apply matches_individual. split; [|done]. apply Hl. by left.
      * intros k' Hk'. apply match_nodes_spec in Hk' as (node' & Hn' & Hm').
        apply matches_individual in Hm' as [Hi' Hid'].
        apply (good_unique r names g Hg k' k node' node x); try done.
        apply Hl. by left.
    + intros c Hc. apply Hl. by right.
  - intros x Hx. by eapply stranger_has_no_node.
Qed.

(** At the house with its robot. *)
Lemma one_node_per_individual_witness :
  ∃ k node,
    match_nodes ["Individual"] "robot1"
      (projection (sync_to_neo4j plain_environment false house_one_place).1) = [k] ∧
    nodes (projection (sync_to_neo4j plain_environment false house_one_place).1)
      !! k = Some node ∧
    ∀ c, c ∈ class_labels
               (inferred (sync_to_neo4j plain_environment false house_one_place).1)
               "robot1" →
         c ∈ labels node.
Proof.
  destruct (one_node_per_individual plain_environment false house_one_place
              (sync_to_neo4j plain_environment false house_one_place).1 3 1)
    as [H _].
  - vm_compute. reflexivity.
  - intros p Hp. vm_compute in Hp.
    repeat (apply elem_of_cons in Hp as [->|Hp]; [discriminate|]).
    by apply elem_of_nil in Hp.
  - apply H. vm_compute. right. right. by left.
Defined.

(** ** The edges between individuals *)

(** [g'] has the nodes of [g] and at least its edges. *)
Definition grows (g g' : graph) : Prop :=
  nodes g' = nodes g ∧ ∀ e, e ∈ edges g → e ∈ edges g'.

Lemma grows_refl g : grows g g.
Proof. by split. Qed.

Lemma grows_trans g1 g2 g3 : grows g1 g2 → grows g2 g3 → grows g1 g3.
Proof. intros [H1 H2] [H3 H4]. split; [congruence|]. intros e He. by apply H4, H2. Qed.

Lemma merge_edge_grows t a b g : grows g (merge_edge t a b g).
Proof.
  unfold merge_edge. case_decide; [apply grows_refl|]. split; [done|].
  intros e He. simpl. apply elem_of_app. by left.
Qed.

Lemma merge_edge_adds t a b g : (a, t, b) ∈ edges (merge_edge t a b g).
Proof.
  unfold merge_edge. case_decide; [done|]. simpl.
  apply elem_of_app. right. by apply list_elem_of_singleton.
Qed.

(** A loop whose steps only add edges, each step adding the edges
    [new] tells for it on the nodes of the graph, adds them all. *)
Lemma foldl_adds {A} (f : graph → A → graph)
    (new : gmap nat node → A → edge → Prop) (l : list A) (g : graph) :
  (∀ g y, grows g (f g y)) →
  (∀ g y e, new (nodes g) y e → e ∈ edges (f g y)) →
  grows g (foldl f g l) ∧
  ∀ y e, y ∈ l → new (nodes g) y e → e ∈ edges (foldl f g l).
Proof.
  intros Hgrow Hadd. revert g. induction l as [|x l IH]; intros g; simpl.
  - split; [apply grows_refl|]. intros y e Hy. by apply elem_of_nil in Hy.
  - destruct (IH (f g x)) as [Hg Hnew]. destruct (Hgrow g x) as [Hn He].
    split; [by eapply grows_trans|].
    intros y e Hy Hnw. apply elem_of_cons in Hy as [->|Hy].
    + destruct Hg as [_ Hg]. by apply Hg, Hadd.
    + apply (Hnew y); [done|]. by rewrite Hn.
Qed.

Definition matching (N : gmap nat node) (l id : string) : list nat :=
  match_nodes [l] id (Graph N []).

Lemma matching_nodes l id g : match_nodes [l] id g = matching (nodes g) l id.
Proof. done. Qed.

Lemma merge_edges_grows_adds la ida t lb idb g :
  grows g (merge_edges la ida t lb idb g) ∧
  ∀ a b, a ∈ match_nodes [la] ida g → b ∈ match_nodes [lb] idb g →
         (a, t, b) ∈ edges (merge_edges la ida t lb idb g).
Proof.
  unfold merge_edges.
  destruct (foldl_adds
              (λ g a, foldl (λ g b, merge_edge t a b g) g (match_nodes [lb] idb g))
              (λ N a e, ∃ b, b ∈ matching N lb idb ∧ e = (a, t, b))
              (match_nodes [la] ida g) g) as [Hg Hnew].
  - intros g0 a.
    apply (foldl_adds (λ g b, merge_edge t a b g) (λ _ _ _, False)).
    + intros. apply merge_edge_grows.
    + done.
  - intros g0 a e (b & Hb & ->).
    destruct (foldl_adds (λ g b, merge_edge t a b g) (λ _ b e, e = (a, t, b))
                (match_nodes [lb] idb g0) g0) as [_ H].
    + intros. apply merge_edge_grows.
    + intros g1 b' e ->. apply merge_edge_adds.
    + by apply (H b).
  - split; [done|]. intros a b Ha Hb. apply (Hnew a); [done|]. by exists b.
Qed.

Lemma sync_edges_grows_adds w r g i :
  grows g (sync_edges w r g i) ∧
  ∀ p v a b,
    p ∈ object_properties (w_schema w) →
    v ∈ indirect_values r (i_name i) (p_name p) →
    a ∈ match_nodes ["Individual"] (i_name i) g →
    b ∈ match_nodes ["Individual"] v g →
    (a, p_name p, b) ∈ edges (sync_edges w r g i).
Proof.
  unfold sync_edges.
  destruct (foldl_adds
              (λ g p, foldl (λ g value,
                 merge_edges "Individual" (i_name i) (p_name p) "Individual" value g)
                 g (indirect_values r (i_name i) (p_name p)))
              (λ N p e, ∃ v a b,
                 v ∈ indirect_values r (i_name i) (p_name p) ∧
                 a ∈ matching N "Individual" (i_name i) ∧
                 b ∈ matching N "Individual" v ∧ e = (a, p_name p, b))
              (object_properties (w_schema w)) g) as [Hg Hnew].
  - intros g0 p.
    apply (foldl_adds _ (λ _ _ _, False)); [|done].
    intros. apply merge_edges_grows_adds.
  - intros g0 p e (v & a & b & Hv & Ha & Hb & ->).
    destruct (foldl_adds
                (λ g value,
                   merge_edges "Individual" (i_name i) (p_name p) "Individual" value g)
                (λ N v e, ∃ a b,
                   a ∈ matching N "Individual" (i_name i) ∧
                   b ∈ matching N "Individual" v ∧ e = (a, p_name p, b))
                (indirect_values r (i_name i) (p_name p)) g0) as [_ H].
    + intros. apply merge_edges_grows_adds.
    + intros g1 v' e (a' & b' & Ha' & Hb' & ->).
      by apply merge_edges_grows_adds.
    + apply (H v); [done|]. by exists a, b.
  - split; [done|]. intros p v a b Hp Hv Ha Hb.
    apply (Hnew p); [done|]. by exists v, a, b.
Qed.

Lemma similar_match g g' ls x k :
  similar g g' → k ∈ match_nodes ls x g' ↔ k ∈ match_nodes ls x g.
Proof.
  intros Hs. rewrite !match_nodes_spec. split.
  - intros (n' & Hk & Hm). destruct (similar_back g g' k n' Hs Hk) as (n & Hn & Ha).
    exists n. split; [done|]. by apply (alike_matches ls x n n').
  - intros (n & Hk & Hm). destruct (similar_forth g g' k n Hs Hk) as (n' & Hn & Ha).
    exists n'. split; [done|]. by apply (alike_matches ls x n n').
Qed.

(** X9.  After a sync that succeeds, the edges between [Individual] nodes
    are the object property values of the reasoned model: every value
    of every object property of every individual has its edge, and, in
    an ontology with no data property named [id], an edge that leaves
    an individual's node and is no [INSTANCE_OF] edge stands for one of
    its values. *)
Theorem edges_are_reasoned_values (E : environment) (skip : bool)
    (st st' : manager) (n_individuals n_relationships : nat) :
  sync_to_neo4j E skip st = (st', SyncSuccess n_individuals n_relationships) →
  (∀ i p v a b,
     i ∈ individuals (world st) →
     p ∈ object_properties (w_schema (world st)) →
     v ∈ indirect_values (inferred st') (i_name i) (p_name p) →
     a ∈ match_nodes ["Individual"] (i_name i) (projection st') →
     b ∈ match_nodes ["Individual"] v (projection st') →
     (a, p_name p, b) ∈ edges (projection st')) ∧
  ((∀ p, p ∈ data_properties (w_schema (world st)) → p_name p ≠ "id") →
   ∀ x a t b,
     (a, t, b) ∈ edges (projection st') →
     a ∈ match_nodes ["Individual"] x (projection st') →
     t ≠ "INSTANCE_OF" →
     ∃ v, v ∈ indirect_values (inferred st') x t ∧
          b ∈ match_nodes ["Individual"] v (projection st')).
Proof.
  intros Hsync. split.
  - revert Hsync. unfold sync_to_neo4j.
    destruct (if skip then Some (inferred st) else reason E (world st))
      as [r|]; [|discriminate].
    cbv zeta. intros [= <- _ _]. simpl.
    set (w := world st).
    set (g2 := foldl (sync_node w r) (detach_delete "Individual" (projection st))
                     (individuals w)).
    set (g3 := foldl (sync_edges w r) g2 (individuals w)).
    pose proof (handle_embeddings_similar E (with_inferred st r) g3) as Hs.
    intros i p v a b Hi Hp Hv Ha Hb.
    destruct Hs as [He Hn]. rewrite He.
    apply (similar_match g3 _ _ _ _ (conj He Hn)) in Ha, Hb.
    destruct (foldl_adds (sync_edges w r)
                (λ N i e, ∃ p v a b,
                   p ∈ object_properties (w_schema w) ∧
                   v ∈ indirect_values r (i_name i) (p_name p) ∧
                   a ∈ matching N "Individual" (i_name i) ∧
                   b ∈ matching N "Individual" v ∧ e = (a, p_name p, b))
                (individuals w) g2) as [[Hnodes _] Hnew].
    + intros. apply sync_edges_grows_adds.
    + intros g0 i0 e (p0 & v0 & a0 & b0 & Hp0 & Hv0 & Ha0 & Hb0 & ->).
      destruct (sync_edges_grows_adds w r g0 i0) as [_ H0].
      apply (H0 p0 v0 a0 b0 Hp0 Hv0); [exact Ha0|exact Hb0].
    + fold g3 in Hnodes.
      assert (Hmatch : ∀ id, match_nodes ["Individual"] id g3
                             = matching (nodes g2) "Individual" id).
      { intros id. apply (match_nodes_nodes _ _ (Graph (nodes g2) []) g3).
        exact Hnodes. }
      rewrite Hmatch in Ha, Hb.
      apply (Hnew i); [done|]. by exists p, v, a, b.
  - intros Hid x a t b He Ha Ht.
    pose proof (sync_good E skip st st' _ _ Hsync Hid) as Hg.
    apply match_nodes_spec in Ha as (na & Hna & Hm).
    apply matches_individual in Hm as [Hia Hxa].
    destruct (good_edges _ _ _ Hg a t b na He Hna Hia)
      as [?|(y & v & nb & H1 & H2 & H3 & H4 & H5)]; [done|].
    rewrite <- (id_is_inj na x y Hxa H1) in H5.
    exists v. split; [done|]. apply match_nodes_spec. exists nb. split; [done|].
    by apply matches_individual.
Qed.

(** At the house with its robot: the edge to the kitchen. *)
Lemma edges_are_reasoned_values_witness :
  (7, "robotIsInSpace", 5)
    ∈ edges (projection (sync_to_neo4j plain_environment false house_one_place).1).
Proof.
  destruct (edges_are_reasoned_values plain_environment false house_one_place
              (sync_to_neo4j plain_environment false house_one_place).1 3 1)
    as [H _]; [vm_compute; reflexivity|].
  apply (H (Individual "robot1" ["Robot"] [] [("robotIsInSpace", ["kitchen"])])
           (OwlProperty "robotIsInSpace" false [] [] []) "kitchen" 7 5).
  - vm_compute. right. right. by left.
  - vm_compute. by left.
  - vm_compute. by left.
  - vm_compute. by left.
  - vm_compute. by left.
Defined.

End ProjectionShapeFacts.

(* ===================================================================== *)
(** * What the store operations keep *)
(* ===================================================================== *)

Module StoreInvariantFacts.
Import PyStr Neo4j ProjectionFacts Owl Exc Store StoreFacts Api
  RobotEdgeFacts ProjectionShapeFacts StringFacts.

(** ** Suffix search *)

Lemma search_one_Some L w id e :
  search_one L w id = Some e → endswith id (entity_iri w e) = true.
Proof.
  unfold search_one.
  destruct (List.find _ (resources L w)) as [[e' []]|] eqn:E; [|done|done].
  intros [= <-]. by apply List.find_some in E as [_ E].
Qed.

(** No resource outside the ontology whose Python object is falsy has
    an IRI that ends with [id]. *)
Definition found_is_truthy (L : library) (id : string) : bool :=
  forallb (λ r, negb (endswith id r.1) || r.2) (other_resources L).

Lemma search_one_finds L w id e :
  found_is_truthy L id = true →
  e ∈ entities w → endswith id (iri w (entity_name e)) = true →
  is_Some (search_one L w id).
Proof.
  intros Ht He Hend. unfold search_one, resources. rewrite find_over_app.
  destruct (List.find _ (map _ (other_resources L))) as [[e' b]|] eqn:Eo.
  - apply List.find_some in Eo as [Hin Hm]. simpl in Hm.
    apply list_elem_of_In, list_elem_of_fmap in Hin as ([iri0 b0] & [= -> ->] & Hr).
    pose proof (proj1 (forallb_forall _ _) Ht (iri0, b0)
                  (proj1 (list_elem_of_In _ _) Hr)) as Hb.
    simpl in Hm, Hb. rewrite Hm in Hb. simpl in Hb. rewrite Hb. by eexists.
  - destruct (find_one_true (λ r : entity * bool, endswith id (entity_iri w r.1))
                (map (λ e, (e, true)) (entities w)) (e, true))
      as ([y b] & -> & Hy & _).
    + apply list_elem_of_fmap. by exists e.
    + simpl. pose proof (entities_named w e He). by destruct e.
    + apply list_elem_of_fmap in Hy as (x & [= -> ->] & _). by eexists.
Qed.

(** ** Adding *)

(** X10.  [add_individual] answers success only for a class name that
    [getattr] finds and an id that [search_one] does not; for a
    request the model follows (a class of the ontology, properties
    that fit the schema) with such an id it does answer success, and
    the model then has one individual more, the last one, with this
    id and this class, every other individual having kept its name and
    classes. *)
Theorem add_individual_adds_one (E : environment) (data : individual_data)
    (auto_sync : bool) (st : manager) :
  (∀ st' id,
     add_individual E data auto_sync st = (st', Success id) →
     id = d_id data ∧
     is_Some (get_class (owlready2 E) (world st) (d_class data)) ∧
     search_one (owlready2 E) (world st) (d_id data) = None) ∧
  (entry_fits (owlready2 E) (world st) data = true →
   search_one (owlready2 E) (world st) (d_id data) = None →
   ∃ st',
     add_individual E data auto_sync st = (st', Success (d_id data)) ∧
     kinds (world st') = kinds (world st) ++ [(d_id data, [d_class data])]).
Proof.
  split.
  - intros st' id. unfold add_individual. cbv zeta.
    destruct (get_class (owlready2 E) (world st) (d_class data)) as [cls|];
      [|done].
    destruct (search_one (owlready2 E) (world st) (d_id data)); [done|].
    match goal with
    | |- context [match ?c ?s with _ => _ end] => destruct (c s) as [s2 [x|[]]]
    end; [done|].
    intros [= <- <-]. by split; [|split; [eexists|]].
  - intros Hfit Hsearch.
    destruct (entry_fits_parts _ _ _ Hfit) as (Ha & Hc & _ & _ & Hp).
    destruct (get_class_known (owlready2 E) (world st) (world st) (d_class data)
                eq_refl Ha Hc) as (c & Hcls & Hname).
    unfold add_individual. cbv zeta. rewrite Hcls, Hsearch.
    unfold bind at 1, modify.
    destruct (set_properties_fits E (world st) (d_id data) (d_properties data)
                (with_world st (create (world st) c (d_id data))) eq_refl Hp)
      as (st2 & H2 & [[_ Hk] _]).
    rewrite H2. eexists. split; [reflexivity|].
    assert (Hk2 : kinds (world st2)
                  = kinds (world st) ++ [(d_id data, [d_class data])]).
    { rewrite Hk. simpl. by rewrite create_kinds, Hname. }
    destruct auto_sync; [|done]. by rewrite sync_world.
Qed.

(** Adding the robot to the house. *)
Lemma add_individual_adds_one_witness :
  ∃ st',
    add_individual plain_environment one_place false house
      = (st', Success "robot1") ∧
    kinds (world st') = kinds (world house) ++ [("robot1", ["Robot"])].
Proof.
  destruct (add_individual_adds_one plain_environment one_place false house)
    as [_ H].
  apply H; vm_compute; reflexivity.
Defined.

(** X11.  An id is refused, and the store left as it is, as soon as the IRI
    of some entity of the model (an individual, but also a class or a
    property) ends with it, unless a search for it stops at a resource
    outside the ontology whose Python object is falsy: the empty id
    and the tail of any existing name are taken. *)
Theorem add_individual_refuses_suffix (E : environment) (data : individual_data)
    (auto_sync : bool) (st : manager) (e : entity) (cls : attribute) :
  get_class (owlready2 E) (world st) (d_class data) = Some cls →
  e ∈ entities (world st) →
  endswith (d_id data) (iri (world st) (entity_name e)) = true →
  found_is_truthy (owlready2 E) (d_id data) = true →
  add_individual E data auto_sync st = (st, Error (AlreadyExists (d_id data))).
Proof.
  intros Hc He Hend Ht. unfold add_individual. cbv zeta. rewrite Hc.
  by destruct (search_one_finds _ _ _ _ Ht He Hend) as [x ->].
Qed.

(** The id [all] in a house that has a hall. *)
Lemma add_individual_refuses_suffix_witness :
  add_individual plain_environment (IndividualData "all" "Space" no_properties)
    true house
  = (house, Error (AlreadyExists "all")).
Proof.
  apply (add_individual_refuses_suffix plain_environment
           (IndividualData "all" "Space" no_properties) true house
           (EIndividual "hall") (AClass (OwlClass "Space" []))).
  - reflexivity.
  - vm_compute. do 6 right. by left.
  - reflexivity.
  - reflexivity.
Defined.

(** ** Deleting *)

Lemma destroy_kinds w name :
  kinds (destroy w name) = filter (λ k, k.1 ≠ name) (kinds w).
Proof.
  unfold kinds, destroy. simpl. induction (individuals w) as [|i l IH]; [done|].
  rewrite filter_cons. simpl. rewrite (filter_cons _ (i_name i, i_is_a i)). simpl.
  destruct (decide (i_name i ≠ name)); simpl; by rewrite IH.
Qed.

Lemma destroy_references w name i p vs :
  i ∈ individuals (destroy w name) → (p, vs) ∈ i_objects i → name ∉ vs.
Proof.
  unfold destroy. simpl. intros Hi Hp.
  apply list_elem_of_fmap in Hi as (i0 & -> & _). simpl in Hp.
  apply list_elem_of_fmap in Hp as ([p0 vs0] & [= -> ->] & _). simpl.
  intros H. by apply list_elem_of_filter in H as [H _].
Qed.

(** X12.  When the first resource whose IRI ends with the id is an
    individual, [delete_individual] destroys it and answers success,
    whether or not it is the individual of that name.  That individual
    is gone from the model with every reference to it, the others
    have kept their names and classes, and, when the reasoner of the
    sync that follows succeeds (in an ontology with no data property
    named [id]), no [Individual] node carries its name. *)
Theorem delete_individual_removes (E : environment) (individual_id : string)
    (st : manager) (name : string) :
  search_one (owlready2 E) (world st) individual_id = Some (EIndividual name) →
  ∃ st',
    delete_individual E individual_id st = (st', Success individual_id) ∧
    endswith individual_id (iri (world st) name) = true ∧
    kinds (world st') = filter (λ k, k.1 ≠ name) (kinds (world st)) ∧
    (∀ i p vs, i ∈ individuals (world st') → (p, vs) ∈ i_objects i → name ∉ vs) ∧
    (∀ r, reason E (destroy (world st) name) = Some r →
       (∀ p, p ∈ data_properties (w_schema (world st)) → p_name p ≠ "id") →
       match_nodes ["Individual"] name (projection st') = []).
Proof.
  intros Es. unfold delete_individual. rewrite Es. simpl.
  eexists. split; [reflexivity|].
  split; [by apply (search_one_Some _ _ _ _ Es)|].
  rewrite sync_world. simpl.
  split; [apply destroy_kinds|]. split; [apply destroy_references|].
  intros r Hr Hid.
  set (st2 := with_world st (destroy (world st) name)).
  assert (Hsync : sync_to_neo4j E false st2
                  = ((sync_to_neo4j E false st2).1,
                     SyncSuccess (length (individuals (world st2)))
                                 (relationships_count (world st2) r))).
  { unfold sync_to_neo4j. simpl. by rewrite Hr. }
  eapply stranger_has_no_node.
  - by apply (sync_good E false st2 _ _ _ Hsync).
  - fold (names (world st2)). rewrite names_kinds. unfold st2. simpl.
    rewrite destroy_kinds. intros H.
    apply list_elem_of_fmap in H as ([n c] & -> & H).
    by apply list_elem_of_filter in H as [H _].
Qed.

(** Deleting [all] from the house deletes the hall. *)
Lemma delete_individual_removes_witness :
  ∃ st',
    delete_individual plain_environment "all" house = (st', Success "all") ∧
    kinds (world st') = filter (λ k, k.1 ≠ "hall") (kinds (world house)).
Proof.
  destruct (delete_individual_removes plain_environment "all" house "hall")
    as (st' & H1 & _ & H3 & _).
  - vm_compute. reflexivity.
  - by exists st'.
Defined.

(** ** Batches *)

(** X31.  The counts of a batch that answers success add up to the
    number of its entries.  A batch of entries the model follows
    (classes of the ontology, ids that are new to the model and to
    each other, properties that fit the schema) answers success with
    every entry added: the model keeps its schema and has, after the
    individuals it had, one individual for each entry, in the class of
    the entry. *)
Theorem batch_adds_every_entry (E : environment)
    (entries : list individual_data) (st : manager) :
  (∀ st' added failed,
     add_individuals_batch E entries st = (st', BatchSuccess added failed) →
     added + failed = length entries) ∧
  (loadable (owlready2 E) (world st) entries = true →
   ∃ st',
     add_individuals_batch E entries st
       = (st', BatchSuccess (length entries) 0) ∧
     w_schema (world st') = w_schema (world st) ∧
     kinds (world st')
     = kinds (world st) ++ map (λ d, (d_id d, [d_class d])) entries).
Proof.
  split; [intros st' added failed; apply batch_counts|apply batch_loads].
Qed.

(** The batch that fills the house. *)
Lemma batch_adds_every_entry_witness :
  kinds (world house) = [("kitchen", ["Space"]); ("hall", ["Space"])].
Proof.
  destruct (batch_adds_every_entry plain_environment
              [IndividualData "kitchen" "Space" no_properties;
               IndividualData "hall" "Space" no_properties]
              (Manager (World house_schema [])
                 (initialize_neo4j_schema house_schema Neo4j.empty)
                 (asserted_view (World house_schema [])) None))
    as [_ H].
  destruct H as (st' & H1 & _ & H3); [vm_compute; reflexivity|].
  unfold house. rewrite H1. exact H3.
Defined.

(** ** Names stay distinct *)

Lemma fresh_ids_distinct base taken ids :
  NoDup taken → fresh_ids base taken ids = true → NoDup (taken ++ ids).
Proof.
  revert taken. induction ids as [|id ids IH]; intros taken Hnd H.
  - by rewrite app_nil_r.
  - simpl in H. apply andb_true_iff in H as [Hnew Hrest].
    assert (Hid : id ∉ taken).
    { intros Hin.
      pose proof (proj1 (forallb_forall _ _) Hnew id
                    (proj1 (list_elem_of_In _ _) Hin)) as Hf.
      simpl in Hf. by rewrite endswith_app in Hf. }
    rewrite (assoc_L (++) taken [id] ids : taken ++ id :: ids = (taken ++ [id]) ++ ids).
    apply IH; [|done]. apply NoDup_app. split; [done|].
    split; [|apply NoDup_singleton]. intros x Hx Hx'.
    by apply list_elem_of_singleton in Hx' as ->.
Qed.

Lemma filter_names_distinct (l : list (string * list string)) name :
  NoDup l.*1 → NoDup (filter (λ k, k.1 ≠ name) l).*1.
Proof.
  induction l as [|[n c] l IH]; [done|].
  rewrite filter_cons. simpl. intros Hnd. apply NoDup_cons in Hnd as [Hn Hnd].
  destruct (decide (n ≠ name)); [|by apply IH].
  simpl. apply NoDup_cons. split; [|by apply IH].
  intros Hin. apply Hn. apply list_elem_of_fmap in Hin as (y & -> & Hy).
  apply list_elem_of_filter in Hy as [_ Hy]. apply list_elem_of_fmap. by exists y.
Qed.

(** X14.  Once the model holds no two individuals of the same name, it
    holds no two after a batch of entries the model follows, after
    [add_individual] of such an entry, whatever the answer, and after
    [delete_individual] of an id that is found at an individual or
    not at all. *)
Theorem names_stay_distinct (E : environment) (st : manager) :
  NoDup (names (world st)) →
  (∀ entries,
     loadable (owlready2 E) (world st) entries = true →
     NoDup (names (world (add_individuals_batch E entries st).1))) ∧
  (∀ data auto_sync,
     entry_fits (owlready2 E) (world st) data = true →
     NoDup (names (world (add_individual E data auto_sync st).1))) ∧
  (∀ id,
     (search_one (owlready2 E) (world st) id = None
      ∨ ∃ name, search_one (owlready2 E) (world st) id = Some (EIndividual name)) →
     NoDup (names (world (delete_individual E id st).1))).
Proof.
  intros Hnd. split; [|split].
  - intros entries Hload.
    destruct (batch_loads E entries st Hload) as (st' & -> & _ & Hk).
    simpl. rewrite names_kinds, Hk, fmap_app, <- names_kinds.
    rewrite <- list_fmap_compose.
    unfold loadable in Hload. apply andb_true_iff in Hload as [_ Hfresh].
    by eapply fresh_ids_distinct.
  - intros data auto_sync Hfit.
    destruct (entry_fits_parts _ _ _ Hfit) as (Ha & Hc & Ho & Hs & Hp).
    destruct (get_class_known (owlready2 E) (world st) (world st) (d_class data)
                eq_refl Ha Hc) as (c & Hcls & Hname).
    unfold add_individual. cbv zeta. rewrite Hcls.
    destruct (search_one (owlready2 E) (world st) (d_id data)) eqn:Es; [done|].
    unfold bind at 1, modify.
    destruct (set_properties_fits E (world st) (d_id data) (d_properties data)
                (with_world st (create (world st) c (d_id data))) eq_refl Hp)
      as (st2 & -> & K).
    assert (H2 : NoDup (names (world st2))).
    { rewrite (kept_names _ _ K). simpl. rewrite create_names.
      apply NoDup_app. split; [done|]. split; [|apply NoDup_singleton].
      intros x Hx Hx'. apply list_elem_of_singleton in Hx' as ->.
      rewrite search_one_individuals in Es by done.
      destruct (find_one_true (λ n, endswith (d_id data) (iri (world st) n))
                  _ _ Hx) as (y & Hy & _); [apply endswith_app|].
      by rewrite Hy in Es. }
    destruct auto_sync; [|done]. simpl. by rewrite sync_world.
  - intros id Hfound. unfold delete_individual.
    destruct Hfound as [-> | [name ->]]; [done|].
    simpl. rewrite sync_world. simpl. rewrite names_kinds, destroy_kinds.
    apply filter_names_distinct. by rewrite <- names_kinds.
Qed.

(** At the house. *)
Lemma names_stay_distinct_witness :
  NoDup (names (world (add_individual plain_environment one_place true house).1)).
Proof.
  destruct (names_stay_distinct plain_environment house) as (_ & H & _).
  - refine (bool_decide_unpack _ _). vm_compute. exact I.
  - apply H. vm_compute. reflexivity.
Defined.

(** ** The line scan of the update endpoint *)

Lemma scan_cons in_delete in_insert raw rest :
  scan in_delete in_insert (raw :: rest) =
  if contains "DELETE" (upper (strip raw)) then scan true false rest
  else if contains "INSERT" (upper (strip raw)) then scan false true rest
  else if startswith "}" (strip raw) then scan false false rest
  else
    let content := negb (String.eqb (strip raw) EmptyString)
                   && negb (startswith "{" (strip raw)) in
    if in_delete && content
    then (strip raw :: (scan in_delete in_insert rest).1,
          (scan in_delete in_insert rest).2)
    else if in_insert && content
    then ((scan in_delete in_insert rest).1,
          strip raw :: (scan in_delete in_insert rest).2)
    else scan in_delete in_insert rest.
Proof.
  change (scan in_delete in_insert (raw :: rest)) with
    (let line := strip raw in
     if contains "DELETE" (upper line) then scan true false rest
     else if contains "INSERT" (upper line) then scan false true rest
     else if startswith "}" line then scan false false rest
     else
       let '(dels, inss) := scan in_delete in_insert rest in
       let content := negb (String.eqb line EmptyString) && negb (startswith "{" line) in
       if in_delete && content then (line :: dels, inss)
       else if in_insert && content then (dels, line :: inss)
       else (dels, inss)).
  cbv zeta. destruct (scan in_delete in_insert rest) as [dels inss]. done.
Qed.

Lemma scan_lines in_delete in_insert lines line :
  line ∈ (scan in_delete in_insert lines).1 ++ (scan in_delete in_insert lines).2 →
  contains "DELETE" (upper line) = false ∧
  contains "INSERT" (upper line) = false ∧
  startswith "}" line = false ∧ startswith "{" line = false ∧
  line ≠ EmptyString ∧
  ∃ raw, raw ∈ lines ∧ line = strip raw.
Proof.
  revert in_delete in_insert.
  induction lines as [|raw rest IH]; intros in_delete in_insert.
  - simpl. intros H. by apply elem_of_nil in H.
  - assert (Hrec : ∀ d i,
              line ∈ (scan d i rest).1 ++ (scan d i rest).2 →
              contains "DELETE" (upper line) = false ∧
              contains "INSERT" (upper line) = false ∧
              startswith "}" line = false ∧ startswith "{" line = false ∧
              line ≠ EmptyString ∧ ∃ raw0, raw0 ∈ raw :: rest ∧ line = strip raw0).
    { intros d i H. destruct (IH d i H) as (H1 & H2 & H3 & H4 & H5 & raw0 & H6 & H7).
      repeat (split; [done|]). exists raw0. split; [by right|done]. }
    rewrite scan_cons. cbv zeta.
    destruct (contains "DELETE" (upper (strip raw))) eqn:E1; [apply Hrec|].
    destruct (contains "INSERT" (upper (strip raw))) eqn:E2; [apply Hrec|].
    destruct (startswith "}" (strip raw)) eqn:E3; [apply Hrec|].
    specialize (Hrec in_delete in_insert).
    destruct (negb (String.eqb (strip raw) EmptyString)
              && negb (startswith "{" (strip raw))) eqn:Ec.
    + assert (Hhere : line = strip raw →
                contains "DELETE" (upper line) = false ∧
                contains "INSERT" (upper line) = false ∧
                startswith "}" line = false ∧ startswith "{" line = false ∧
                line ≠ EmptyString ∧ ∃ raw0, raw0 ∈ raw :: rest ∧ line = strip raw0).
      { intros ->. apply andb_true_iff in Ec as [Hc1 Hc2].
        apply negb_true_iff in Hc1, Hc2. apply String.eqb_neq in Hc1.
        repeat (split; [done|]). exists raw. split; [by left|done]. }
      destruct in_delete; cbn [andb fst snd].
      * intros H. apply elem_of_cons in H as [->|H]; [by apply Hhere|by apply Hrec].
      * destruct in_insert; cbn [andb fst snd]; [|apply Hrec].
        intros H. apply elem_of_app in H as [H|H].
        -- apply Hrec. apply elem_of_app. by left.
        -- apply elem_of_cons in H as [->|H]; [by apply Hhere|].
           apply Hrec. apply elem_of_app. by right.
    + rewrite !andb_false_r. apply Hrec.
Qed.

(** X15.  The line scan of the update endpoint takes a line for a triple only
    if, stripped, it is not empty, does not start with a brace and does
    not contain [delete] or [insert] in any letter case: a triple whose
    IRIs contain one of these words is never applied. *)
Theorem sections_skip_keywords (sparql_update line : string) :
  line ∈ (sections sparql_update).1 ++ (sections sparql_update).2 →
  contains "DELETE" (upper line) = false ∧
  contains "INSERT" (upper line) = false ∧
  startswith "}" line = false ∧ startswith "{" line = false ∧
  line ≠ EmptyString ∧
  ∃ raw, raw ∈ split_on newline sparql_update ∧ line = strip raw.
Proof. apply scan_lines. Qed.

(** A move into a room called [insert_bay]: the INSERT line mentions
    the word and is taken for the head of a block. *)
Definition move_to_insert_bay : string :=
  PyStr.join WorldUpdate.newline
    [ "DELETE {";
      "    <http://ex.org/o#robot1> <http://ex.org/o#robotIsInSpace> <http://ex.org/o#kitchen> .";
      "}";
      "INSERT {";
      "    <http://ex.org/o#robot1> <http://ex.org/o#robotIsInSpace> <http://ex.org/o#insert_bay> .";
      "}";
      "WHERE { }" ].

Example insert_line_taken_for_keyword :
  sections move_to_insert_bay
  = (["<http://ex.org/o#robot1> <http://ex.org/o#robotIsInSpace> <http://ex.org/o#kitchen> ."],
     []).
Proof. vm_compute. reflexivity. Qed.

(** The DELETE line of that update. *)
Lemma sections_skip_keywords_witness :
  contains "INSERT"
    (upper "<http://ex.org/o#robot1> <http://ex.org/o#robotIsInSpace> <http://ex.org/o#kitchen> .")
  = false.
Proof.
  apply (sections_skip_keywords move_to_insert_bay).
  vm_compute. by left.
Defined.

End StoreInvariantFacts.

(* ===================================================================== *)
(** * More on the embeddings *)
(* ===================================================================== *)

Module EmbeddingShapeFacts.
Import Neo4j ProjectionFacts SyncFacts Owl Exc Store Embedding RobotEdgeFacts.

Lemma load_items_count items count g g' n :
  load_items items count g = (g', inr n) → count ≤ n ≤ count + length items.
Proof.
  revert count g. induction items as [|item items IH]; intros count g; simpl.
  - intros [= _ <-]. lia.
  - unfold bind. destruct (load_item item g) as [g1 [e|found]]; [done|].
    intros H. apply IH in H. destruct found; lia.
Qed.

(** The list the loader iterates over: the file itself in the legacy
    layout, the value under ["embeddings"] otherwise. *)
Definition embeddings_of (file : Py.value) : option Py.value :=
  match file with
  | Py.List _ => Some file
  | Py.Dict fields => Py.get "embeddings" fields
  | _ => None
  end.

(** X16.  When the loader returns a count, the count is at most the number
    of entries of the cache, and the projection has kept its edges and,
    node by node, its labels and ids. *)
Theorem cache_count_bounded (self : embedding_manager) (file : Py.value)
    (g g' : graph) (n : nat) :
  load_embeddings_from_file self (Some file) g = (g', inr n) →
  similar g g' ∧
  ∃ l items, embeddings_of file = Some l ∧ iterate l = inr items ∧
             n ≤ length items.
Proof.
  intros H. split.
  { pose proof (load_embeddings_keeps similar similar_refl similar_trans
                  (λ v id g0, set_prop_similar "description_embedding" v _ g0
                                ltac:(done)) self (Some file) g) as Hs.
    by rewrite H in Hs. }
  revert H. unfold load_embeddings_from_file, embeddings_of.
  destruct file as [| | | |l0|fields]; try done.
  - destruct (iterate (Py.List l0)) as [e|items] eqn:Ei; [done|].
    intros Hl. apply load_items_count in Hl.
    exists (Py.List l0), items. split; [done|]. split; [done|]. lia.
  - destruct (Py.get "metadata" fields) as [metadata|]; [|done].
    destruct (Py.get "embeddings" fields) as [l|]; [|done].
    destruct (log_metadata metadata); [done|].
    destruct (iterate l) as [e|items] eqn:Ei; [done|].
    intros Hl. apply load_items_count in Hl.
    exists l, items. split; [done|]. split; [done|]. lia.
Qed.

(** A cache in the legacy layout: an entry for the kitchen and one for
    a place the model does not have. *)
Definition legacy_cache : Py.value :=
  Py.List
    [ Py.Dict [ ("id", Py.Str "kitchen");
                ("description_embedding", Py.List [Py.Num "0.1"; Py.Num "0.2"]) ];
      Py.Dict [ ("id", Py.Str "attic");
                ("description_embedding", Py.List [Py.Num "0.3"; Py.Num "0.4"]) ] ].

Lemma cache_count_bounded_witness :
  similar (projection StoreFacts.house)
    (load_embeddings_from_file StoreFacts.no_embeddings (Some legacy_cache)
       (projection StoreFacts.house)).1 ∧
  ∃ l items,
    embeddings_of legacy_cache = Some l ∧ iterate l = inr items ∧
    1 ≤ length items.
Proof.
  apply (cache_count_bounded StoreFacts.no_embeddings legacy_cache
           (projection StoreFacts.house)
           (load_embeddings_from_file StoreFacts.no_embeddings (Some legacy_cache)
              (projection StoreFacts.house)).1 1).
  vm_compute. reflexivity.
Defined.

(** ** Generating *)

(** Whether [embed_individual] raises: it depends on the individual
    and the service, not on the projection. *)
Definition fails (em : embedding_manager) (r : reasoned) (i : individual) : bool :=
  match (embed_individual em r i Neo4j.empty).2 with
  | inl _ => true
  | inr _ => false
  end.

Lemma embed_individual_fails em r i g :
  match (embed_individual em r i g).2 with
  | inl _ => fails em r i = true
  | inr _ => fails em r i = false
  end.
Proof.
  unfold fails, embed_individual. case_bool_decide; [|done].
  match goal with
  | |- context [match ?x with Some _ => _ | None => _ end] => destruct x as [v|]
  end; [|done].
  destruct v; try done.
  destruct (String.eqb _ _); [done|].
  by destruct (generate_description_embedding em s).
Qed.

Lemma embed_all_raises em r l failed g :
  failed < 3 →
  match (embed_all em r l failed g).2 with
  | inl _ => 3 ≤ failed + length (filter (λ i, fails em r i = true) l)
  | inr _ => failed + length (filter (λ i, fails em r i = true) l) < 3
  end.
Proof.
  revert failed g. induction l as [|i l IH]; intros failed g Hf.
  - simpl. lia.
  - rewrite filter_cons. cbn [embed_all].
    pose proof (embed_individual_fails em r i g) as Hi.
    destruct (embed_individual em r i g) as [g1 [e|b]]; simpl in Hi; rewrite Hi.
    + rewrite decide_True by done. simpl length.
      destruct (3 <=? S failed) eqn:E3.
      * apply Nat.leb_le in E3. simpl. lia.
      * apply Nat.leb_gt in E3. specialize (IH (S failed) g1 E3).
        destruct (embed_all em r l (S failed) g1).2; lia.
    + rewrite decide_False by done. by apply IH.
Qed.

(** X17.  With [generate: true] the loop over the individuals is given up
    with an exception exactly when three of them fail; with fewer
    failures it runs to its end. *)
Theorem generation_stops_at_third_failure (em : embedding_manager) (r : reasoned)
    (l : list individual) (g : graph) :
  (∃ e, (embed_all em r l 0 g).2 = inl e)
  ↔ 3 ≤ length (filter (λ i, fails em r i = true) l).
Proof.
  pose proof (embed_all_raises em r l 0 g ltac:(lia)) as H.
  destruct (embed_all em r l 0 g).2 as [e|[]]; simpl in H.
  - split; [intros _; lia|intros _; by exists e].
  - split; [by intros [e ?]|lia].
Qed.

End EmbeddingShapeFacts.

(* ===================================================================== *)
(** * More on the goal normalizer *)
(* ===================================================================== *)

Module FixNotFacts.
Import PyStr GoalNormalizer StringFacts.

Definition count_char (c : ascii) (s : string) : nat :=
  length (filter (λ x, x = c) (chars s)).

Lemma count_cons c x s :
  count_char c (String x s) = (if decide (x = c) then 1 else 0) + count_char c s.
Proof.
  unfold count_char. rewrite chars_cons, filter_cons. by destruct (decide (x = c)).
Qed.

Lemma count_app c a b : count_char c (a +:+ b) = count_char c a + count_char c b.
Proof. unfold count_char. by rewrite chars_app, filter_app, length_app. Qed.

Lemma find_close_split depth s a b :
  find_close depth s = Some (a, b) → s = a +:+ b.
Proof.
  revert depth a b. induction s as [|c r IH]; intros depth a b.
  - destruct depth; simpl; [by intros [= <- <-]|done].
  - destruct depth as [|d]; [by intros [= <- <-]|].
    cbn [find_close].
    destruct (find_close _ r) as [[a' b']|] eqn:E; [|done].
    intros [= <- <-]. apply IH in E. by rewrite E.
Qed.

(** What a run of [fix_not_from] does to the text: [k] pairs of
    parentheses are added, nothing is taken away. *)
Definition padded (k : nat) (s out : string) : Prop :=
  sublist (chars s) (chars out) ∧
  count_char "(" out = count_char "(" s + k ∧
  count_char ")" out = count_char ")" s + k ∧
  String.length out = String.length s + 2 * k.

Lemma padded_refl s : padded 0 s s.
Proof. unfold padded. repeat split; try lia. done. Qed.

Lemma padded_cons k c s out : padded k s out → padded k (String c s) (String c out).
Proof.
  intros (H1 & H2 & H3 & H4). unfold padded. rewrite !count_cons, !chars_cons.
  split; [by apply sublist_skip|]. simpl. lia.
Qed.

Lemma padded_wrap k inside rest out :
  padded k rest out →
  padded (S k) ("not (" +:+ inside +:+ rest)
               ("(not " +:+ String "(" inside +:+ ")" +:+ out).
Proof.
  intros (H1 & H2 & H3 & H4). unfold padded.
  change ("(not " +:+ String "(" inside +:+ ")" +:+ out)
    with (String "(" ("not (" +:+ inside +:+ ")" +:+ out)).
  rewrite !count_cons, !chars_cons, !count_app, !length_append, !chars_app.
  split.
  - apply sublist_cons. apply sublist_app; [done|].
    apply sublist_app; [done|]. by apply sublist_cons.
  - change (count_char "(" "not (") with 1.
    change (count_char ")" "not (") with 0.
    change (count_char "(" ")") with 0.
    change (count_char ")" ")") with 1.
    simpl. rewrite ?length_append. simpl. repeat split; lia.
Qed.

Lemma fix_not_from_padded fuel prev s : ∃ k, padded k s (fix_not_from fuel prev s).
Proof.
  revert prev s. induction fuel as [|fuel IH]; intros prev s.
  - exists 0. apply padded_refl.
  - destruct s as [|c r]; [exists 0; apply padded_refl|].
    cbn [fix_not_from].
    assert (Hstep : ∃ k, padded k (String c r)
                      (String c (fix_not_from fuel (Some c) r))).
    { destruct (IH (Some c) r) as [k Hk]. exists k. by apply padded_cons. }
    destruct (startswith "not (" (String c r) && _) eqn:E; [|done].
    apply andb_true_iff in E as [E _].
    destruct (find_close 1 (slice_from 5 (String c r))) as [[inside rest]|] eqn:Ef;
      [|done].
    destruct (IH (Some ")"%char) rest) as [k Hk]. exists (S k).
    rewrite (startswith_split _ _ E) at 1.
    change (String.length "not (") with 5.
    rewrite (find_close_split _ _ _ _ Ef). by apply padded_wrap.
Qed.

Lemma fix_not_from_same fuel prev s :
  contains "not (" s = false → fix_not_from fuel prev s = s.
Proof.
  revert prev s. induction fuel as [|fuel IH]; intros prev s H; [done|].
  destruct s as [|c r]; [done|]. cbn [fix_not_from].
  change (contains "not (" (String c r))
    with (startswith "not (" (String c r) || contains "not (" r) in H.
  apply orb_false_iff in H as [H1 H2]. rewrite H1. cbn [andb].
  by rewrite IH.
Qed.

(** X18.  [fix_not_syntax] only adds parentheses, and in pairs: the text it
    is given is left in place, character by character, the result has
    as many opening as closing parentheses more, and a text without
    ["not ("] is returned as it is. *)
Theorem fix_not_syntax_only_adds_parentheses (text : string) :
  (∃ k,
     sublist (chars text) (chars (fix_not_syntax text)) ∧
     count_char "(" (fix_not_syntax text) = count_char "(" text + k ∧
     count_char ")" (fix_not_syntax text) = count_char ")" text + k ∧
     String.length (fix_not_syntax text) = String.length text + 2 * k) ∧
  (contains "not (" text = false → fix_not_syntax text = text).
Proof.
  split; [apply fix_not_from_padded|apply fix_not_from_same].
Qed.

(** A goal without negation. *)
Lemma fix_not_syntax_only_adds_parentheses_witness :
  fix_not_syntax "(and (isOpen door_1) (isON tv_2))"
  = "(and (isOpen door_1) (isON tv_2))".
Proof.
  apply (fix_not_syntax_only_adds_parentheses "(and (isOpen door_1) (isON tv_2))").
  reflexivity.
Defined.

End FixNotFacts.

(* ===================================================================== *)
(** * Properties of the move parser and the TTL versions *)
(* ===================================================================== *)

Module MoveActionFacts.
Import PyStr GoalNormalizer Owl MoveAction StringFacts.

(** A non-empty run of [\w] characters, and one of white space. *)
Definition word (s : string) : Prop := s ≠ EmptyString ∧ all_of is_word s.
Definition blank (s : string) : Prop := s ≠ EmptyString ∧ all_of is_space s.

Lemma word_stops_space w s : word w → stops is_space (w +:+ s).
Proof.
  intros [Hne Hw]. destruct w as [|c w]; [done|]. rewrite append_cons. simpl.
  apply word_not_space. apply all_of_cons in Hw. tauto.
Qed.

Lemma blank_stops_word ws s : blank ws → stops is_word (ws +:+ s).
Proof.
  intros [Hne Hw]. destruct ws as [|c w]; [done|]. rewrite append_cons. simpl.
  apply space_not_word. apply all_of_cons in Hw. tauto.
Qed.

Lemma match_arg_spec s w s2 :
  match_arg s = Some (w, s2) ↔
  ∃ ws, blank ws ∧ word w ∧ s = ws +:+ w +:+ s2 ∧ stops is_word s2.
Proof.
  unfold match_arg. split.
  - case_eq (span is_space s). intros ws s1 E1.
    apply span_spec in E1 as (-> & Hws & Hs1).
    destruct ws as [|c ws]; [done|].
    case_eq (span is_word s1). intros w' s2' E2.
    apply span_spec in E2 as (-> & Hw & Hs2).
    destruct w' as [|d w']; [done|]. intros [= <- <-].
    exists (String c ws). repeat split; try done.
  - intros (ws & [Hne Hws] & [Hnw Hw] & -> & Hs2).
    assert (E1 : span is_space (ws +:+ w +:+ s2) = (ws, w +:+ s2)).
    { apply span_spec. split; [done|]. split; [done|]. by apply word_stops_space. }
    rewrite E1. destruct ws as [|c ws]; [done|].
    assert (E2 : span is_word (w +:+ s2) = (w, s2)).
    { apply span_spec. by split. }
    rewrite E2. by destruct w.
Qed.

Lemma parse_move_action_inv (action : string) (r f t : string) :
  parse_move_action action = inr (Move r f t) →
  ∃ s1 s2 s3 rest,
    blank s1 ∧ blank s2 ∧ blank s3 ∧ word r ∧ word f ∧ word t ∧
    action = "(move" +:+ s1 +:+ r +:+ s2 +:+ f +:+ s3 +:+ t +:+ ")" +:+ rest.
Proof.
  unfold parse_move_action.
  destruct (startswith "(move" action) eqn:Es; [|done].
  apply startswith_split in Es. change (String.length "(move") with 5 in Es.
  cbn [match_args].
  destruct (match_arg (slice_from 5 action)) as [[r' x1]|] eqn:E1; [|done].
  destruct (match_arg x1) as [[f' x2]|] eqn:E2; [|done].
  destruct (match_arg x2) as [[t' x3]|] eqn:E3; [|done].
  destruct x3 as [|c rest]; [done|].
  destruct (Ascii.eqb_spec c ")") as [->|Hc].
  2:{ destruct c as [[] [] [] [] [] [] [] []]; done. }
  intros [= <- <- <-].
  apply match_arg_spec in E1 as (s1 & B1 & W1 & Hx0 & _).
  apply match_arg_spec in E2 as (s2 & B2 & W2 & -> & _).
  apply match_arg_spec in E3 as (s3 & B3 & W3 & -> & _).
  exists s1, s2, s3, rest. repeat (split; [done|]).
  by rewrite Es, Hx0 at 1.
Qed.

(** X19.  [parse_move_action] accepts exactly the texts that start with
    [(move], white space, three words set off by white space and a
    closing parenthesis, whatever follows; it returns the three words.
    Any other text raises [ValueError]. *)
Theorem parse_move_action_spec (action : string) (r f t : string) :
  parse_move_action action = inr (Move r f t)
  ↔ ∃ s1 s2 s3 rest,
      blank s1 ∧ blank s2 ∧ blank s3 ∧ word r ∧ word f ∧ word t ∧
      action = "(move" +:+ s1 +:+ r +:+ s2 +:+ f +:+ s3 +:+ t +:+ ")" +:+ rest.
Proof.
  split; [apply parse_move_action_inv|]. unfold parse_move_action.
  intros (s1 & s2 & s3 & rest & B1 & B2 & B3 & W1 & W2 & W3 & ->).
  rewrite startswith_app.
  change 5 with (String.length "(move"). rewrite slice_from_app.
  cbn [match_args].
  assert (E1 : match_arg (s1 +:+ r +:+ s2 +:+ f +:+ s3 +:+ t +:+ ")" +:+ rest)
               = Some (r, s2 +:+ f +:+ s3 +:+ t +:+ ")" +:+ rest)).
  { apply match_arg_spec. exists s1. repeat (split; [done|]).
    by apply blank_stops_word. }
  assert (E2 : match_arg (s2 +:+ f +:+ s3 +:+ t +:+ ")" +:+ rest)
               = Some (f, s3 +:+ t +:+ ")" +:+ rest)).
  { apply match_arg_spec. exists s2. repeat (split; [done|]).
    by apply blank_stops_word. }
  assert (E3 : match_arg (s3 +:+ t +:+ ")" +:+ rest) = Some (t, ")" +:+ rest)).
  { apply match_arg_spec. exists s3. by repeat (split; [done|]). }
  by rewrite E1, E2, E3.
Qed.

(** ** The next version *)

Lemma version_file_inj base_name u v :
  version_file base_name u = version_file base_name v → u = v.
Proof.
  unfold version_file. intros H.
  apply append_inv_head, append_inv_head, append_inv_tail in H.
  by apply (inj pretty) in H.
Qed.

Lemma next_version_spec fuel files base_name v0 :
  match next_version fuel files base_name v0 with
  | Some v =>
      v0 ≤ v ∧ (version_file base_name v ∉ files) ∧
      ∀ u, v0 ≤ u < v → version_file base_name u ∈ files
  | None => ∀ u, v0 ≤ u < v0 + fuel → version_file base_name u ∈ files
  end.
Proof.
  revert v0. induction fuel as [|fuel IH]; intros v0; simpl; [intros u; lia|].
  case_bool_decide as Hin.
  - specialize (IH (S v0)).
    destruct (next_version fuel files base_name (S v0)) as [v|].
    + destruct IH as (H1 & H2 & H3). split; [lia|]. split; [done|].
      intros u Hu. destruct (decide (u = v0)) as [->|]; [done|]. apply H3. lia.
    + intros u Hu. destruct (decide (u = v0)) as [->|]; [done|]. apply IH. lia.
  - split; [done|]. split; [done|]. intros u. lia.
Qed.

Lemma versions_bounded (files : gset string) base_name v0 n :
  (∀ u, v0 ≤ u < v0 + n → version_file base_name u ∈ files) → n ≤ size files.
Proof.
  intros H.
  set (l := version_file base_name <$> seq v0 n).
  assert (Hnd : NoDup l).
  { apply NoDup_fmap_2; [|apply NoDup_seq]. intros u v. apply version_file_inj. }
  assert (Hsub : (list_to_set l : gset string) ⊆ files).
  { intros x Hx. apply elem_of_list_to_set in Hx.
    apply list_elem_of_fmap in Hx as (u & -> & Hu).
    apply elem_of_seq in Hu. apply H. lia. }
  apply subseteq_size in Hsub. rewrite size_list_to_set in Hsub by done.
  unfold l in Hsub. by rewrite length_fmap, length_seq in Hsub.
Qed.

(** X20.  [get_next_ttl_version] ends, and returns the least version from 1
    on whose file is not in the directory: it never names a file that
    exists, and skips none that is free. *)
Theorem next_version_is_least (files : gset string) (base_name : string) :
  ∃ v, get_next_ttl_version files base_name = Some v ∧
       1 ≤ v ∧ (version_file base_name v ∉ files) ∧
       ∀ u, 1 ≤ u < v → version_file base_name u ∈ files.
Proof.
  unfold get_next_ttl_version.
  pose proof (next_version_spec (S (size files)) files base_name 1) as H.
  destruct (next_version (S (size files)) files base_name 1) as [v|].
  - by exists v.
  - apply versions_bounded in H. lia.
Qed.

End MoveActionFacts.

(* ===================================================================== *)
(** * Properties of the task names *)
(* ===================================================================== *)

Module TaskNameFacts.
Import PyStr GoalNormalizer TaskName StringFacts.

Lemma keep_all f s : all_of f (keep f s).
Proof.
  induction s as [|c s IH]; simpl; [apply all_of_nil|].
  destruct (f c) eqn:E; [|done]. by apply all_of_cons.
Qed.

Lemma keep_same f s : all_of f s → keep f s = s.
Proof.
  induction s as [|c s IH]; simpl; [done|]. intros H.
  apply all_of_cons in H as [-> H]. by rewrite IH.
Qed.

Lemma prefix_all f n s : all_of f s → all_of f (prefix n s).
Proof.
  revert s. induction n as [|n IH]; intros [|c s] H; simpl; try apply all_of_nil.
  apply all_of_cons in H as [H1 H2]. apply all_of_cons. split; [done|by apply IH].
Qed.

Lemma prefix_length n s : String.length (prefix n s) ≤ n.
Proof.
  revert s. induction n as [|n IH]; intros [|c s]; simpl; try lia.
  specialize (IH s). lia.
Qed.

Lemma prefix_same n s : String.length s ≤ n → prefix n s = s.
Proof.
  revert s. induction n as [|n IH]; intros [|c s]; simpl; try done; try lia.
  intros H. rewrite IH; [done|lia].
Qed.

(** The second group of a match is one white-space character, or text
    that starts with a character that is not white space. *)
Lemma match_predicate_args s w args rest :
  match_predicate s = Some (w, args, rest) →
  (∃ c, is_space c = true ∧ args = String c EmptyString) ∨
  (∃ c r, is_space c = false ∧ args = String c r).
Proof.
  destruct s as [|a r]; [done|].
  destruct (Ascii.eqb_spec a "(") as [->|Ha].
  2:{ destruct a as [[] [] [] [] [] [] [] []]; done. }
  cbn [match_predicate].
  case_eq (span is_word r). intros w' r1 _.
  destruct w' as [|x w']; [done|].
  case_eq (span is_space r1). intros ws r2 E2.
  apply span_spec in E2 as (_ & Hws & Hr2).
  destruct ws as [|y ws]; [done|].
  case_eq (span not_close r2). intros body r3 E3.
  apply span_spec in E3 as (-> & _ & _).
  destruct body as [|b body].
  - destruct r3 as [|c r3]; [done|].
    destruct (Ascii.eqb_spec c ")") as [->|Hc].
    2:{ destruct c as [[] [] [] [] [] [] [] []]; done. }
    destruct ws as [|z ws]; [done|].
    destruct (last_char (String y (String z ws))) as [l|] eqn:El; [|done].
    intros [= <- <- <-]. left. exists l. split; [|done].
    apply Hws. clear -El. revert El.
    generalize (String y (String z ws)). intros s.
    induction s as [|c s IH]; [done|].
    destruct s as [|d s].
    + intros [= ->]. apply list_elem_of_here.
    + intros H. change (l ∈ c :: chars (String d s)).
      apply list_elem_of_further. by apply IH.
  - rewrite append_cons in Hr2. simpl in Hr2.
    destruct r3 as [|c r3]; [done|].
    destruct (Ascii.eqb_spec c ")") as [->|Hc].
    2:{ destruct c as [[] [] [] [] [] [] [] []]; done. }
    intros [= <- <- <-]. right. by exists b, body.
Qed.

Lemma search_predicate_args s w args :
  search_predicate s = Some (w, args) →
  (∃ c, is_space c = true ∧ args = String c EmptyString) ∨
  (∃ c r, is_space c = false ∧ args = String c r).
Proof.
  induction s as [|a s IH].
  - simpl. done.
  - cbn [search_predicate].
    destruct (match_predicate (String a s)) as [[[w' args'] rest]|] eqn:E.
    + intros [= <- <-]. by eapply match_predicate_args.
    + exact IH.
Qed.

Lemma split_ws_aux_pending cur s : cur ≠ EmptyString → split_ws_aux cur s ≠ [].
Proof.
  revert cur. induction s as [|c s IH]; intros cur Hc; simpl.
  - by destruct cur.
  - destruct (is_space c); [by destruct cur|]. by apply IH.
Qed.

Lemma contains_space_one c :
  contains " " (String c EmptyString) = true ↔ c = " "%char.
Proof.
  destruct c as [[] [] [] [] [] [] [] []]; vm_compute; split; congruence.
Qed.

(** X21.  Whatever [extract_task_description] returns is a name of at most
    50 characters, all of them letters, digits or underscores; a
    description that is such a name already is returned as it is. *)
Theorem task_name_is_file_safe (task_description goal_formula : option string)
    (desc : string) :
  extract_task_description task_description goal_formula = inr desc →
  String.length desc ≤ 50 ∧ all_of is_word desc ∧
  (∀ d, task_description = Some d → d ≠ EmptyString →
        all_of is_word d → String.length d ≤ 50 → desc = d).
Proof.
  unfold extract_task_description.
  set (r := match truthy task_description with Some d => inr d | None => _ end).
  assert (Hr : ∀ d, task_description = Some d → d ≠ EmptyString → r = inr d).
  { intros d -> Hd. unfold r. by destruct d. }
  destruct r as [e|d0] eqn:Er; [done|]. intros H.
  assert (desc = prefix 50 (keep is_word d0)) as -> by congruence. clear H.
  split; [apply prefix_length|]. split; [apply prefix_all, keep_all|].
  intros d Hd Hne Hw Hl. specialize (Hr d Hd Hne). injection Hr as ->.
  rewrite keep_same by done. by apply prefix_same.
Qed.

Lemma task_name_is_file_safe_witness :
  extract_task_description None (Some "(isON tv_52)") = inr "isON_tv_52" ∧
  String.length "isON_tv_52" ≤ 50.
Proof.
  split; [reflexivity|].
  apply (task_name_is_file_safe None (Some "(isON tv_52)") "isON_tv_52").
  reflexivity.
Defined.

(** X22.  [extract_task_description] raises [IndexError] in one case only:
    there is no task description, and the arguments matched for the
    first predicate of the goal are a single space; so [(isON  )]
    raises and [(isON )] gives the name [task]. *)
Theorem task_name_raises_on_blank_arguments
    (task_description goal_formula : option string) :
  (extract_task_description task_description goal_formula = inl IndexError
   ↔ truthy task_description = None ∧
     ∃ g predicate, goal_formula = Some g ∧
       search_predicate g = Some (predicate, " ")) ∧
  extract_task_description None (Some "(isON  )") = inl IndexError ∧
  extract_task_description None (Some "(isON )") = inr "task".
Proof.
  split; [|split; reflexivity].
  unfold extract_task_description.
  destruct (truthy task_description) as [d|] eqn:Et.
  { split; [done|]. by intros [? _]. }
  destruct goal_formula as [g|]; simpl.
  2:{ split; [done|]. by intros (_ & g & p & ? & _). }
  destruct g as [|a g].
  { simpl. split; [done|]. intros (_ & g & p & [= <-] & H). done. }
  cbn [truthy].
  destruct (search_predicate (String a g)) as [[p args]|] eqn:Es.
  2:{ split; [done|]. intros (_ & g' & p & [= <-] & H). congruence. }
  destruct (search_predicate_args _ _ _ Es) as [(c & Hc & ->)|(c & r & Hc & ->)].
  - destruct (decide (c = " "%char)) as [->|Hn].
    + split; [|done]. intros _. split; [done|]. by exists (String a g), p.
    + assert (Hf : contains " " (String c EmptyString) = false).
      { destruct (contains " " (String c EmptyString)) eqn:E; [|done].
        by apply contains_space_one in E. }
      rewrite Hf. split; [done|].
      intros (_ & g' & p' & [= <-] & H). congruence.
  - assert (Hs : split_ws (String c r) ≠ []).
    { unfold split_ws. simpl. rewrite Hc. by apply split_ws_aux_pending. }
    split.
    + destruct (contains " " (String c r)); [|done].
      by destruct (split_ws (String c r)).
    + intros (_ & g' & p' & [= <-] & H). rewrite Es in H.
      assert (c = " "%char) as -> by congruence. done.
Qed.

End TaskNameFacts.

(* ===================================================================== *)
(** * Properties of the goal utilities *)
(* ===================================================================== *)

Module GoalUtilsFacts.
Import PyStr GoalNormalizer TaskName GoalUtils.

Section classify.
Variable types_map : gmap string string.
Variable is_subtype_of : string → string → bool.

(** The two classes, read off the loop body. *)
Definition is_location (obj_id : string) : bool :=
  match types_map !! obj_id with
  | Some obj_type =>
      negb (String.eqb obj_type EmptyString) &&
      (is_subtype_of obj_type "Location" || String.eqb obj_type "Location")
  | None => false
  end.

Definition is_artifact (obj_id : string) : bool :=
  match types_map !! obj_id with
  | Some obj_type =>
      String.eqb obj_type "Artifact" && negb (is_subtype_of obj_type "Location")
  | None => false
  end.

Lemma classify_one_spec acc obj_id :
  classify_one types_map is_subtype_of acc obj_id =
  (acc.1 ++ (if is_artifact obj_id then [obj_id] else []),
   acc.2 ++ (if is_location obj_id then [obj_id] else [])).
Proof.
  destruct acc as [a l]. unfold classify_one, is_artifact, is_location. simpl.
  destruct (types_map !! obj_id) as [ty|]; [|by rewrite !app_nil_r].
  destruct ty as [|c ty]; [by rewrite !app_nil_r|].
  cbv beta iota.
  assert (String.eqb (String c ty) EmptyString = false) as -> by done.
  generalize (String c ty). intros t.
  destruct (is_subtype_of t "Location"); simpl.
  { by rewrite andb_false_r, app_nil_r. }
  destruct (String.eqb_spec t "Location") as [->|Hl]; simpl.
  { by rewrite app_nil_r. }
  destruct (String.eqb_spec t "Artifact") as [->|Ha]; simpl.
  - by rewrite app_nil_r.
  - by rewrite !app_nil_r.
Qed.

Lemma classify_fold object_ids acc :
  foldl (classify_one types_map is_subtype_of) acc object_ids =
  (acc.1 ++ filter (λ i, is_artifact i = true) object_ids,
   acc.2 ++ filter (λ i, is_location i = true) object_ids).
Proof.
  revert acc. induction object_ids as [|i ids IH]; intros acc; simpl.
  - rewrite !filter_nil, !app_nil_r. by destruct acc.
  - rewrite IH, classify_one_spec. simpl. rewrite !filter_cons.
    destruct (is_artifact i), (is_location i); simpl;
      repeat case_decide; try done; by rewrite <- ?app_assoc.
Qed.

(** X23.  [classify_objects_by_domain_type] keeps the order of the ids and
    loses none: the locations are the ids whose type is [Location] or
    one of its subtypes, the artifacts the ids typed [Artifact] when
    that is no subtype of [Location]; an id without a type, or with an
    empty or another type, is in neither list, and no id is in both. *)
Theorem classify_splits_by_type (object_ids : list string) :
  let result := classify_objects_by_domain_type object_ids types_map is_subtype_of in
  result.1 `sublist_of` object_ids ∧ result.2 `sublist_of` object_ids ∧
  (∀ i, i ∈ result.2 ↔
        i ∈ object_ids ∧
        ∃ ty, types_map !! i = Some ty ∧ ty ≠ EmptyString ∧
              (is_subtype_of ty "Location" = true ∨ ty = "Location")) ∧
  (∀ i, i ∈ result.1 ↔
        i ∈ object_ids ∧ types_map !! i = Some "Artifact" ∧
        is_subtype_of "Artifact" "Location" = false) ∧
  (∀ i, ¬ (i ∈ result.1 ∧ i ∈ result.2)).
Proof.
  unfold classify_objects_by_domain_type. rewrite classify_fold. simpl.
  assert (Hl : ∀ i, is_location i = true ↔
            ∃ ty, types_map !! i = Some ty ∧ ty ≠ EmptyString ∧
              (is_subtype_of ty "Location" = true ∨ ty = "Location")).
  { intros i. unfold is_location. destruct (types_map !! i) as [ty|].
    - rewrite andb_true_iff, negb_true_iff, orb_true_iff, String.eqb_neq, String.eqb_eq.
      split.
      + intros [H1 H2]. by exists ty.
      + intros (ty' & [= <-] & H1 & H2). done.
    - split; [done|]. by intros (ty & ? & _). }
  assert (Ha : ∀ i, is_artifact i = true ↔
            types_map !! i = Some "Artifact" ∧
            is_subtype_of "Artifact" "Location" = false).
  { intros i. unfold is_artifact. destruct (types_map !! i) as [ty|].
    - rewrite andb_true_iff, negb_true_iff, String.eqb_eq. split.
      + by intros [-> H].
      + by intros [[= ->] H].
    - split; [done|]. by intros [? _]. }
  split; [apply sublist_filter|]. split; [apply sublist_filter|].
  split; [|split].
  - intros i. rewrite list_elem_of_filter, Hl. tauto.
  - intros i. rewrite list_elem_of_filter, Ha. tauto.
  - intros i. rewrite !list_elem_of_filter, Hl, Ha.
    intros [[[H1 H2] _] [(ty & Ht & _ & [H|H]) _]]; rewrite H1 in Ht;
      injection Ht as <-; congruence.
Qed.

End classify.

Section validate.
Variable artifact_ids : list string.
Variable affordances_map : gmap string (list string).

(** What holds of the warnings and of the artifacts with issues
    throughout the loops. *)
Definition sound (acc : list warning * list string) : Prop :=
  NoDup acc.2 ∧
  (∀ a, a ∈ acc.2 ↔ ∃ w, w ∈ acc.1 ∧ w_artifact w = a) ∧
  (∀ w, w ∈ acc.1 →
     w_artifact w ∈ artifact_ids ∧
     w_affordances w = default [] (affordances_map !! w_artifact w) ∧
     (w_required w ∉ w_affordances w) ∧
     required_affordance (w_predicate w) = Some (w_required w)).

Lemma check_argument_sound predicate required acc arg_id :
  required_affordance predicate = Some required →
  sound acc →
  sound (check_argument artifact_ids affordances_map predicate required acc arg_id).
Proof.
  intros Hreq (Hnd & Hiss & Hw). destruct acc as [ws iss].
  unfold check_argument. simpl in *.
  case_bool_decide as Hin; [|done].
  case_bool_decide as Haff; [done|].
  split; [|split]; simpl.
  - case_bool_decide as Hold; [done|].
    apply NoDup_app. split; [done|]. split; [|apply NoDup_singleton].
    intros x Hx Hx'. apply list_elem_of_singleton in Hx'. by subst.
  - intros a. split.
    + intros Ha.
      assert (Hcases : a ∈ iss ∨ a = arg_id).
      { case_bool_decide; [by left|].
        apply elem_of_app in Ha as [?|Ha]; [by left|].
        apply list_elem_of_singleton in Ha. by right. }
      destruct Hcases as [Ha'| ->].
      * apply Hiss in Ha' as (w & H1 & H2). exists w. split; [|done].
        apply elem_of_app. by left.
      * eexists. split; [apply elem_of_app; right; apply list_elem_of_singleton; done|done].
    + intros (w & Hwin & <-). apply elem_of_app in Hwin as [Hwin|Hwin].
      * assert (w_artifact w ∈ iss) by (apply Hiss; by exists w).
        case_bool_decide; [done|]. apply elem_of_app. by left.
      * apply list_elem_of_singleton in Hwin as ->. simpl.
        case_bool_decide; [done|]. apply elem_of_app. right.
        by apply list_elem_of_singleton.
  - intros w Hwin. apply elem_of_app in Hwin as [Hwin|Hwin]; [by apply Hw|].
    apply list_elem_of_singleton in Hwin as ->. simpl. done.
Qed.

Lemma check_match_sound acc m :
  sound acc → sound (check_match artifact_ids affordances_map acc m).
Proof.
  destruct m as [predicate args]. unfold check_match.
  destruct (required_affordance predicate) as [required|] eqn:Hreq; [|done].
  generalize (split_ws args). intros l. revert acc.
  induction l as [|x l IH]; intros acc Hacc; simpl; [done|].
  by apply IH, check_argument_sound.
Qed.

Lemma required_affordance_cases predicate required :
  required_affordance predicate = Some required →
  (predicate = "isON" ∧ required = "Affordance_Power") ∨
  (predicate = "isOpen" ∧ required = "Affordance_Open").
Proof.
  unfold required_affordance.
  destruct (String.eqb_spec predicate "isON") as [->|_]; [intros [= <-]; by left|].
  destruct (String.eqb_spec predicate "isOpen") as [->|_]; [intros [= <-]; by right|].
  done.
Qed.

(** X24.  [validate_goal_affordances] reports issues exactly when it gives a
    warning; the artifacts with issues are the artifacts of the
    warnings, each once; and every warning is about an artifact of the
    given list that lacks the affordance its predicate needs: power
    for [isON], opening for [isOpen].  No other predicate is ever
    warned about. *)
Theorem warnings_are_missing_affordances (goal_formula : string) :
  let result := validate_goal_affordances goal_formula artifact_ids affordances_map in
  (result.2.1 = true ↔ result.1 ≠ []) ∧
  (result.2.1 = true ↔ result.2.2 ≠ []) ∧
  NoDup result.2.2 ∧
  (∀ a, a ∈ result.2.2 ↔ ∃ w, w ∈ result.1 ∧ w_artifact w = a) ∧
  (∀ w, w ∈ result.1 →
     w_artifact w ∈ artifact_ids ∧
     (w_required w ∉ default [] (affordances_map !! w_artifact w)) ∧
     ((w_predicate w = "isON" ∧ w_required w = "Affordance_Power") ∨
      (w_predicate w = "isOpen" ∧ w_required w = "Affordance_Open"))).
Proof.
  unfold validate_goal_affordances.
  set (ms := findall_predicates _ _).
  assert (H : sound (foldl (check_match artifact_ids affordances_map) ([], []) ms)).
  { assert (Hall : ∀ acc, sound acc →
              sound (foldl (check_match artifact_ids affordances_map) acc ms)).
    { induction ms as [|m ms IH]; intros acc Hacc; simpl; [done|].
      by apply IH, check_match_sound. }
    apply Hall. split; [constructor|]. split.
    - intros a. split; [by intros ?%elem_of_nil|].
      by intros (w & ?%elem_of_nil & _).
    - by intros w ?%elem_of_nil. }
  destruct (foldl _ _ ms) as [ws iss]. destruct H as (Hnd & Hiss & Hw). simpl in *.
  assert (Hne : negb (length ws =? 0) = true ↔ ws ≠ []).
  { destruct ws; simpl; split; done. }
  split; [done|]. split.
  { rewrite Hne. split.
    - destruct ws as [|w ws]; [done|]. intros _ ->.
      assert (H : w_artifact w ∈ []) by (apply Hiss; exists w; split; [left|done]).
      by apply elem_of_nil in H.
    - destruct iss as [|a iss]; [done|]. intros _ ->.
      assert (H : a ∈ a :: iss) by left. apply Hiss in H as (w & ?%elem_of_nil & _).
      done. }
  split; [done|]. split; [done|].
  intros w Hin. destruct (Hw w Hin) as (H1 & H2 & H3 & H4).
  split; [done|]. split; [by rewrite <- H2|].
  by apply required_affordance_cases.
Qed.

End validate.

End GoalUtilsFacts.

(* ===================================================================== *)
(** * Properties of the written topology *)
(* ===================================================================== *)

Module WriterFacts.
Import PyStr Topology Writer.

Definition headings : list string := [rule; "    ; TOPOLOGY"; rule].

Definition distance_headings : list string :=
  [EmptyString; rule; "    ; DISTANCES (Location->Location)"; rule;
   "    ; Distance between locations via hasPathTo relationships"].

Definition path_lines (connections : list (string * string)) : list string :=
  flat_map (λ c, [path_line c.1 c.2; path_line c.2 c.1])
           (merge_sort pair_le connections).

Definition distance_lines (distances : distance_table) : list string :=
  map (λ kv, distance_line kv.1.1 kv.1.2 kv.2)
      (merge_sort item_le (map_to_list distances)).

Lemma generate_init_topology_parts connections distances :
  generate_init_topology (connections, distances) =
  headings ++ path_lines connections ++
  (if decide (distances = ∅) then []
   else distance_headings ++ distance_lines distances).
Proof. reflexivity. Qed.

Lemma path_lines_spec connections line :
  line ∈ path_lines connections ↔
  ∃ a b, ((a, b) ∈ connections ∨ (b, a) ∈ connections) ∧ line = path_line a b.
Proof.
  unfold path_lines. rewrite list_elem_of_In, in_flat_map.
  setoid_rewrite <- list_elem_of_In. split.
  - intros ([a b] & Hc & Hl). rewrite merge_sort_Permutation in Hc. simpl in Hl.
    apply elem_of_cons in Hl as [->|Hl].
    + exists a, b. by split; [left|].
    + apply list_elem_of_singleton in Hl as ->. exists b, a. by split; [right|].
  - intros (a & b & [H|H] & ->).
    + exists (a, b). rewrite merge_sort_Permutation. split; [done|]. simpl. left.
    + exists (b, a). rewrite merge_sort_Permutation. split; [done|]. simpl.
      right. left.
Qed.

Lemma distance_lines_spec distances line :
  line ∈ distance_lines distances ↔
  ∃ a b n, distances !! (a, b) = Some n ∧ line = distance_line a b n.
Proof.
  unfold distance_lines. rewrite list_elem_of_fmap. split.
  - intros ([[a b] n] & -> & H). rewrite merge_sort_Permutation in H.
    apply elem_of_map_to_list in H. by exists a, b, n.
  - intros (a & b & n & H & ->). exists ((a, b), n). split; [done|].
    rewrite merge_sort_Permutation. by apply elem_of_map_to_list.
Qed.

(** X25.  The lines [generate_init_topology] writes are the headings, two
    [hasPathTo] lines for each connection and, when there are
    distances, one line for each entry of the table: nothing else is
    written and nothing is left out. *)
Theorem written_topology_lines
    (topology : list (string * string) * distance_table) (line : string) :
  line ∈ generate_init_topology topology ↔
  line ∈ headings ∨
  (∃ a b, ((a, b) ∈ topology.1 ∨ (b, a) ∈ topology.1) ∧ line = path_line a b) ∨
  (topology.2 ≠ ∅ ∧
   (line ∈ distance_headings ∨
    ∃ a b n, topology.2 !! (a, b) = Some n ∧ line = distance_line a b n)).
Proof.
  destruct topology as [connections distances].
  rewrite generate_init_topology_parts. cbn [fst snd].
  case_decide as He.
  - rewrite !elem_of_app, path_lines_spec.
    split; [intros [?|[?|?%elem_of_nil]]; tauto|].
    intros [?|[?|[? _]]]; tauto.
  - rewrite !elem_of_app, path_lines_spec, distance_lines_spec. tauto.
Qed.

(** X26.  Each connection of [get_topology] is written as a path in both
    directions and has a distance line in both directions: the planner
    is never given a path without its cost. *)
Theorem written_paths_have_distances
    (direct_edges : list string → list (string * string))
    (location_ids : gset string) (precomputed_distances : distance_table)
    (a b : string) :
  let topology := get_topology direct_edges location_ids precomputed_distances in
  let lines := generate_init_topology topology in
  (a, b) ∈ topology.1 →
  path_line a b ∈ lines ∧ path_line b a ∈ lines ∧
  ∃ n m, distance_line a b n ∈ lines ∧ distance_line b a m ∈ lines.
Proof.
  cbv zeta. intros Hab.
  assert (Hd : is_Some ((get_topology direct_edges location_ids
                           precomputed_distances).2 !! (a, b)) ∧
               is_Some ((get_topology direct_edges location_ids
                           precomputed_distances).2 !! (b, a))).
  { revert Hab. unfold get_topology. case_decide as He; simpl.
    - by intros ?%elem_of_nil.
    - apply TopologyShapeFacts.add_direct_spec. }
  destruct (get_topology direct_edges location_ids precomputed_distances)
    as [connections distances].
  cbn [fst snd] in *.
  destruct Hd as [[n Hn] [m Hm]].
  assert (Hne : distances ≠ ∅).
  { intros He. rewrite He in Hn. by rewrite lookup_empty in Hn. }
  rewrite generate_init_topology_parts, decide_False by done.
  split; [|split].
  - apply elem_of_app. right. apply elem_of_app. left.
    apply path_lines_spec. exists a, b. by split; [left|].
  - apply elem_of_app. right. apply elem_of_app. left.
    apply path_lines_spec. exists b, a. by split; [right|].
  - exists n, m. split; do 3 (apply elem_of_app; right);
      apply distance_lines_spec.
    + by exists a, b, n.
    + by exists b, a, m.
Qed.

(** On one corridor. *)
Lemma written_paths_have_distances_witness :
  path_line "b" "a" ∈
    generate_init_topology (get_topology (λ _, [("a", "b")]) {["a"; "b"]} ∅).
Proof.
  apply (written_paths_have_distances (λ _, [("a", "b")]) {["a"; "b"]} ∅ "a" "b").
  vm_compute. by left.
Defined.

End WriterFacts.

(* ===================================================================== *)
(** * Properties of the plan reader and of the action queue *)
(* ===================================================================== *)

Module PlanFacts.
Import PyStr GoalNormalizer Plan StringFacts.

(** A stripped line that is an action: it starts with an opening and
    ends with a closing parenthesis. *)
Definition is_action (line : string) : bool :=
  startswith "(" line && endswith ")" line.

Lemma startswith_one a c s :
  startswith (String a EmptyString) (String c s) = Ascii.eqb a c.
Proof. simpl. apply andb_true_r. Qed.

Lemma read_plan_line_actions acc raw :
  actions (read_plan_line acc raw) =
    actions acc ++ (if is_action (strip raw) then [strip raw] else []) ∧
  step_count (read_plan_line acc raw) =
    step_count acc + (if is_action (strip raw) then 1 else 0) ∧
  raw_content (read_plan_line acc raw) = raw_content acc.
Proof.
  unfold read_plan_line, is_action.
  generalize (strip raw). intros line.
  destruct line as [|c line].
  { simpl. rewrite app_nil_r. repeat split; try lia.
    all: by destruct (search_cost EmptyString). }
  assert (String.eqb (String c line) EmptyString = false) as -> by done.
  rewrite orb_false_l.
  destruct (startswith ";" (String c line)) eqn:Es.
  - assert (startswith "(" (String c line) = false) as ->.
    { rewrite startswith_one in *. by apply Ascii.eqb_eq in Es as <-. }
    rewrite andb_false_l, app_nil_r, Nat.add_0_r.
    destruct (contains "cost" (lower (String c line))); [|done].
    by destruct (search_cost (String c line)).
  - destruct (startswith "(" (String c line) && endswith ")" (String c line));
      simpl; [split; [done|split; [lia|done]]|].
    rewrite app_nil_r. split; [done|split; [lia|done]].
Qed.

Lemma read_plan_lines lines acc :
  actions (foldl read_plan_line acc lines) =
    actions acc ++ filter (λ l, is_action l = true) (strip <$> lines) ∧
  step_count (foldl read_plan_line acc lines) =
    step_count acc + length (filter (λ l, is_action l = true) (strip <$> lines)) ∧
  raw_content (foldl read_plan_line acc lines) = raw_content acc.
Proof.
  revert acc. induction lines as [|raw lines IH]; intros acc; simpl.
  - rewrite filter_nil, app_nil_r. simpl. repeat split; lia.
  - destruct (IH (read_plan_line acc raw)) as (H1 & H2 & H3).
    destruct (read_plan_line_actions acc raw) as (E1 & E2 & E3).
    rewrite H1, H2, H3, E1, E2, E3, filter_cons.
    destruct (is_action (strip raw)); case_decide; try done; cbn [length].
    + rewrite <- app_assoc. simpl. split; [done|]. split; [|done].
      unfold fmap. lia.
    + rewrite app_nil_r. split; [done|]. split; [|done]. unfold fmap. lia.
Qed.

(** X27.  [parse_plan_file] returns, in the order of the file, the stripped
    lines that start with an opening and end with a closing
    parenthesis, and nothing else: empty lines, comments and other
    text give no action, and [step_count] is the number of actions. *)
Theorem plan_actions_are_parenthesised_lines (content : string) :
  let data := parse_plan_file content in
  actions data =
    filter (λ l, is_action l = true)
           (strip <$> split_on (ascii_of_nat 10) content) ∧
  step_count data = length (actions data) ∧
  raw_content data = content ∧
  ∀ a, a ∈ actions data →
       startswith "(" a = true ∧ endswith ")" a = true ∧
       startswith ";" a = false ∧ a ≠ EmptyString.
Proof.
  unfold parse_plan_file. cbv zeta.
  destruct (read_plan_lines (split_on (ascii_of_nat 10) content)
              (PlanData [] None 0 content)) as (H1 & H2 & H3).
  simpl in H1, H2, H3. rewrite H1, H2, H3.
  split; [done|]. split; [done|]. split; [done|].
  intros a Ha. apply list_elem_of_filter in Ha as [Ha _].
  unfold is_action in Ha. apply andb_true_iff in Ha as [Ha1 Ha2].
  split; [done|]. split; [done|].
  destruct a as [|c a]; [done|]. split; [|done].
  rewrite startswith_one in *. by apply Ascii.eqb_eq in Ha1 as <-.
Qed.

(** ** The queue of actions *)

Definition start (plan_actions : list string) : agenda :=
  Agenda plan_actions None None.

Lemma next_action_started plan_actions k :
  k < length plan_actions →
  Nat.iter (S k) next_action (start plan_actions) =
  Agenda plan_actions (Some (drop (S k) plan_actions)) (plan_actions !! k).
Proof.
  induction k as [|k IH]; intros Hk.
  - simpl. unfold next_action, start. simpl.
    destruct plan_actions as [|a l]; [simpl in Hk; lia|]. done.
  - rewrite Nat.iter_succ, IH by lia. unfold next_action. simpl.
    destruct (lookup_lt_is_Some_2 plan_actions (S k) Hk) as [a Ha].
    rewrite (drop_S _ _ _ Ha). rewrite Ha.
    destruct plan_actions as [|b l]; [simpl in Hk; lia|]. done.
Qed.

(** X28.  Starting from a plan that has just been read, the calls of
    [next_action] hand out the actions of the plan in their order,
    each once; the calls after the last action hand out nothing, and
    on an empty plan no call changes the state. *)
Theorem actions_handed_out_in_order (plan_actions : list string) (k : nat) :
  let st := Nat.iter (S k) next_action (start plan_actions) in
  plan st = plan_actions ∧
  (k < length plan_actions →
   current_action st = plan_actions !! k ∧
   remaining_actions st = Some (drop (S k) plan_actions)) ∧
  (plan_actions ≠ [] → length plan_actions ≤ k →
   current_action st = None ∧ remaining_actions st = Some []) ∧
  (plan_actions = [] → st = start []).
Proof.
  cbv zeta. split; [|split; [|split]].
  - induction k as [|k IH].
    + simpl. unfold next_action, start. simpl. by destruct plan_actions.
    + rewrite Nat.iter_succ. revert IH.
      generalize (Nat.iter (S k) next_action (start plan_actions)).
      intros st <-. unfold next_action.
      destruct (plan st) eqn:E, (default _ (remaining_actions st)); simpl; congruence.
  - intros Hk. by rewrite next_action_started.
  - intros Hne Hk.
    assert (Hlast : Nat.iter (S (length plan_actions)) next_action
                      (start plan_actions) = Agenda plan_actions (Some []) None).
    { assert (∃ n, length plan_actions = S n) as [n Hn].
      { destruct plan_actions; [done|]. by eexists. }
      rewrite Hn, Nat.iter_succ, next_action_started by lia.
      unfold next_action. simpl. rewrite drop_ge by lia.
      by destruct plan_actions. }
    assert (Hstay : ∀ n, Nat.iter (S (length plan_actions + n)) next_action
                      (start plan_actions) = Agenda plan_actions (Some []) None).
    { induction n as [|n IH].
      - by rewrite Nat.add_0_r.
      - replace (S (length plan_actions + S n)) with (S (S (length plan_actions + n)))
          by lia.
        rewrite Nat.iter_succ, IH. unfold next_action. simpl.
        by destruct plan_actions. }
    replace k with (length plan_actions + (k - length plan_actions)) by lia.
    by rewrite Hstay.
  - intros ->. induction k as [|k IH]; [done|].
    by rewrite Nat.iter_succ, IH.
Qed.

Lemma actions_handed_out_in_order_witness :
  current_action
    (Nat.iter 2 next_action
       (start ["(move robot1 hall door_1)"; "(move robot1 door_1 kitchen)"]))
  = Some "(move robot1 door_1 kitchen)".
Proof.
  destruct (actions_handed_out_in_order
              ["(move robot1 hall door_1)"; "(move robot1 door_1 kitchen)"] 1)
    as (_ & H & _).
  destruct H as [H _]; [simpl; lia|]. exact H.
Defined.

End PlanFacts.

(* ===================================================================== *)
(** * Properties of the world-update node *)
(* ===================================================================== *)

Module NodeFacts.
Import PyStr GoalNormalizer Rdf WorldUpdate MoveAction Node StringFacts
       MoveActionFacts MoveDiffFacts.

(** ** Stripping and replacing *)








(** ** The action test and the parser *)


(** ** The files *)

Lemma dynamic_not_static u v : version_file "dynamic" u ≠ version_file "static" v.
Proof. unfold version_file. by rewrite !append_cons. Qed.






Section node.
Variable original_run updated_run : parse_run.
Variable server : Type.
Variable send_sparql_update : server → string → server * bool.
Variable mapping : option Py.value.

Abbreviation run :=
  (world_update original_run updated_run server send_sparql_update mapping).

(** X29.  One call of [world_update] writes at most the two files of the next
    version and never touches an older one.  It either leaves the
    state as it was and does nothing (no action, or not a move), or
    sets the status to failed without advancing the count, or
    succeeds: then the count advances by one, the action is recorded
    as the last one executed, the next dynamic file is the rewritten
    original and the server has accepted one request. *)
Theorem world_update_keeps_history
    (files : directory) (srv : server) (st : state) :
  let result := run files srv st in
  let n := default 0 (executed_action_count st) in
  (∀ name, name ≠ version_file "dynamic" (n + 1) →
           name ≠ version_file "static" (n + 1) →
           result.1.1 !! name = files !! name) ∧
  (∀ k, k ≤ n →
        result.1.1 !! version_file "dynamic" k = files !! version_file "dynamic" k ∧
        result.1.1 !! version_file "static" k = files !! version_file "static" k) ∧
  (result = (files, srv, st) ∨
   result.2 = fail st ∨
   (result.2 = State (current_action st) (current_action st) (Some success)
                     (Some (n + 1)) ∧
    ∃ action m original updated query,
      current_action st = Some action ∧
      parse_move_action action = inr m ∧
      files !! version_file "dynamic" n = Some original ∧
      save_incremental_update_to_ttl (Some original) (robot m) (from_location m)
        (to_location m) = Some updated ∧
      result.1.1 !! version_file "dynamic" (n + 1) = Some updated ∧
      query ≠ EmptyString ∧
      send_sparql_update srv query = (result.1.2, true))).
Proof.
  cbv zeta. set (n := default 0 (executed_action_count st)).
  assert (Hold : ∀ (fs : directory),
            (∀ name, name ≠ version_file "dynamic" (n + 1) →
                     name ≠ version_file "static" (n + 1) →
                     fs !! name = files !! name) →
            ∀ k, k ≤ n →
              fs !! version_file "dynamic" k = files !! version_file "dynamic" k ∧
              fs !! version_file "static" k = files !! version_file "static" k).
  { intros fs H k Hk. split; apply H.
    - intros E. apply version_file_inj in E. lia.
    - apply dynamic_not_static.
    - intros E. symmetry in E. by apply dynamic_not_static in E.
    - intros E. apply version_file_inj in E. lia. }
  assert (Hsame : ∀ name, name ≠ version_file "dynamic" (n + 1) →
                     name ≠ version_file "static" (n + 1) →
                     files !! name = files !! name) by done.
  unfold world_update.
  destruct (current_action st) as [action|] eqn:Ea.
  2:{ split; [done|]. split; [by apply Hold|]. by left. }
  destruct action as [|c action].
  { split; [done|]. split; [by apply Hold|]. by left. }
  destruct (startswith "(move" (strip (String c action))); simpl.
  2:{ split; [done|]. split; [by apply Hold|]. by left. }
  destruct (parse_move_action (String c action)) as [e|m] eqn:Ep.
  { split; [done|]. split; [by apply Hold|]. right. by left. }
  fold n.
  destruct (files !! version_file "dynamic" n) as [original|] eqn:Eo.
  2:{ split; [done|]. split; [by apply Hold|]. right. by left. }
  destruct (save_incremental_update_to_ttl (Some original) (robot m)
              (from_location m) (to_location m)) as [updated|] eqn:Es.
  2:{ split; [done|]. split; [by apply Hold|]. right. by left. }
  set (files1 := <[version_file "dynamic" (n + 1) := updated]> files).
  set (files2 := match files1 !! version_file "static" n with
                 | Some static => <[version_file "static" (n + 1) := static]> files1
                 | None => files1
                 end).
  assert (H2 : ∀ name, name ≠ version_file "dynamic" (n + 1) →
                       name ≠ version_file "static" (n + 1) →
                       files2 !! name = files !! name).
  { intros name H1 H2. unfold files2.
    destruct (files1 !! version_file "static" n).
    - rewrite lookup_insert_ne by done. unfold files1.
      by rewrite lookup_insert_ne.
    - unfold files1. by rewrite lookup_insert_ne. }
  assert (Hup : files2 !! version_file "dynamic" (n + 1) = Some updated).
  { unfold files2. destruct (files1 !! version_file "static" n).
    - rewrite lookup_insert_ne by apply not_eq_sym, dynamic_not_static.
      unfold files1. by rewrite lookup_insert_eq.
    - unfold files1. by rewrite lookup_insert_eq. }
  destruct (extract_changes original_run updated_run files2
              (version_file "dynamic" n)
              (version_file "dynamic" (n + 1))) as [added removed].
  destruct (String.eqb_spec
              (generate_sparql_update added removed mapping default_namespace)
              EmptyString) as [Eq|Eq].
  { split; [done|]. split; [by apply Hold|]. right. by left. }
  destruct (send_sparql_update srv
              (generate_sparql_update added removed mapping default_namespace))
    as [srv' sent] eqn:Esend.
  destruct sent.
  - split; [done|]. split; [by apply Hold|]. right. right. split; [done|].
    exists (String c action), m, original, updated,
      (generate_sparql_update added removed mapping default_namespace).
    done.
  - split; [done|]. split; [by apply Hold|]. right. by left.
Qed.


End node.

(** A dynamic file with a robot in the hall. *)
Definition robot_in_hall : list string :=
  [ "@prefix : <http://ex.org/o#> .";
    "@prefix rdf: <http://www.w3.org/1999/02/22-rdf-syntax-ns#> .";
    ":robot1 rdf:type :Robot ;";
    "    :robotIsInSpace :hall ." ].



(** With a blank node in the file the two parses name it differently:
    the diff of the file with itself is not empty, and the same move
    is sent to the server and recorded as executed. *)
Example same_place_move_with_blank_node :
  (world_update first_run second_run unit (λ srv _, (srv, true)) None
     {[ "dynamic_0.ttl" := robot_in_hall ++ [":robot1 :holds _:cup ."] ]} tt
     (State (Some "(move robot1 hall hall)") None None None)).2
  = State (Some "(move robot1 hall hall)") (Some "(move robot1 hall hall)")
          (Some success) (Some 1).
Proof. vm_compute. reflexivity. Qed.

End NodeFacts.
